(** * Meeting transcriber: the meeting-analysis core

    A shallow embedding of
    [src/meetingtranscriber/core/summarizer.py] (the rule-based analyzer) and
    [src/meetingtranscriber/core/summarization_service.py] (the orchestrator
    that talks to an Ollama endpoint), with the properties the specification
    states about them.

    Python [str] values are sequences of Unicode code points, so a string is
    a [list N] here and [len], slicing and indexing count code points.
    String constants of the source are written as UTF-8 literals and decoded
    by [u]. *)

From Stdlib Require Import String Ascii.
From Stdlib Require Import List NArith ZArith Arith Bool Lia Permutation Sorted.
Import ListNotations.

Set Implicit Arguments.
Set Warnings "-register-all".

Local Open Scope list_scope.

(** ** Python strings *)

Module PyStr.

(** A character is its code point. *)
Abbreviation char := N (only parsing).
Abbreviation str := (list N) (only parsing).

(** UTF-8 decoding of a source literal into code points. *)
Fixpoint utf8 (pending : nat) (acc : N) (s : string) : str :=
  match s with
  | EmptyString => []
  | String a s' =>
      let b := N_of_ascii a in
      match pending with
      | O =>
          if (b <? 128)%N then b :: utf8 0 0%N s'
          else if (b <? 224)%N then utf8 1 (N.land b 31) s'
          else if (b <? 240)%N then utf8 2 (N.land b 15) s'
          else utf8 3 (N.land b 7) s'
      | S O => (acc * 64 + N.land b 63)%N :: utf8 0 0%N s'
      | S p => utf8 p (acc * 64 + N.land b 63)%N s'
      end
  end.

Definition u (s : string) : str := utf8 0 0%N s.

(** [len(s)], for a string and for a list. *)
Definition len {A} (s : list A) : N := N.of_nat (List.length s).

Fixpoint str_eqb (a b : str) : bool :=
  match a, b with
  | [], [] => true
  | x :: a', y :: b' => (x =? y)%N && str_eqb a' b'
  | _, _ => false
  end.

(** The truth value of a string: [if s]. *)
Definition nonempty (s : str) : bool := match s with [] => false | _ => true end.

(** [x in xs] for a list or a set of strings. *)
Definition mem (x : str) (xs : list str) : bool := existsb (str_eqb x) xs.

(** [s.startswith(p)] *)
Fixpoint startswith (p s : str) : bool :=
  match p, s with
  | [], _ => true
  | x :: p', y :: s' => (x =? y)%N && startswith p' s'
  | _ :: _, [] => false
  end.

(** [needle in hay] for strings: substring test. *)
Fixpoint contains (needle hay : str) : bool :=
  startswith needle hay ||
  match hay with
  | [] => false
  | _ :: hay' => contains needle hay'
  end.

(** [str.isspace] of one character; the same set is [\s] of the [re] module
    for [str] patterns. *)
Definition isspace (c : char) : bool :=
  ((9 <=? c) && (c <=? 13) || (28 <=? c) && (c <=? 32)
   || (c =? 133) || (c =? 160) || (c =? 5760)
   || (8192 <=? c) && (c <=? 8202)
   || (c =? 8232) || (c =? 8233) || (c =? 8239) || (c =? 8287)
   || (c =? 12288))%N.

(** A string backwards, in linear time. *)
Definition reversed (s : str) : str := rev_append s [].

(** Strip leading characters satisfying [p]. *)
Fixpoint lstrip_by (p : char -> bool) (s : str) : str :=
  match s with
  | c :: s' => if p c then lstrip_by p s' else s
  | [] => []
  end.

Definition rstrip_by (p : char -> bool) (s : str) : str :=
  reversed (lstrip_by p (reversed s)).

Definition strip_by (p : char -> bool) (s : str) : str :=
  rstrip_by p (lstrip_by p s).

(** [s.strip()] *)
Definition strip (s : str) : str := strip_by isspace s.

(** [s.strip(chars)] *)
Definition strip_chars (chars : str) (s : str) : str :=
  strip_by (fun c => existsb (N.eqb c) chars) s.

(** [s.rstrip(chars)] *)
Definition rstrip_chars (chars : str) (s : str) : str :=
  rstrip_by (fun c => existsb (N.eqb c) chars) s.

(** [s.endswith(p)] *)
Definition endswith (p s : str) : bool := startswith (rev p) (rev s).

(** [sep.join(xs)] *)
Fixpoint join (sep : str) (xs : list str) : str :=
  match xs with
  | [] => []
  | [x] => x
  | x :: xs' => x ++ sep ++ join sep xs'
  end.

(** Line boundaries of [str.splitlines]. *)
Definition is_linebreak (c : char) : bool :=
  ((10 <=? c) && (c <=? 13) || (28 <=? c) && (c <=? 30)
   || (c =? 133) || (c =? 8232) || (c =? 8233))%N.

(** [s.splitlines()]: [cur] is the line being read, backwards; a carriage
    return followed by a line feed is one boundary; there is no final empty
    line. *)
Fixpoint splitlines_aux (cur : str) (s : str) : list str :=
  match s with
  | [] => match cur with [] => [] | _ => [reversed cur] end
  | c :: s' =>
      if is_linebreak c then
        match s' with
        | c' :: s'' =>
            if ((c =? 13) && (c' =? 10))%N
            then reversed cur :: splitlines_aux [] s''
            else reversed cur :: splitlines_aux [] s'
        | [] => [reversed cur]
        end
      else splitlines_aux (c :: cur) s'
  end.

Definition splitlines (s : str) : list str := splitlines_aux [] s.

(** [str(n)] for a natural number. *)
Fixpoint digits_fuel (fuel : nat) (n : N) (acc : str) : str :=
  match fuel with
  | O => acc
  | S f =>
      let acc' := (48 + n mod 10)%N :: acc in
      if (n <? 10)%N then acc' else digits_fuel f (n / 10)%N acc'
  end.

Definition str_of_N (n : N) : str := digits_fuel (S (N.to_nat (N.log2 n))) n [].

Definition str_of_Z (z : Z) : str :=
  match z with
  | Zneg p => 45%N :: str_of_N (Npos p)
  | _ => str_of_N (Z.to_N z)
  end.

End PyStr.
Import PyStr.

(** ** The regular expressions of the [re] module that the program uses

    A backtracking matcher in continuation-passing style, with Python's
    priorities: alternatives left to right, repetitions greedy.  Every
    repetition in the program's patterns is over a single-character atom
    (a class, [.], [\s] or [\d]), which is what [Rep] provides. *)

Module Re.

Inductive re : Type :=
| Eps
| Chr (p : char -> bool)
| Seq (a b : re)
| Alt (a b : re)
| Rep (p : char -> bool) (lo : nat) (hi : option nat)
| Grp (g : nat) (a : re)
| Bol
| Eol
| Behind (p : char -> bool).

(** Spans of the capturing groups, most recent first. *)
Definition caps := list (nat * (nat * nat)).

Section Matcher.
Variable R : Type.

(** Greedy repetition of a one-character atom: take as many as allowed,
    then give back one at a time. *)
Fixpoint rep (p : char -> bool) (lo : nat) (hi : option nat)
    (prev : option char) (s : str) (i : nat)
    (k : option char -> str -> nat -> option R) {struct s} : option R :=
  let stop := if lo =? 0 then k prev s i else None in
  match hi, s with
  | Some O, _ => stop
  | _, x :: s' =>
      if p x then
        match rep p (pred lo) (option_map pred hi) (Some x) s' (S i) k with
        | Some r => Some r
        | None => stop
        end
      else stop
  | _, [] => stop
  end.

(** [mt r prev s i c k]: match [r] at offset [i], where [s] is the rest of
    the subject and [prev] the character before it. *)
Fixpoint mt (r : re) (prev : option char) (s : str) (i : nat) (c : caps)
    (k : option char -> str -> nat -> caps -> option R) : option R :=
  match r with
  | Eps => k prev s i c
  | Chr p =>
      match s with
      | x :: s' => if p x then k (Some x) s' (S i) c else None
      | [] => None
      end
  | Seq a b => mt a prev s i c (fun p' s' i' c' => mt b p' s' i' c' k)
  | Alt a b =>
      match mt a prev s i c k with
      | Some r => Some r
      | None => mt b prev s i c k
      end
  | Rep p lo hi => rep p lo hi prev s i (fun p' s' i' => k p' s' i' c)
  | Grp g a => mt a prev s i c (fun p' s' i' c' => k p' s' i' ((g, (i, i')) :: c'))
  | Bol => match prev with None => k prev s i c | Some _ => None end
  | Eol =>
      match s with
      | [] => k prev s i c
      | [x] => if (x =? 10)%N then k prev s i c else None
      | _ => None
      end
  | Behind p =>
      match prev with
      | Some x => if p x then k prev s i c else None
      | None => None
      end
  end.
End Matcher.

(** A match object: the span of the whole match and of the groups. *)
Record match_obj : Type := MkMatch { m_start : nat; m_end : nat; m_caps : caps }.

Definition accept : option char -> str -> nat -> caps -> option (nat * caps) :=
  fun _ _ i c => Some (i, c).

(** [re.match(r, s)] *)
Definition re_match (r : re) (s : str) : option match_obj :=
  match mt r None s 0 [] accept with
  | Some (j, c) => Some (MkMatch 0 j c)
  | None => None
  end.

(** [re.search(r, s)]: the leftmost position where [r] matches. *)
Fixpoint search_from (r : re) (prev : option char) (s : str) (i : nat) : option match_obj :=
  match mt r prev s i [] accept with
  | Some (j, c) => Some (MkMatch i j c)
  | None =>
      match s with
      | x :: s' => search_from r (Some x) s' (S i)
      | [] => None
      end
  end.

Definition re_search (r : re) (s : str) : option match_obj := search_from r None s 0.

Definition slice (s : str) (a b : nat) : str := firstn (b - a) (skipn a s).

(** [m.group(0)] *)
Definition group0 (m : match_obj) (s : str) : str := slice s (m_start m) (m_end m).

Fixpoint lookup_cap (g : nat) (c : caps) : option (nat * nat) :=
  match c with
  | [] => None
  | (g', sp) :: c' => if g =? g' then Some sp else lookup_cap g c'
  end.

(** [m.group(g)]; [None] when the group did not take part in the match. *)
Definition group (m : match_obj) (s : str) (g : nat) : option str :=
  match lookup_cap g (m_caps m) with
  | Some (a, b) => Some (slice s a b)
  | None => None
  end.

(** Length of the match of [r] that starts here, if any. *)
Definition match_len (r : re) (prev : option char) (s : str) : option nat :=
  match mt r prev s 0 [] accept with
  | Some (j, _) => Some j
  | None => None
  end.

(** One pass over the subject, as [re.split], [re.sub] and [re.findall] make
    it: the successive non-overlapping matches, each with the text between
    it and the match before, and the text after the last match.  [skip]
    counts the characters of the current match still to pass, [gap] is the
    text since the last match, backwards.  Every pattern the program scans
    with matches at least one character, so an empty match is not a
    match here. *)
Fixpoint scan (r : re) (prev : option char) (s : str) (skip : nat) (gap : str)
    : list (str * str) * str :=
  match s with
  | [] => ([], reversed gap)
  | x :: s' =>
      match skip with
      | S n => scan r (Some x) s' n gap
      | O =>
          match match_len r prev s with
          | Some (S n) =>
              let '(hits, last) := scan r (Some x) s' n [] in
              ((reversed gap, firstn (S n) s) :: hits, last)
          | _ => scan r (Some x) s' 0 (x :: gap)
          end
      end
  end.

(** [re.split(r, s)] for a pattern without capturing groups. *)
Definition re_split (r : re) (s : str) : list str :=
  let '(hits, last) := scan r None s 0 [] in map fst hits ++ [last].

(** [re.split(r, s)] for a pattern that is one capturing group: the
    separators are part of the result. *)
Definition re_split_keep (r : re) (s : str) : list str :=
  let '(hits, last) := scan r None s 0 [] in
  flat_map (fun gh => [fst gh; snd gh]) hits ++ [last].

(** [re.sub(r, repl, s)] for a literal replacement. *)
Definition re_sub (r : re) (repl : str) (s : str) : str :=
  let '(hits, last) := scan r None s 0 [] in
  concat (map (fun gh => fst gh ++ repl) hits) ++ last.

(** [re.findall(r, s)] for a pattern without capturing groups. *)
Definition re_findall (r : re) (s : str) : list str :=
  let '(hits, _) := scan r None s 0 [] in map snd hits.

(** *** Atoms *)

Definition seq (rs : list re) : re := fold_right Seq Eps rs.

Definition lit (c : char) : char -> bool := fun x => (x =? c)%N.
Definition range (a b : char) : char -> bool := fun x => ((a <=? x) && (x <=? b))%N.
Definition cls (ps : list (char -> bool)) : char -> bool := fun x => existsb (fun p => p x) ps.
Definition one_of (cs : str) : char -> bool := fun x => existsb (N.eqb x) cs.

(** [.] without and with [re.DOTALL]. *)
Definition dot : char -> bool := fun x => negb (x =? 10)%N.
Definition dot_all : char -> bool := fun _ => true.

(** [\s] *)
Definition ws : char -> bool := isspace.

(** [\d] for [str] patterns: the decimal digits of Unicode 15 (category
    Nd), ten from each of these zeros, and the fifty mathematical digits. *)
Definition decimal_zeros : list N :=
  [48; 1632; 1776; 1984; 2406; 2534; 2662; 2790; 2918; 3046; 3174; 3302;
   3430; 3558; 3664; 3792; 3872; 4160; 4240; 6112; 6160; 6470; 6608; 6784;
   6800; 6992; 7088; 7232; 7248; 42528; 43216; 43264; 43472; 43504; 43600;
   44016; 65296; 66720; 68912; 69734; 69872; 69942; 70096; 70384; 70736;
   70864; 71248; 71360; 71472; 71904; 72016; 72784; 73040; 73120; 73552;
   92768; 92864; 93008; 123200; 123632; 124144; 125264; 130032]%N.

Definition digit : char -> bool := fun x =>
  (existsb (fun z => (z <=? x) && (x <? z + 10)) decimal_zeros
   || (120782 <=? x) && (x <=? 120831))%N.

(** Under [re.IGNORECASE] an ASCII letter of the pattern matches both its
    cases and, besides, U+0130 and U+0131 for i, U+212A for k and U+017F
    for s; a caseless character matches itself. *)
Definition lit_i (c : char) : char -> bool := fun x =>
  let lo := if ((65 <=? c) && (c <=? 90))%N then (c + 32)%N else c in
  if ((97 <=? lo) && (lo <=? 122))%N then
    ((x =? lo) || (x =? lo - 32)
     || (lo =? 105) && ((x =? 304) || (x =? 305))
     || (lo =? 107) && (x =? 8490)
     || (lo =? 115) && (x =? 383))%N
  else (x =? c)%N.

(** [[A-Za-z]] under [re.IGNORECASE]: the 52 ASCII letters and the four
    letters above. *)
Definition alpha_i : char -> bool := fun x =>
  ((65 <=? x) && (x <=? 90) || (97 <=? x) && (x <=? 122)
   || (x =? 304) || (x =? 305) || (x =? 383) || (x =? 8490))%N.

(** A literal word, case-insensitively. *)
Definition word_i (w : str) : re := seq (map (fun c => Chr (lit_i c)) w).

Definition star (p : char -> bool) : re := Rep p 0 None.
Definition plus (p : char -> bool) : re := Rep p 1 None.
Definition opt (r : re) : re := Alt r Eps.

End Re.
Import Re.

(** ** Python dictionaries

    A [dict] keeps its keys in insertion order; assigning to a key that is
    present replaces the value in place. *)

Module Dict.

Section Dict.
Variable V : Type.

Definition dict := list (str * V).

(** [d.get(k)] *)
Fixpoint get (d : dict) (k : str) : option V :=
  match d with
  | [] => None
  | (k', v) :: d' => if str_eqb k k' then Some v else get d' k
  end.

(** [d[k] = v] *)
Fixpoint set (d : dict) (k : str) (v : V) : dict :=
  match d with
  | [] => [(k, v)]
  | (k', v') :: d' => if str_eqb k k' then (k', v) :: d' else (k', v') :: set d' k v
  end.

Definition keys (d : dict) : list str := map fst d.
Definition values (d : dict) : list V := map snd d.
End Dict.

(** [d[k].append(x)] on a [defaultdict(list)]. *)
Definition append_to (d : dict (list str)) (k : str) (x : str) : dict (list str) :=
  match get d k with
  | Some l => set d k (l ++ [x])
  | None => set d k [x]
  end.

End Dict.

(** ** JSON values and [json.loads] *)

Module Json.

(** A float is kept as the literal that was read: sign, decimal mantissa and
    decimal exponent. *)
Inductive pyfloat : Type :=
| FNan
| FInf (neg : bool)
| FDec (neg : bool) (m : N) (e : Z).

Inductive json : Type :=
| JNull
| JBool (b : bool)
| JInt (z : Z)
| JFloat (f : pyfloat)
| JStr (s : str)
| JArr (l : list json)
| JObj (d : list (str * json)).

(** A float literal that rounds to zero is false: a zero mantissa, or a
    magnitude of at most 2^-1075. *)
Definition float_nonzero (f : pyfloat) : bool :=
  match f with
  | FNan | FInf _ => true
  | FDec _ m e =>
      if (m =? 0)%N then false
      else if (0 <=? e)%Z then true
      else (10 ^ (Z.opp e) <? Z.of_N m * 2 ^ 1075)%Z
  end.

(** Truth value of a Python object. *)
Definition truthy (v : json) : bool :=
  match v with
  | JNull => false
  | JBool b => b
  | JInt z => negb (z =? 0)%Z
  | JFloat f => float_nonzero f
  | JStr s => match s with [] => false | _ => true end
  | JArr l => match l with [] => false | _ => true end
  | JObj d => match d with [] => false | _ => true end
  end.

Definition is_json_ws (c : char) : bool :=
  ((c =? 32) || (c =? 9) || (c =? 10) || (c =? 13))%N.

Definition skip_ws (s : str) : str := lstrip_by is_json_ws s.

Definition is_digit (c : char) : bool := ((48 <=? c) && (c <=? 57))%N.

Definition hex_val (c : char) : option N :=
  if ((48 <=? c) && (c <=? 57))%N then Some (c - 48)%N
  else if ((97 <=? c) && (c <=? 102))%N then Some (c - 87)%N
  else if ((65 <=? c) && (c <=? 70))%N then Some (c - 55)%N
  else None.

(** Four hexadecimal digits. *)
Definition hex4 (s : str) : option (N * str) :=
  match s with
  | a :: b :: c :: d :: s' =>
      match hex_val a, hex_val b, hex_val c, hex_val d with
      | Some a, Some b, Some c, Some d => Some (((a * 16 + b) * 16 + c) * 16 + d, s')%N
      | _, _, _, _ => None
      end
  | _ => None
  end.

(** The low half of a surrogate pair, when the input continues with one. *)
Definition low_surrogate (s : str) : option (N * str) :=
  match s with
  | a :: b :: s' =>
      if ((a =? 92) && (b =? 117))%N then
        match hex4 s' with
        | Some (c2, s'') => if ((56320 <=? c2) && (c2 <=? 57343))%N then Some (c2, s'') else None
        | None => None
        end
      else None
  | _ => None
  end.

(** One escape of a string literal, after the backslash: the character it
    stands for and the input after it. *)
Definition scan_escape (s : str) : option (N * str) :=
  match s with
  | [] => None
  | e :: s' =>
      if (e =? 117)%N then
        match hex4 s' with
        | None => None
        | Some (c, s3) =>
            if ((55296 <=? c) && (c <=? 56319))%N then
              match low_surrogate s3 with
              | Some (c2, s4) => Some (65536 + (c - 55296) * 1024 + (c2 - 56320), s4)%N
              | None => Some (c, s3)
              end
            else Some (c, s3)
        end
      else if (e =? 34)%N then Some (34%N, s')
      else if (e =? 92)%N then Some (92%N, s')
      else if (e =? 47)%N then Some (47%N, s')
      else if (e =? 98)%N then Some (8%N, s')
      else if (e =? 102)%N then Some (12%N, s')
      else if (e =? 110)%N then Some (10%N, s')
      else if (e =? 114)%N then Some (13%N, s')
      else if (e =? 116)%N then Some (9%N, s')
      else None
  end.

(** The body of a string literal after the opening quote, in strict mode:
    the characters up to the closing quote, and the input after it. *)
Fixpoint scanstring (fuel : nat) (s : str) (acc : str) : option (str * str) :=
  match fuel with
  | O => None
  | S f =>
      match s with
      | [] => None
      | c :: s' =>
          if (c =? 34)%N then Some (reversed acc, s')
          else if (c =? 92)%N then
            match scan_escape s' with
            | Some (x, r) => scanstring f r (x :: acc)
            | None => None
            end
          else if (c <? 32)%N then None
          else scanstring f s' (c :: acc)
      end
  end.

(** Leading characters that satisfy [p], and the rest. *)
Fixpoint span (p : char -> bool) (s : str) : str * str :=
  match s with
  | c :: s' => if p c then let '(a, b) := span p s' in (c :: a, b) else ([], s)
  | [] => ([], [])
  end.

Definition N_of_digits (ds : str) : N := fold_left (fun a d => (a * 10 + (d - 48))%N) ds 0%N.

(** The integer part of a number: a zero, or a digit from 1 to 9 and the
    digits after it. *)
Definition scan_int (s : str) : option (str * str) :=
  match s with
  | c :: s' =>
      if (c =? 48)%N then Some ([c], s')
      else if ((49 <=? c) && (c <=? 57))%N then let '(ds, r) := span is_digit s' in Some (c :: ds, r)
      else None
  | [] => None
  end.

(** The fraction: a point and at least one digit, or nothing. *)
Definition scan_frac (r : str) : option str * str :=
  match r with
  | c :: r' =>
      if (c =? 46)%N then
        match span is_digit r' with
        | ([], _) => (None, r)
        | (fs, r'') => (Some fs, r'')
        end
      else (None, r)
  | [] => (None, r)
  end.

(** The sign of an exponent, if there is one; [true] for a minus. *)
Definition scan_sign (r : str) : bool * str :=
  match r with
  | c :: t => if (c =? 45)%N then (true, t) else if (c =? 43)%N then (false, t) else (false, r)
  | [] => (false, r)
  end.

(** The exponent: [e] or [E], a sign or none, and at least one digit; or
    nothing. *)
Definition scan_exp (r : str) : option Z * str :=
  match r with
  | e :: r' =>
      if ((e =? 101) || (e =? 69))%N then
        let '(sgn, r'') := scan_sign r' in
        match span is_digit r'' with
        | ([], _) => (None, r)
        | (es, r3) =>
            (Some (if sgn then Z.opp (Z.of_N (N_of_digits es)) else Z.of_N (N_of_digits es)), r3)
        end
      else (None, r)
  | [] => (None, r)
  end.

(** A number: an integer part, then a fraction and an exponent, each taken
    only when complete.  [neg] says a minus sign was read.  Without
    fraction and exponent it is an [int], else a [float]. *)
Definition scan_number (neg : bool) (s : str) : option (json * str) :=
  match scan_int s with
  | None => None
  | Some (ip, r) =>
      let '(frac, r1) := scan_frac r in
      let '(ex, r2) := scan_exp r1 in
      match frac, ex with
      | None, None =>
          let n := Z.of_N (N_of_digits ip) in
          Some (JInt (if neg then Z.opp n else n), r2)
      | _, _ =>
          let fs := match frac with Some fs => fs | None => [] end in
          let e := match ex with Some e => e | None => 0%Z end in
          Some (JFloat (FDec neg (N_of_digits (ip ++ fs)) (e - Z.of_nat (length fs))), r2)
      end
  end.

(** [d[k] = v] while an object is read: a repeated key keeps its place and
    takes the last value. *)
Definition obj_set (d : list (str * json)) (k : str) (v : json) : list (str * json) :=
  Dict.set d k v.

(** What follows a value in an array or an object. *)
Inductive after_value : Type :=
| Comma (rest : str)
| Close (rest : str)
| Neither.

Definition scan_after (close : N) (s : str) : after_value :=
  match skip_ws s with
  | c :: r => if (c =? 44)%N then Comma (skip_ws r) else if (c =? close)%N then Close r else Neither
  | [] => Neither
  end.

(** The scanner.  [scan_once] reads a value, [scan_elems] the elements of
    an array after its bracket, [scan_members] the members of an object
    after its brace. *)
Fixpoint scan_once (fuel : nat) (s : str) : option (json * str) :=
  match fuel with
  | O => None
  | S f =>
      match s with
      | [] => None
      | c :: s' =>
          if (c =? 34)%N then
            match scanstring (S (length s')) s' [] with
            | Some (x, r) => Some (JStr x, r)
            | None => None
            end
          else if (c =? 123)%N then
            match skip_ws s' with
            | [] => None
            | c' :: r => if (c' =? 125)%N then Some (JObj [], r) else scan_members f (c' :: r) []
            end
          else if (c =? 91)%N then
            match skip_ws s' with
            | [] => None
            | c' :: r => if (c' =? 93)%N then Some (JArr [], r) else scan_elems f (c' :: r) []
            end
          else if startswith (u "null") s then Some (JNull, skipn 4 s)
          else if startswith (u "true") s then Some (JBool true, skipn 4 s)
          else if startswith (u "false") s then Some (JBool false, skipn 5 s)
          else if startswith (u "NaN") s then Some (JFloat FNan, skipn 3 s)
          else if startswith (u "Infinity") s then Some (JFloat (FInf false), skipn 8 s)
          else if startswith (u "-Infinity") s then Some (JFloat (FInf true), skipn 9 s)
          else if (c =? 45)%N then scan_number true s'
          else scan_number false s
      end
  end
with scan_elems (fuel : nat) (s : str) (acc : list json) : option (json * str) :=
  match fuel with
  | O => None
  | S f =>
      match scan_once f s with
      | None => None
      | Some (v, r) =>
          match scan_after 93%N r with
          | Comma r' => scan_elems f r' (v :: acc)
          | Close r' => Some (JArr (rev (v :: acc)), r')
          | Neither => None
          end
      end
  end
with scan_members (fuel : nat) (s : str) (acc : list (str * json)) : option (json * str) :=
  match fuel with
  | O => None
  | S f =>
      match s with
      | [] => None
      | q :: s' =>
          if (q =? 34)%N then
            match scanstring (S (length s')) s' [] with
            | None => None
            | Some (key, r) =>
                match skip_ws r with
                | [] => None
                | c :: r1 =>
                    if (c =? 58)%N then
                      match scan_once f (skip_ws r1) with
                      | None => None
                      | Some (v, r2) =>
                          match scan_after 125%N r2 with
                          | Comma r3 => scan_members f r3 (obj_set acc key v)
                          | Close r3 => Some (JObj (obj_set acc key v), r3)
                          | Neither => None
                          end
                      end
                    else None
                end
            end
          else None
      end
  end.

(** [json.loads(s)]; [None] stands for the [JSONDecodeError] it raises.
    The fuel is more than the scanner uses ([loads_fuel] below).  The
    interpreter's own limits (recursion depth, the digit limit of [int])
    are not part of the model. *)
Definition loads (s : str) : option json :=
  match scan_once (2 * length s + 2) (skip_ws s) with
  | Some (v, r) => match skip_ws r with [] => Some v | _ => None end
  | None => None
  end.

End Json.
Import Json.

(** ** The HTTP session: requests, responses and exceptions

    [Session.post] is the only effect of the program.  A computation reads
    the network, which answers a request given the requests made before it,
    and carries the log of the requests it has made; it returns a value or
    raises. *)

Module Net.

(** The exceptions: one raised by the transport, with its cause; the
    [HTTPError] of a response with an error status; a body that is not
    JSON; a method that the object does not have. *)
Inductive exn : Type :=
| RequestException (cause : str)
| HTTPError (status : N)
| JSONDecodeError
| AttributeError.

Record request : Type := MkRequest { rq_url : str; rq_json : json; rq_timeout : Z }.

Record response : Type := MkResponse { status_code : N; body : str }.

(** What a POST comes to: a response, or an exception of the transport
    (connection refused, timeout, ...). *)
Inductive outcome : Type :=
| Responds (r : response)
| Fails (e : exn).

Definition network := list request -> request -> outcome.

Inductive result (A : Type) : Type :=
| Ok (a : A)
| Raise (e : exn).
Arguments Ok {A} a.
Arguments Raise {A} e.

Definition M (A : Type) : Type := network -> list request -> result A * list request.

Definition ret {A} (a : A) : M A := fun _ log => (Ok a, log).

Definition raise {A} (e : exn) : M A := fun _ log => (Raise e, log).

Definition bind {A B} (m : M A) (f : A -> M B) : M B :=
  fun net log =>
    match m net log with
    | (Ok a, log') => f a net log'
    | (Raise e, log') => (Raise e, log')
    end.

(** [try: m except Exception: h] *)
Definition try_except {A} (m : M A) (h : exn -> M A) : M A :=
  fun net log =>
    match m net log with
    | (Ok a, log') => (Ok a, log')
    | (Raise e, log') => h e net log'
    end.

(** [session.post(url, json=payload, timeout=t)] *)
Definition post (url : str) (payload : json) (timeout : Z) : M response :=
  fun net log =>
    let rq := MkRequest url payload timeout in
    (match net log rq with Responds r => Ok r | Fails e => Raise e end, log ++ [rq]).

(** [r.raise_for_status()]: an error for the statuses 400 to 599. *)
Definition raise_for_status (r : response) : M unit :=
  if ((400 <=? status_code r) && (status_code r <? 600))%N
  then raise (HTTPError (status_code r))
  else ret tt.

(** [r.json()] *)
Definition r_json (r : response) : M json :=
  match loads (body r) with
  | Some v => ret v
  | None => raise JSONDecodeError
  end.

End Net.
Import Net.

Declare Scope net_scope.
Delimit Scope net_scope with net.
Notation "x <- m ;; k" := (bind m (fun x => k))
  (at level 61, m at next level, right associativity) : net_scope.
Notation "m ;;; k" := (bind m (fun _ => k))
  (at level 61, right associativity) : net_scope.

(** ** summarization_service.py *)

Module Service.

Local Open Scope net_scope.
Local Open Scope string_scope.
Local Open Scope list_scope.

(** The three fields of [OllamaConfig], which are also what the summarizer
    keeps of it in [self]. *)
Record OllamaConfig : Type := MkConfig { base_url : str; model : str; timeout_sec : Z }.

Record SummaryResult : Type := MkSummaryResult {
  summary : str;
  topics : list str;
  decisions : list str;
  tasks : list str;
  speakers : list str
}.

(** What [__init__] does to the base URL: [strip], [rstrip("/")], and a
    final [/api] cut off. *)
Definition normalize_base_url (base_url : str) : str :=
  let base_url := rstrip_chars (u "/") (strip base_url) in
  if endswith (u "/api") base_url then firstn (length base_url - 4) base_url
  else base_url.

(** [OllamaSummarizer(config)]: the fields that [__init__] sets when it is
    given an [OllamaConfig], which is how the window creates the
    summarizer. *)
Definition init_from_config (config : OllamaConfig) : OllamaConfig :=
  MkConfig (normalize_base_url (base_url config)) (model config) (timeout_sec config).

(** The two local functions of [format_summary]: a section of the Arabic
    and of the English report. *)
Definition sec (name : str) (items : list str) : str :=
  match items with
  | [] => name ++ u ":" ++ [10%N] ++ u "- لا يوجد" ++ [10%N]
  | _ => name ++ u ":" ++ [10%N] ++ join [10%N] (map (fun x => u "- " ++ x) items) ++ [10%N]
  end.

Definition sec_en (name : str) (items : list str) : str :=
  match items with
  | [] => name ++ u ":" ++ [10%N] ++ u "- None" ++ [10%N]
  | _ => name ++ u ":" ++ [10%N] ++ join [10%N] (map (fun x => u "- " ++ x) items) ++ [10%N]
  end.

(** [x or y] for two strings. *)
Definition or_str (x y : str) : str := if nonempty x then x else y.

(** [x or y] *)
Definition or_ (x y : json) : json := if truthy x then x else y.

(** [v.get(k)]: only a [dict] has the method; a missing key gives [None]. *)
Definition py_get (v : json) (k : str) : M json :=
  match v with
  | JObj d => ret (match Dict.get d k with Some x => x | None => JNull end)
  | _ => raise AttributeError
  end.

(** [v.strip()]: only a [str] has the method. *)
Definition py_strip (v : json) : M str :=
  match v with
  | JStr s => ret (strip s)
  | _ => raise AttributeError
  end.

(** The structured-summary responses are searched with [\{.*\}] under
    [re.DOTALL]. *)
Definition brace_re : re := seq [Chr (lit 123%N); star dot_all; Chr (lit 125%N)].

(** The separators of [_chunk_text]: [(\n+|[.!؟\?])]. *)
Definition chunk_sep_re : re := Grp 1 (Alt (plus (lit 10%N)) (Chr (one_of (u ".!؟?")))).

(** [(?<=[.!؟\?])\s+] *)
Definition sentence_gap_re : re := Seq (Behind (one_of (u ".!؟?"))) (plus ws).

(** [_parse_json]; [None] is the [return None] of the source, and a
    response that is the JSON [null] comes out as [Some JNull], which
    Python does not tell apart from it. *)
Definition _parse_json (s : str) : option json :=
  match s with
  | [] => None
  | _ =>
      let s := strip s in
      match loads s with
      | Some v => Some v
      | None =>
          match re_search brace_re s with
          | Some m =>
              let blob := strip (group0 m s) in
              match loads blob with
              | Some v => Some v
              | None => None
              end
          | None => None
          end
      end
  end.

(** [not parsed] *)
Definition not_ (parsed : option json) : bool :=
  match parsed with
  | None => true
  | Some v => negb (truthy v)
  end.

(** [_fallback_summary] *)
Definition _fallback_summary (text : str) : str :=
  let sents := re_split sentence_gap_re (strip text) in
  let sents := map strip (filter (fun s => nonempty (strip s)) sents) in
  firstn 1200 (join (u " ") (firstn 5 sents)).

(** [_chunk_text]: the state of the loop is [parts], [buf] and [size]. *)
Definition flush (st : list str * list str * N) : list str * list str * N :=
  let '(parts, buf, size) := st in
  match buf with
  | [] => st
  | _ => (parts ++ [strip (join (u " ") buf)], [], 0%N)
  end.

Fixpoint chunk_loop (chunk_size max_chunks : N) (tokens : list str)
    (st : list str * list str * N) : list str * list str * N :=
  match tokens with
  | [] => st
  | token :: rest =>
      if negb (nonempty token) then chunk_loop chunk_size max_chunks rest st
      else
        let t := strip token in
        if negb (nonempty t) then chunk_loop chunk_size max_chunks rest st
        else
          let '(_, _, size) := st in
          if (chunk_size <? size + len t + 1)%N then
            let '(parts, buf, size) := flush st in
            if (max_chunks <=? len parts)%N then (parts, buf, size)
            else chunk_loop chunk_size max_chunks rest (parts, buf ++ [t], (size + len t + 1)%N)
          else
            let '(parts, buf, size) := st in
            chunk_loop chunk_size max_chunks rest (parts, buf ++ [t], (size + len t + 1)%N)
  end.

Definition _chunk_text (text : str) (chunk_size max_chunks : N) : list str :=
  let '(parts, buf, size) :=
    chunk_loop chunk_size max_chunks (re_split_keep chunk_sep_re text) ([], [], 0%N) in
  let '(parts, _, _) :=
    if (len parts <? max_chunks)%N then flush (parts, buf, size) else (parts, buf, size) in
  filter nonempty parts.

Section WithRuntime.

(** [str.lower], and the [repr] that [str] gives for a float, a list or a
    dict: both belong to the Python runtime. *)
Variable str_lower : str -> str.
Variable py_repr : json -> str.

(** [str(v)] *)
Definition py_str (v : json) : str :=
  match v with
  | JStr s => s
  | JNull => u "None"
  | JBool true => u "True"
  | JBool false => u "False"
  | JInt z => str_of_Z z
  | _ => py_repr v
  end.

(** [_as_list] *)
Definition _as_list (v : json) : list str :=
  match v with
  | JNull => []
  | JArr l => map (fun x => strip (py_str x)) (filter (fun x => nonempty (strip (py_str x))) l)
  | JStr s =>
      let lines := map (strip_chars (u " -•" ++ [9%N])) (splitlines s) in
      filter nonempty lines
  | _ => if nonempty (strip (py_str v)) then [strip (py_str v)] else []
  end.

(** [_prompt_structured] *)
Definition _prompt_structured (text language title : str) (compact : bool) : str :=
  let '(style, extra) :=
    if startswith (u "ar") (str_lower language) then
      (u "اكتب بالعربية الفصحى وبشكل رسمي.",
       if compact then u "اجعل الملخص قصيراً." else u "اجعل الملخص واضحاً ومفصلاً.")
    else
      (u "Write in English, formal and clear.",
       if compact then u "Keep it short." else u "Make it clear and detailed.") in
  let nl := [10%N] in
  strip (nl ++ style ++ nl ++ extra ++ nl ++ nl
    ++ u "Return ONLY valid JSON (no markdown)." ++ nl
    ++ u "Keys:" ++ nl
    ++ u "- summary: string" ++ nl
    ++ u "- topics: array of strings" ++ nl
    ++ u "- decisions: array of strings" ++ nl
    ++ u "- tasks: array of strings (include assignee if known)" ++ nl
    ++ u "- speakers: array of strings (if detectable, else empty)" ++ nl ++ nl
    ++ u "Title: " ++ title ++ nl ++ nl
    ++ u "Transcript:" ++ nl
    ++ text ++ nl).

Variable self : OllamaConfig.

Definition payload_generate (prompt : str) : json :=
  JObj [(u "model", JStr (model self)); (u "prompt", JStr prompt); (u "stream", JBool false)].

Definition payload_chat (prompt : str) : json :=
  JObj [(u "model", JStr (model self)); (u "stream", JBool false);
        (u "messages", JArr [
           JObj [(u "role", JStr (u "system"));
                 (u "content", JStr (u "You are an expert meeting summarizer. Return only JSON."))];
           JObj [(u "role", JStr (u "user")); (u "content", JStr prompt)]])].

(** The body of the [try] of [_ollama_call]: the call to [/api/chat]. *)
Definition chat_attempt (prompt : str) : M str :=
  r <- post (base_url self ++ u "/api/chat") (payload_chat prompt) (timeout_sec self) ;;
  (if (status_code r =? 404)%N then raise (HTTPError 404) else ret tt) ;;;
  raise_for_status r ;;;
  data <- r_json r ;;
  m <- py_get data (u "message") ;;
  let msg := or_ m (JObj []) in
  c <- py_get msg (u "content") ;;
  ret (py_str (or_ c (JStr []))).

(** The body of its [except Exception]: the call to [/api/generate]. *)
Definition generate_attempt (prompt : str) : M str :=
  r2 <- post (base_url self ++ u "/api/generate") (payload_generate prompt) (timeout_sec self) ;;
  raise_for_status r2 ;;;
  data2 <- r_json r2 ;;
  resp <- py_get data2 (u "response") ;;
  ret (py_str (or_ resp (JStr []))).

(** [_ollama_call] *)
Definition _ollama_call (prompt : str) : M str :=
  try_except (chat_attempt prompt) (fun _ => generate_attempt prompt).

Definition empty_result (s : str) : SummaryResult := MkSummaryResult s [] [] [] [].

(** [_summarize_chunk] *)
Definition _summarize_chunk (text language title : str) : M str :=
  let prompt := _prompt_structured text language title true in
  out <- _ollama_call prompt ;;
  match _parse_json out with
  | Some parsed =>
      if truthy parsed then
        s <- py_get parsed (u "summary") ;;
        t <- py_strip (or_ s (JStr [])) ;;
        if nonempty t then
          s' <- py_get parsed (u "summary") ;;
          ret (strip (py_str s'))
        else ret (_fallback_summary text)
      else ret (_fallback_summary text)
  | None => ret (_fallback_summary text)
  end.

(** [_summarize_structured_once] *)
Definition _summarize_structured_once (text language title : str) : M SummaryResult :=
  let prompt := _prompt_structured text language title false in
  out <- _ollama_call prompt ;;
  let parsed := _parse_json out in
  if not_ parsed then ret (empty_result (_fallback_summary text))
  else
    let parsed := match parsed with Some v => v | None => JNull end in
    s <- py_get parsed (u "summary") ;;
    t <- py_get parsed (u "topics") ;;
    d <- py_get parsed (u "decisions") ;;
    k <- py_get parsed (u "tasks") ;;
    p <- py_get parsed (u "speakers") ;;
    ret (MkSummaryResult (strip (py_str (or_ s (JStr [])))) (_as_list t) (_as_list d)
           (_as_list k) (_as_list p)).

(** The loop over [enumerate(chunks, start=idx)]. *)
Fixpoint summarize_chunks (chunks : list str) (idx : N) (language title : str) : M (list str) :=
  match chunks with
  | [] => ret []
  | ch :: rest =>
      s <- _summarize_chunk ch language (title ++ u " (جزء " ++ str_of_N idx ++ u ")") ;;
      ss <- summarize_chunks rest (idx + 1)%N language title ;;
      ret (s :: ss)
  end.

(** [summarize_structured] *)
Definition summarize_structured (transcript_text title language : str) : M SummaryResult :=
  let text := strip transcript_text in
  if negb (nonempty text) then ret (empty_result [])
  else
    let max_chars := 12000%N in
    if (max_chars <? len text)%N then
      let chunks := _chunk_text text 6000 6 in
      chunk_summaries <- summarize_chunks chunks 1%N language title ;;
      let merged := join [10%N; 10%N] chunk_summaries in
      _summarize_structured_once merged language title
    else _summarize_structured_once text language title.

(** [format_summary] *)
Definition format_summary (res : SummaryResult) (language : str) : str :=
  if startswith (u "ar") (str_lower language) then
    let out :=
      [u "ملخص تنفيذي:" ++ [10%N] ++ or_str (strip (summary res)) (u "لا يوجد") ++ [10%N];
       sec (u "محاور الاجتماع") (topics res);
       sec (u "القرارات") (decisions res);
       sec (u "المهام") (tasks res);
       sec (u "المتحدثون") (speakers res)] in
    strip (join [10%N] out)
  else
    let out :=
      [u "Executive Summary:" ++ [10%N] ++ or_str (strip (summary res)) (u "None") ++ [10%N];
       sec_en (u "Topics") (topics res);
       sec_en (u "Decisions") (decisions res);
       sec_en (u "Action Items") (tasks res);
       sec_en (u "Speakers") (speakers res)] in
    strip (join [10%N] out).

(** [summarize_meeting] *)
Definition summarize_meeting (transcript_text title language : str) : M str :=
  res <- summarize_structured transcript_text title language ;;
  ret (format_summary res language).

End WithRuntime.

End Service.

(** ** summarizer.py *)

Module Summarizer.

Local Open Scope string_scope.
Local Open Scope list_scope.

(** A Python [set] of strings, as the order in which its hash table holds
    the elements; that order changes with the hash seed of the process. *)
Definition pyset := list str.

(** [layout_of words s]: [s] is a layout of the set written [{words}]. *)
Definition layout_of (words : list str) (s : pyset) : Prop :=
  forall w, In w s <-> In w words.

Definition AR_STOP : list str := map u [
    "من"; "إلى"; "على"; "عن"; "في"; "مع"; "هذا"; "هذه"; "ذلك"; "تلك"; "هناك"; "هنا";
    "هو"; "هي"; "هم"; "هن"; "أنا"; "نحن"; "انت"; "أنت"; "أنتِ"; "أنتم"; "أنتن";
    "كان"; "كانت"; "يكون"; "تكون"; "تم"; "قد"; "ثم"; "لكن"; "لأن"; "إذا"; "إن";
    "و"; "أو"; "كما"; "أي"; "أيضاً"; "ايضا"; "حتى"; "كل"; "بعض"; "غير"; "بدون";
    "بعد"; "قبل"; "بين"; "ضمن"; "حول"; "عند"; "مثل"; "مثلاً"; "مثلا"
  ].

Definition EN_STOP : list str := map u [
    "the"; "a"; "an"; "to"; "of"; "in"; "on"; "at"; "for"; "with"; "and"; "or"; "is"; "are";
    "was"; "were"; "be"; "been"; "it"; "this"; "that"; "these"; "those"; "as"; "by"; "from"
  ].

Definition DECISION_KWS : list str := map u [
    "تم الاتفاق"; "اتفقنا"; "تم اعتماد"; "قررنا"; "تم القرار"; "قرار"; "اعتماد";
    "approve"; "approved"; "we decided"; "decision"; "agreed"
  ].

Definition TASK_KWS : list str := map u [
    "مطلوب"; "لازم"; "يرجى"; "يرجى من"; "تكليف"; "مسؤول"; "على"; "رح"; "سوف"; "سنقوم";
    "todo"; "to do"; "action"; "task"; "need to"; "please"
  ].

Definition TOPIC_HINTS : Dict.dict (list str) := [
    (u "المقدمة والسياق", map u ["افتتاح"; "مقدمة"; "سياق"; "هدف"; "الغرض"; "introduction"; "context"; "goal"; "purpose"]);
    (u "نقاط تقنية", map u ["نظام"; "خادم"; "سيرفر"; "قاعدة"; "بيانات"; "API"; "نموذج"; "model"; "pipeline"; "deployment"]);
    (u "العمل والخطة", map u ["خطة"; "جدول"; "deadline"; "موعد"; "مرحلة"; "تسليم"; "next"; "plan"; "timeline"]);
    (u "مشاكل ومخاطر", map u ["مشكلة"; "خطأ"; "فشل"; "خطر"; "risk"; "issue"; "error"; "blocked"]);
    (u "النتائج والتوصيات", map u ["نتيجة"; "استنتاج"; "توصية"; "recommendation"; "outcome"; "result"])
  ].

(** [[اأإآء-ي]] *)
Definition arabic_letter : char -> bool :=
  cls [one_of (u "اأإآ"); range 1569%N 1610%N].

(** [[A-Za-z]] *)
Definition latin_letter : char -> bool := cls [range 65%N 90%N; range 97%N 122%N].

(** The shape shared by the four speaker patterns:
    [^\s*(label)\s*[:\-]\s*(.+)$]. *)
Definition label_pattern (label : re) : re :=
  seq [Bol; star ws; Grp 1 label; star ws; Chr (one_of (u ":-")); star ws;
       Grp 2 (plus dot); Eol].

(** The patterns are matched under [re.IGNORECASE]. *)
Definition SPEAKER_PATTERNS : list re := [
    label_pattern (seq [word_i (u "Speaker"); star ws; plus digit]);
    label_pattern (seq [word_i (u "المتحدث"); star ws; plus digit]);
    label_pattern (seq [Chr alpha_i;
                        Rep (cls [alpha_i; range 48%N 57%N; one_of (u "_- ")]) 1 (Some 25)]);
    label_pattern (seq [Chr arabic_letter;
                        Rep (cls [arabic_letter; range 48%N 57%N; one_of (u "_- ")]) 1 (Some 25)])
  ].

(** [\s+] *)
Definition spaces_re : re := plus ws.

(** [[\.!\?؟\n]+] *)
Definition sentence_end_re : re := plus (one_of (u ".!?؟" ++ [10%N])).

(** [[A-Za-z]+|[اأإآء-ي]+] *)
Definition word_re : re := Alt (plus latin_letter) (plus arabic_letter).

(** A literal word. *)
Definition word (w : str) : re := seq (map (fun c => Chr (lit c)) w).

(** [(\d{1,4}[\/\-\.\:]\d{1,2}[\/\-\.\:]\d{1,4})|(\d{1,2}\s*(?:am|pm))|(\d+(?:\.\d+)?)] *)
Definition numbers_dates_re : re :=
  Alt (Grp 1 (seq [Rep digit 1 (Some 4); Chr (one_of (u "/-.:")); Rep digit 1 (Some 2);
                   Chr (one_of (u "/-.:")); Rep digit 1 (Some 4)]))
 (Alt (Grp 2 (seq [Rep digit 1 (Some 2); star ws; Alt (word (u "am")) (word (u "pm"))]))
      (Grp 3 (seq [plus digit; opt (seq [Chr (lit 46%N); plus digit])]))).

(** [_split_sentences] *)
Definition _split_sentences (text : str) : list str :=
  let text := re_sub spaces_re (u " ") (strip text) in
  if negb (nonempty text) then []
  else
    let parts := re_split sentence_end_re text in
    map strip (filter (fun p => nonempty (strip p)) parts).

(** [sorted(l, key=key, reverse=True)]: stable, so equal keys keep the order
    they had. *)
Fixpoint insert_desc {A} (key : A -> Z) (x : A) (l : list A) : list A :=
  match l with
  | [] => [x]
  | y :: l' => if (key x <? key y)%Z then y :: insert_desc key x l' else x :: l
  end.

Definition sorted_desc {A} (key : A -> Z) (l : list A) : list A :=
  fold_right (insert_desc key) [] l.

(** [any(k.lower() in s2 for k in kws)] *)
Definition any_in (lower : str -> str) (kws : list str) (s2 : str) : bool :=
  existsb (fun k => contains (lower k) s2) kws.

Record SmartSummary : Type := MkSmartSummary {
  bullets : list str;
  topics : Dict.dict (list str);
  speakers : Dict.dict (list str);
  decisions : list str;
  tasks : list str;
  numbers_dates : list str;
  keywords : list str
}.

Section WithRuntime.

(** [str.lower], which belongs to the Python runtime, and the layouts of
    the two stopword sets in the running process. *)
Variable str_lower : str -> str.
Variables ar_stop en_stop : pyset.

(** [_tokenize] *)
Definition _tokenize (text : str) : list str :=
  let text := str_lower text in
  let tokens := re_findall word_re text in
  filter (fun t => negb (len t <=? 2)%N && negb (mem t ar_stop || mem t en_stop)) tokens.

(** [Counter.update] with a list of words. *)
Definition counter_update (c : Dict.dict N) (ws : list str) : Dict.dict N :=
  fold_left (fun c w =>
    Dict.set c w (match Dict.get c w with Some n => n + 1 | None => 1 end)%N) ws c.

(** [Counter.most_common(k)] *)
Definition most_common (c : Dict.dict N) (k : nat) : list (str * N) :=
  firstn k (sorted_desc (fun wn => Z.of_N (snd wn)) c).

(** [_top_keywords] *)
Definition _top_keywords (sentences : list str) (k : nat) : list str :=
  let c := fold_left (fun c s => counter_update c (_tokenize s)) sentences [] in
  map fst (most_common c k).

(** [_detect_decisions] *)
Definition _detect_decisions (sentences : list str) : list str :=
  let out := map strip
    (filter (fun s => any_in str_lower DECISION_KWS (str_lower s)) sentences) in
  firstn 12 out.

(** [_detect_tasks] *)
Definition _detect_tasks (sentences : list str) : list str :=
  let out := map strip
    (filter (fun s => any_in str_lower TASK_KWS (str_lower s)) sentences) in
  firstn 15 out.

(** [_extract_numbers_dates] *)
Definition _extract_numbers_dates (sentences : list str) : list str :=
  let out := map strip
    (filter (fun s => match re_search numbers_dates_re s with Some _ => true | None => false end)
            sentences) in
  firstn 12 out.

(** The first loop of [_group_by_topics]: a sentence goes to the first
    topic one of whose hints it contains, or to [other]. *)
Definition classify (st : Dict.dict (list str) * list str) (s : str)
    : Dict.dict (list str) * list str :=
  let '(groups, other) := st in
  let s2 := str_lower s in
  match find (fun th => any_in str_lower (snd th) s2) TOPIC_HINTS with
  | Some (topic, _) => (Dict.append_to groups topic (strip s), other)
  | None => (groups, other ++ [strip s])
  end.

(** The loop over [other] that fills [dynamic]. *)
Definition by_keyword (kw : list str) (dynamic : Dict.dict (list str)) (s : str)
    : Dict.dict (list str) :=
  let s2 := str_lower s in
  match find (fun w => contains w s2) kw with
  | Some key =>
      if nonempty key then Dict.append_to dynamic (u "محور: " ++ key) (strip s)
      else Dict.append_to dynamic (u "محاور أخرى") (strip s)
  | None => Dict.append_to dynamic (u "محاور أخرى") (strip s)
  end.

(** [_group_by_topics] *)
Definition _group_by_topics (sentences : list str) : Dict.dict (list str) :=
  let groups : Dict.dict (list str) := map (fun k => (k, [])) (Dict.keys TOPIC_HINTS) in
  let '(groups, other) := fold_left classify sentences (groups, []) in
  let groups :=
    match other with
    | [] => groups
    | _ =>
        let kw := _top_keywords other 8 in
        match kw with
        | [] => groups
        | _ =>
            let dynamic := fold_left (by_keyword kw) other [] in
            let dyn_items := firstn 4 (sorted_desc (fun kl => Z.of_N (len (snd kl))) dynamic) in
            fold_left (fun g kl => Dict.set g (fst kl) (snd kl)) dyn_items groups
        end
    end in
  fold_left (fun cleaned kl =>
               match snd kl with
               | [] => cleaned
               | lst => Dict.set cleaned (fst kl) (firstn 6 lst)
               end) groups [].

(** The first pattern that matches the line, as [(label, remainder)]; both
    groups take part in every match of these patterns. *)
Fixpoint first_hit (ps : list re) (ln : str) : option (str * str) :=
  match ps with
  | [] => None
  | p :: ps' =>
      match re_match p ln with
      | Some m =>
          match group m ln 1, group m ln 2 with
          | Some g1, Some g2 => Some (strip g1, strip g2)
          | _, _ => None
          end
      | None => first_hit ps' ln
      end
  end.

(** One line of the loop of [_group_by_speakers]: the state is
    [cur_speaker] and [speaker_map]. *)
Definition speaker_step (st : option str * Dict.dict (list str)) (ln : str)
    : option str * Dict.dict (list str) :=
  let '(cur_speaker, speaker_map) := st in
  match first_hit SPEAKER_PATTERNS ln with
  | Some hit => (Some (fst hit), Dict.append_to speaker_map (fst hit) (snd hit))
  | None =>
      match cur_speaker with
      | Some sp => if nonempty sp then (cur_speaker, Dict.append_to speaker_map sp ln) else st
      | None => st
      end
  end.

(** [_group_by_speakers] *)
Definition _group_by_speakers (raw_text : str) : Dict.dict (list str) :=
  let lines := map strip (filter (fun ln => nonempty (strip ln)) (splitlines raw_text)) in
  match lines with
  | [] => []
  | _ =>
      let '(_, speaker_map) := fold_left speaker_step lines (None, []) in
      if (len speaker_map <=? 0)%N then []
      else
        fold_left (fun out kl =>
                     let sents := _split_sentences (join (u " ") (snd kl)) in
                     Dict.set out (fst kl)
                       (match sents with [] => firstn 6 (snd kl) | _ => firstn 6 sents end))
                  speaker_map []
  end.

(** The score of a sentence in [build_smart_summary]. *)
Definition score (keywords : list str) (s : str) : Z :=
  let s2 := str_lower s in
  (let sc := fold_left (fun sc w => if contains w s2 then sc + 2 else sc) (firstn 8 keywords) 0 in
  let sc := if any_in str_lower DECISION_KWS s2 then sc + 3 else sc in
  let sc := if any_in str_lower TASK_KWS s2 then sc + 2 else sc in
  sc - Z.max 0 (Z.of_N (len s) / 180))%Z.

(** The loop that drops sentences whose first 60 characters were seen. *)
Fixpoint dedupe (top : list str) (seen : pyset) (bullets : list str) : list str :=
  match top with
  | [] => bullets
  | s :: rest =>
      let key := firstn 60 s in
      if negb (mem key seen) then dedupe rest (key :: seen) (bullets ++ [s])
      else dedupe rest seen bullets
  end.

(** [build_smart_summary] *)
Definition build_smart_summary (full_text : str) : SmartSummary :=
  let sentences := _split_sentences full_text in
  let keywords := _top_keywords sentences 12 in
  let scored := map (fun s => (score keywords s, s)) sentences in
  let top := map snd (firstn 10 (sorted_desc fst scored)) in
  let bullets := dedupe top [] [] in
  let topics := _group_by_topics sentences in
  let decisions := _detect_decisions sentences in
  let tasks := _detect_tasks sentences in
  let numbers_dates := _extract_numbers_dates sentences in
  let speakers := _group_by_speakers full_text in
  MkSmartSummary bullets topics speakers decisions tasks numbers_dates keywords.

End WithRuntime.

End Summarizer.

(** * The vocabulary of the specification *)

Import Service Summarizer.

(** A blank transcript: empty, or white space only. *)
Definition blank (s : str) : Prop := forallb isspace s = true.

(** The caps of a [SmartSummary]. *)
Definition within_caps (r : SmartSummary) : Prop :=
  length (bullets r) <= 10 /\ length (Summarizer.decisions r) <= 12
  /\ length (Summarizer.tasks r) <= 15 /\ length (numbers_dates r) <= 12
  /\ Forall (fun kl => length (snd kl) <= 6) (Summarizer.topics r).

(** The matcher went from offset [i], rest [s], to offset [i'], rest [s']. *)
Definition advanced (s : str) (i : nat) (s' : str) (i' : nat) : Prop :=
  exists pre, s = pre ++ s' /\ i' = i + length pre.

(** A pattern without capturing groups. *)
Fixpoint groupless (r : re) : Prop :=
  match r with
  | Seq a b | Alt a b => groupless a /\ groupless b
  | Grp _ _ => False
  | _ => True
  end.

(** Every match of the pattern starts with a character in [P]. *)
Fixpoint starts_in (P : char -> Prop) (r : re) : Prop :=
  match r with
  | Chr p => forall x, p x = true -> P x
  | Seq a _ => starts_in P a
  | _ => False
  end.

(** The rule of speaker attribution as the specification words it: a line
    that matches a label pattern sets the current speaker and gives its
    remainder to that speaker; any other line goes to the current speaker
    when there is one, and is dropped otherwise. *)
Definition attribute_line (st : option str * Dict.dict (list str)) (ln : str)
    : option str * Dict.dict (list str) :=
  let '(current, groups) := st in
  match first_hit SPEAKER_PATTERNS ln with
  | Some (sp, remainder) => (Some sp, Dict.append_to groups sp remainder)
  | None =>
      match current with
      | Some sp => (Some sp, Dict.append_to groups sp ln)
      | None => (None, groups)
      end
  end.

(** The current speaker is either absent or a label that is not empty, so
    the truth test of the source tells exactly whether there is one. *)
Definition speaker_ok (st : option str * Dict.dict (list str)) : Prop :=
  match fst st with
  | Some sp => sp <> []
  | None => True
  end.

(** The three lines of the specification's example. *)
Definition three_lines : str :=
  u "Speaker 1: hello there." ++ [10%N] ++ u "no label line." ++ [10%N] ++ u "Speaker 2: hi.".

(** The two requests that [_ollama_call] can make. *)
Definition chat_request (self : OllamaConfig) (prompt : str) : request :=
  MkRequest (base_url self ++ u "/api/chat") (payload_chat self prompt) (timeout_sec self).

Definition generate_request (self : OllamaConfig) (prompt : str) : request :=
  MkRequest (base_url self ++ u "/api/generate") (payload_generate self prompt) (timeout_sec self).

(** A string between double quotes, and the JSON literal of a string. *)
Definition quoted (s : str) : str := 34%N :: s ++ [34%N].

Definition json_string (s : str) : str :=
  34%N :: flat_map (fun c => if ((c =? 34) || (c =? 92))%N then [92%N; c] else [c]) s ++ [34%N].

(** An endpoint that answers every request with status 200 and [text] as
    the content of the chat message. *)
Definition answering (text : str) : network :=
  fun _ _ => Responds (MkResponse 200
    (u "{" ++ quoted (u "message") ++ u ":{" ++ quoted (u "content") ++ u ":"
       ++ json_string text ++ u "}}")).

(** An endpoint without the chat route, whose other route answers with
    status 302 and a body that holds a response. *)
Definition moved : network :=
  fun log _ =>
    match log with
    | [] => Responds (MkResponse 404 [])
    | _ => Responds (MkResponse 302 (u "{" ++ quoted (u "response") ++ u ":" ++ quoted (u "ok") ++ u "}"))
    end.

(** The configuration of the examples, and a runtime for them: [str.lower]
    on ASCII letters, and no [repr]. *)
Definition local_ollama : OllamaConfig :=
  MkConfig (u "http://127.0.0.1:11434") (u "gemma3:4b") 180.

Definition ascii_lower (s : str) : str :=
  map (fun c => if ((65 <=? c) && (c <=? 90))%N then (c + 32)%N else c) s.

Definition no_repr (v : json) : str := [].

(** A string that [strip_by p] leaves as it is: empty, or with a first and
    a last character outside [p]. *)
Definition trimmed (p : char -> bool) (s : str) : Prop :=
  s = [] \/ exists x t l y, s = x :: t /\ s = l ++ [y] /\ p x = false /\ p y = false.

(** A string whose first character is not white space. *)
Definition starts_nonspace (s : str) : Prop :=
  exists x t, s = x :: t /\ isspace x = false.

(** What [size] counts in [_chunk_text]: each buffered token and one
    separator. *)
Fixpoint sum_sizes (buf : list str) : N :=
  match buf with
  | [] => 0
  | t :: buf' => len t + 1 + sum_sizes buf'
  end.

(** The end of [_chunk_text]: the last flush, made when the cap is not
    reached. *)
Definition finish (max_chunks : N) (st : list str * list str * N) : list str :=
  fst (fst (if (len (fst (fst st)) <? max_chunks)%N then flush st else st)).

(** The parts that [_chunk_text] collects from a list of tokens. *)
Definition raw_parts (chunk_size max_chunks : N) (tokens : list str)
    (st : list str * list str * N) : list str :=
  finish max_chunks (chunk_loop chunk_size max_chunks tokens st).

(** The tokens of [_chunk_text] are short when each, stripped, is shorter
    than the chunk size. *)
Definition short_tokens (chunk_size : N) (text : str) : Prop :=
  Forall (fun token => (len (strip token) < chunk_size)%N) (re_split_keep chunk_sep_re text).

(** The state of the loop of [_chunk_text] when the tokens are short:
    [size] is what the buffer holds, the buffer fits in a chunk, and so
    does every part. *)
Definition bounded (chunk_size : N) (st : list str * list str * N) : Prop :=
  let '(parts, buf, size) := st in
  size = sum_sizes buf /\ (buf = [] \/ (size <= chunk_size)%N)
  /\ Forall (fun p : str => (len p <= chunk_size)%N) parts.

(** Transcripts for the examples: [n] times the sentence "Hello world. ";
    13,000 letters without a sentence mark; 12,000 letters and a space. *)
Definition hello_world (n : nat) : str := List.concat (repeat (u "Hello world. ") n).

Definition long_word : str := repeat 97%N (N.to_nat 13000).

Definition padded_word : str := repeat 97%N (N.to_nat 12000) ++ [32%N].

(** The extractive fallback as the specification words it: the first five
    sentences of the text, joined by spaces and capped to 1,200
    characters.  A sentence ends with one of [.], [!], [؟] and [?] when
    white space follows it, and that white space belongs to no sentence;
    white space around the text does not count.  [cur] is the sentence
    being read, backwards, and [in_gap] says that the white space after a
    sentence is being passed. *)
Definition sentence_mark (c : char) : bool := one_of (u ".!؟?") c.

Fixpoint sentences_from (s : str) (cur : str) (in_gap : bool) : list str :=
  match s with
  | [] => [reversed cur]
  | x :: s' =>
      if in_gap then
        if isspace x then sentences_from s' [] true else sentences_from s' [x] false
      else if isspace x && match cur with m :: _ => sentence_mark m | [] => false end
      then reversed cur :: sentences_from s' [] true
      else sentences_from s' (x :: cur) false
  end.

Definition sentences_of (text : str) : list str :=
  match strip text with
  | [] => []
  | t => sentences_from t [] false
  end.

Definition extractive_fallback (text : str) : str :=
  firstn 1200 (join (u " ") (firstn 5 (sentences_of text))).

(** The last call of a run of [summarize_structured] on a transcript with
    content: the structured call on the text [t], made when the requests
    so far are [l].  A transcript of at most 12,000 characters once
    stripped goes to it as it is; for a longer one the chunks have been
    summarized, and what goes to it is their summaries joined by blank
    lines. *)
Definition final_call (lower : str -> str) (py_repr : json -> str) (self : OllamaConfig)
    (net : network) (title language text : str) (log : list request)
    (t : str) (l : list request) : Prop :=
  strip text <> []
  /\ if (12000 <? len (strip text))%N then
       exists chunk_summaries,
         summarize_chunks lower py_repr self (_chunk_text (strip text) 6000 6) 1%N
           language title net log = (Ok chunk_summaries, l)
         /\ t = join [10%N; 10%N] chunk_summaries
     else t = strip text /\ l = log.

(** An endpoint that gives [first] as the content of its answer to each of
    the first [n] requests, and [later] to every request after them. *)
Definition answering_then (n : nat) (first later : str) : network :=
  fun log rq => if length log <? n then answering first log rq else answering later log rq.

(** A response that is JSON for an object with the summary "s". *)
Definition summary_s : str :=
  u "{" ++ quoted (u "summary") ++ u ":" ++ quoted (u "s") ++ u "}".

(** The response of the specification's parsing example. *)
Definition json_after_text : str :=
  u "here is json: {" ++ quoted (u "summary") ++ u ":" ++ quoted (u "x") ++ u ","
    ++ quoted (u "topics") ++ u ":[" ++ quoted (u "a") ++ u "]}".

(** ** The vocabulary of the further properties *)

(** The number of leading characters of [s] that satisfy [p]. *)
Fixpoint prefix_len (p : char -> bool) (s : str) : nat :=
  match s with
  | c :: s' => if p c then S (prefix_len p s') else 0
  | [] => 0
  end.

(** The characters that end a sentence in [_split_sentences]. *)
Definition sentence_end (c : char) : bool := one_of (u ".!?؟" ++ [10%N]) c.

(** The number of times [w] occurs in [ws]. *)
Definition count (w : str) (ws : list str) : N := len (filter (str_eqb w) ws).

(** The count that a [Counter] gives for [w]: 0 for a missing key. *)
Definition counted (c : Dict.dict N) (w : str) : N :=
  match Dict.get c w with Some n => n | None => 0%N end.

(** All the tokens of a list of sentences, in order. *)
Definition all_tokens (lower : str -> str) (ar en : pyset) (sentences : list str) : list str :=
  flat_map (_tokenize lower ar en) sentences.

(** The [Counter] that [_top_keywords] fills. *)
Definition keyword_counter (lower : str -> str) (ar en : pyset) (sentences : list str)
    : Dict.dict N :=
  fold_left (fun c s => counter_update c (_tokenize lower ar en s)) sentences [].

(** A sentence mentions one of the keywords, whatever the case. *)
Definition mentions (lower : str -> str) (kws : list str) (s : str) : Prop :=
  exists k, In k kws /\ contains (lower k) (lower s) = true.

(** A request to one of the two routes of the configured server, with the
    configured timeout. *)
Definition to_ollama (self : OllamaConfig) (rq : request) : Prop :=
  rq_timeout rq = timeout_sec self
  /\ (rq_url rq = base_url self ++ u "/api/chat"
      \/ rq_url rq = base_url self ++ u "/api/generate").

(** A computation that sends nothing. *)
Definition quiet {A : Type} (m : M A) : Prop := forall net log, snd (m net log) = log.

(** The most requests that [summarize_structured] can send for a
    transcript. *)
Definition most_requests (text : str) : nat :=
  if negb (nonempty (strip text)) then 0
  else if (12000 <? len (strip text))%N then 14 else 2.

(** The report on a meeting without content, in English and in Arabic. *)
Definition blank_report_en : str :=
  join [10%N]
    [u "Executive Summary:"; u "None"; [];
     u "Topics:"; u "- None"; [];
     u "Decisions:"; u "- None"; [];
     u "Action Items:"; u "- None"; [];
     u "Speakers:"; u "- None"].

Definition blank_report_ar : str :=
  join [10%N]
    [u "ملخص تنفيذي:"; u "لا يوجد"; [];
     u "محاور الاجتماع:"; u "- لا يوجد"; [];
     u "القرارات:"; u "- لا يوجد"; [];
     u "المهام:"; u "- لا يوجد"; [];
     u "المتحدثون:"; u "- لا يوجد"].

(** A string with content that [strip] leaves as it is. *)
Definition good (t : str) : Prop := t <> [] /\ strip t = t.

(** The tokens that the loop of [_chunk_text] does not skip, stripped. *)
Definition kept_tokens (text : str) : list str :=
  filter nonempty (map strip (re_split_keep chunk_sep_re text)).

(** The state of the loop of [_chunk_text] seen as groups of tokens: each
    part is a group joined by spaces. *)
Definition grouped (gs : list (list str)) (st : list str * list str * N) : Prop :=
  let '(parts, buf, _) := st in
  parts = map (join (u " ")) gs
  /\ Forall (fun g => g <> [] /\ Forall good g) gs
  /\ Forall good buf.

(** The score that [build_smart_summary] gives to a sentence of the
    transcript. *)
Definition bullet_score (lower : str -> str) (ar en : pyset) (full_text : str) (s : str) : Z :=
  score lower (_top_keywords lower ar en (_split_sentences full_text) 12) s.

(** The characters that [_as_list] removes around the lines of a string:
    space, hyphen, bullet and tab. *)
Definition bullet_mark (c : char) : bool := existsb (N.eqb c) (u " -•" ++ [9%N]).

(** * Properties *)

Unset Implicit Arguments.

(** ** Strings *)

Lemma str_eqb_spec a b : reflect (a = b) (str_eqb a b).
Proof.
  revert b; induction a as [|x a IH]; intros [|y b]; simpl;
    try (constructor; congruence).
  destruct (N.eqb_spec x y) as [->|Hxy]; simpl.
  - destruct (IH b) as [->|Hab]; constructor; congruence.
  - constructor; congruence.
Qed.

Lemma str_eqb_refl a : str_eqb a a = true.
Proof. destruct (str_eqb_spec a a); congruence. Qed.

Lemma mem_In x xs : mem x xs = true <-> In x xs.
Proof.
  unfold mem; rewrite existsb_exists; split.
  - intros (y & Hy & E). destruct (str_eqb_spec x y); congruence.
  - intros H; exists x; split; [assumption | apply str_eqb_refl].
Qed.

Lemma reversed_rev (s : str) : reversed s = rev s.
Proof. unfold reversed; symmetry; apply rev_alt. Qed.

Lemma reversed_length (s : str) : length (reversed s) = length s.
Proof. rewrite reversed_rev; apply length_rev. Qed.

Lemma lstrip_by_length p s : length (lstrip_by p s) <= length s.
Proof.
  induction s as [|c s IH]; simpl; [lia|].
  destruct (p c); simpl; lia.
Qed.

Lemma strip_by_length p s : length (strip_by p s) <= length s.
Proof.
  unfold strip_by, rstrip_by.
  rewrite reversed_length.
  etransitivity; [apply lstrip_by_length|].
  rewrite reversed_length. apply lstrip_by_length.
Qed.

Lemma strip_length s : length (strip s) <= length s.
Proof. apply strip_by_length. Qed.

Lemma lstrip_by_all p s : forallb p s = true -> lstrip_by p s = [].
Proof.
  induction s as [|c s IH]; simpl; [reflexivity|].
  intros H; apply andb_true_iff in H as [Hc Hs]; rewrite Hc; auto.
Qed.

Lemma strip_blank s : blank s -> strip s = [].
Proof.
  intros H; unfold strip, strip_by. rewrite (lstrip_by_all _ _ H). reflexivity.
Qed.

(** ** The fuel of the JSON scanner is never used up *)

Lemma hex4_len s c r : hex4 s = Some (c, r) -> length r + 4 = length s.
Proof.
  unfold hex4. destruct s as [|a [|b [|c' [|d s]]]]; try discriminate.
  destruct (hex_val a), (hex_val b), (hex_val c'), (hex_val d); try discriminate.
  intros E; injection E as _ <-. cbn [length]. lia.
Qed.

Lemma low_surrogate_len s c r : low_surrogate s = Some (c, r) -> length r + 6 = length s.
Proof.
  unfold low_surrogate. destruct s as [|a [|b s]]; try discriminate.
  destruct ((a =? 92) && (b =? 117))%N; [|discriminate].
  destruct (hex4 s) as [[c2 s'']|] eqn:E; [|discriminate].
  destruct ((56320 <=? c2) && (c2 <=? 57343))%N; [|discriminate].
  intros X; injection X as _ <-. apply hex4_len in E. cbn [length]. lia.
Qed.

Lemma scan_escape_len s c r : scan_escape s = Some (c, r) -> length r < length s.
Proof.
  unfold scan_escape. destruct s as [|e s]; [discriminate|]. cbn [length].
  destruct (e =? 117)%N.
  - destruct (hex4 s) as [[c1 s3]|] eqn:E; [|discriminate]. apply hex4_len in E.
    destruct ((55296 <=? c1) && (c1 <=? 56319))%N.
    + destruct (low_surrogate s3) as [[c2 s4]|] eqn:E2.
      * apply low_surrogate_len in E2. intros X; injection X as _ <-. lia.
      * intros X; injection X as _ <-. lia.
    + intros X; injection X as _ <-. lia.
  - repeat match goal with
    | |- (if ?b then _ else _) = _ -> _ => destruct b; [intros X; injection X as _ <-; lia|]
    end. discriminate.
Qed.

Lemma scanstring_len f : forall s acc x r,
  scanstring f s acc = Some (x, r) -> length r < length s.
Proof.
  induction f as [|f IH]; intros s acc x r; cbn [scanstring]; [discriminate|].
  destruct s as [|c s]; [discriminate|]. cbn [length].
  destruct (c =? 34)%N; [intros X; injection X as _ <-; lia|].
  destruct (c =? 92)%N.
  - destruct (scan_escape s) as [[y r']|] eqn:E; [|discriminate].
    apply scan_escape_len in E. intros X. apply IH in X. lia.
  - destruct (c <? 32)%N; [discriminate|]. intros X. apply IH in X. lia.
Qed.

(** More fuel than the length of the input changes nothing. *)
Lemma scanstring_fuel f : forall s acc,
  length s < f -> scanstring f s acc = scanstring (S f) s acc.
Proof.
  induction f as [|f IH]; intros s acc Hf; [lia|].
  destruct s as [|c s]; [reflexivity|]. cbn [length] in Hf.
  change (scanstring (S (S f)) (c :: s) acc) with
    (if (c =? 34)%N then Some (reversed acc, s)
     else if (c =? 92)%N then
       match scan_escape s with
       | Some (x, r) => scanstring (S f) r (x :: acc)
       | None => None
       end
     else if (c <? 32)%N then None
     else scanstring (S f) s (c :: acc)).
  cbn [scanstring].
  destruct (c =? 34)%N; [reflexivity|].
  destruct (c =? 92)%N.
  - destruct (scan_escape s) as [[y r']|] eqn:E; [|reflexivity].
    apply scan_escape_len in E. apply IH. lia.
  - destruct (c <? 32)%N; [reflexivity|]. apply IH. lia.
Qed.

Lemma scanstring_enough s acc f :
  length s < f -> scanstring f s acc = scanstring (S (length s)) s acc.
Proof.
  intros H. induction H as [|f H IH]; [reflexivity|].
  rewrite <- scanstring_fuel by lia. exact IH.
Qed.

Lemma span_len p s a r : span p s = (a, r) -> length r <= length s.
Proof.
  revert a r; induction s as [|c s IH]; intros a r; cbn [span].
  - intros X; injection X as _ <-. lia.
  - destruct (p c).
    + destruct (span p s) as [a' b'] eqn:E. intros X; injection X as _ <-.
      specialize (IH _ _ eq_refl). cbn [length]. lia.
    + intros X; injection X as _ <-. lia.
Qed.

Lemma scan_int_len s ip r : scan_int s = Some (ip, r) -> length r < length s.
Proof.
  unfold scan_int. destruct s as [|c s]; [discriminate|]. cbn [length].
  destruct (c =? 48)%N; [intros X; injection X as _ <-; lia|].
  destruct ((49 <=? c) && (c <=? 57))%N; [|discriminate].
  destruct (span is_digit s) as [ds r'] eqn:E. apply span_len in E.
  intros X; injection X as _ <-. lia.
Qed.

Lemma scan_frac_len r : length (snd (scan_frac r)) <= length r.
Proof.
  unfold scan_frac. destruct r as [|c r]; [reflexivity|].
  destruct (c =? 46)%N; [|reflexivity].
  destruct (span is_digit r) as [[|d fs] r''] eqn:E; [reflexivity|].
  apply span_len in E. cbn [snd length]. lia.
Qed.

Lemma scan_sign_len r : length (snd (scan_sign r)) <= length r.
Proof.
  unfold scan_sign. destruct r as [|c t]; [reflexivity|].
  destruct (c =? 45)%N; [cbn [snd length]; lia|].
  destruct (c =? 43)%N; cbn [snd length]; lia.
Qed.

Lemma scan_exp_len r : length (snd (scan_exp r)) <= length r.
Proof.
  unfold scan_exp. destruct r as [|e r]; [reflexivity|].
  destruct ((e =? 101) || (e =? 69))%N; [|reflexivity].
  pose proof (scan_sign_len r) as L.
  destruct (scan_sign r) as [sgn r'']. cbn [snd] in L.
  destruct (span is_digit r'') as [[|d es] r3] eqn:E3; [reflexivity|].
  apply span_len in E3. cbn [snd length]. lia.
Qed.

Lemma scan_number_len neg s v r : scan_number neg s = Some (v, r) -> length r < length s.
Proof.
  unfold scan_number. destruct (scan_int s) as [[ip r0]|] eqn:E; [|discriminate].
  apply scan_int_len in E.
  pose proof (scan_frac_len r0) as F. destruct (scan_frac r0) as [frac r1]. cbn [snd] in F.
  pose proof (scan_exp_len r1) as X. destruct (scan_exp r1) as [ex r2]. cbn [snd] in X.
  destruct frac, ex; intros Y; injection Y as _ <-; lia.
Qed.

Lemma skip_ws_len s : length (skip_ws s) <= length s.
Proof. apply lstrip_by_length. Qed.

Lemma scan_after_comma close s r : scan_after close s = Comma r -> length r < length s.
Proof.
  unfold scan_after. pose proof (skip_ws_len s) as L.
  destruct (skip_ws s) as [|c t]; [discriminate|]. cbn [length] in L.
  destruct (c =? 44)%N.
  - intros X; injection X as <-. pose proof (skip_ws_len t). lia.
  - destruct (c =? close)%N; discriminate.
Qed.

Lemma scan_after_close close s r : scan_after close s = Close r -> length r < length s.
Proof.
  unfold scan_after. pose proof (skip_ws_len s) as L.
  destruct (skip_ws s) as [|c t]; [discriminate|]. cbn [length] in L.
  destruct (c =? 44)%N; [discriminate|].
  destruct (c =? close)%N; [|discriminate].
  intros X; injection X as <-. lia.
Qed.

Lemma scan_once_unfold f s :
  scan_once (S f) s =
  match s with
  | [] => None
  | c :: s' =>
      if (c =? 34)%N then
        match scanstring (S (length s')) s' [] with
        | Some (x, r) => Some (JStr x, r)
        | None => None
        end
      else if (c =? 123)%N then
        match skip_ws s' with
        | [] => None
        | c' :: r => if (c' =? 125)%N then Some (JObj [], r) else scan_members f (c' :: r) []
        end
      else if (c =? 91)%N then
        match skip_ws s' with
        | [] => None
        | c' :: r => if (c' =? 93)%N then Some (JArr [], r) else scan_elems f (c' :: r) []
        end
      else if startswith (u "null") s then Some (JNull, skipn 4 s)
      else if startswith (u "true") s then Some (JBool true, skipn 4 s)
      else if startswith (u "false") s then Some (JBool false, skipn 5 s)
      else if startswith (u "NaN") s then Some (JFloat FNan, skipn 3 s)
      else if startswith (u "Infinity") s then Some (JFloat (FInf false), skipn 8 s)
      else if startswith (u "-Infinity") s then Some (JFloat (FInf true), skipn 9 s)
      else if (c =? 45)%N then scan_number true s'
      else scan_number false s
  end.
Proof. reflexivity. Qed.

Lemma scan_elems_unfold f s acc :
  scan_elems (S f) s acc =
  match scan_once f s with
  | None => None
  | Some (v, r) =>
      match scan_after 93%N r with
      | Comma r' => scan_elems f r' (v :: acc)
      | Close r' => Some (JArr (rev (v :: acc)), r')
      | Neither => None
      end
  end.
Proof. reflexivity. Qed.

Lemma scan_members_unfold f s acc :
  scan_members (S f) s acc =
  match s with
  | [] => None
  | q :: s' =>
      if (q =? 34)%N then
        match scanstring (S (length s')) s' [] with
        | None => None
        | Some (key, r) =>
            match skip_ws r with
            | [] => None
            | c :: r1 =>
                if (c =? 58)%N then
                  match scan_once f (skip_ws r1) with
                  | None => None
                  | Some (v, r2) =>
                      match scan_after 125%N r2 with
                      | Comma r3 => scan_members f r3 (obj_set acc key v)
                      | Close r3 => Some (JObj (obj_set acc key v), r3)
                      | Neither => None
                      end
                  end
                else None
            end
        end
      else None
  end.
Proof. reflexivity. Qed.

Lemma skipn_shorter (n : nat) (c : N) (s : str) :
  0 < n -> length (skipn n (c :: s)) < length (c :: s).
Proof. intros H. rewrite length_skipn. cbn [length]. lia. Qed.

Lemma literal_shorter (n : nat) (c : N) (s : str) (x v : json) (r : str) :
  0 < n -> Some (x, skipn n (c :: s)) = Some (v, r) -> length r < length (c :: s).
Proof.
  intros H X. assert (E : r = skipn n (c :: s)) by congruence.
  subst r. apply skipn_shorter, H.
Qed.

(** Every scan that succeeds passes at least one character. *)
Lemma scan_len f :
  (forall s v r, scan_once f s = Some (v, r) -> length r < length s)
  /\ (forall s acc v r, scan_elems f s acc = Some (v, r) -> length r < length s)
  /\ (forall s acc v r, scan_members f s acc = Some (v, r) -> length r < length s).
Proof.
  induction f as [|f (IHo & IHe & IHm)]; [repeat split; discriminate|].
  split; [|split].
  - intros s v r. rewrite scan_once_unfold.
    destruct s as [|c s]; [discriminate|].
    destruct (c =? 34)%N.
    { destruct (scanstring _ s []) as [[x r']|] eqn:E; [|discriminate].
      apply scanstring_len in E. intros X; injection X as _ <-. cbn [length]. lia. }
    destruct (c =? 123)%N.
    { pose proof (skip_ws_len s) as L. destruct (skip_ws s) as [|c' r0]; [discriminate|].
      cbn [length] in *. destruct (c' =? 125)%N.
      - intros X; injection X as _ <-. lia.
      - intros X. apply IHm in X. cbn [length] in X. lia. }
    destruct (c =? 91)%N.
    { pose proof (skip_ws_len s) as L. destruct (skip_ws s) as [|c' r0]; [discriminate|].
      cbn [length] in *. destruct (c' =? 93)%N.
      - intros X; injection X as _ <-. lia.
      - intros X. apply IHe in X. cbn [length] in X. lia. }
    repeat match goal with
    | |- (if startswith ?w ?t then _ else _) = _ -> _ =>
        destruct (startswith w t); [apply literal_shorter; lia|]
    end.
    destruct (c =? 45)%N; intros X; apply scan_number_len in X; cbn [length] in *; lia.
  - intros s acc v r. rewrite scan_elems_unfold.
    destruct (scan_once f s) as [[v0 r0]|] eqn:E; [|discriminate].
    apply IHo in E.
    destruct (scan_after 93%N r0) as [r'|r'|] eqn:A; [| |discriminate].
    + apply scan_after_comma in A. intros X. apply IHe in X. lia.
    + apply scan_after_close in A. intros X; injection X as _ <-. lia.
  - intros s acc v r. rewrite scan_members_unfold.
    destruct s as [|q s]; [discriminate|].
    destruct (q =? 34)%N; [|discriminate].
    destruct (scanstring _ s []) as [[key r0]|] eqn:E; [|discriminate].
    apply scanstring_len in E.
    pose proof (skip_ws_len r0) as L. destruct (skip_ws r0) as [|c r1]; [discriminate|].
    destruct (c =? 58)%N; [|discriminate].
    pose proof (skip_ws_len r1) as L1.
    destruct (scan_once f (skip_ws r1)) as [[v0 r2]|] eqn:E2; [|discriminate].
    apply IHo in E2. cbn [length] in *.
    destruct (scan_after 125%N r2) as [r3|r3|] eqn:A; [| |discriminate].
    + apply scan_after_comma in A. intros X. apply IHm in X. lia.
    + apply scan_after_close in A. intros X; injection X as _ <-. lia.
Qed.

(** With fuel beyond twice the length of the input, one more unit changes
    nothing. *)
Lemma scan_fuel f :
  (forall s, 2 * length s < f -> scan_once f s = scan_once (S f) s)
  /\ (forall s acc, 2 * length s + 1 < f -> scan_elems f s acc = scan_elems (S f) s acc)
  /\ (forall s acc, 2 * length s < f -> scan_members f s acc = scan_members (S f) s acc).
Proof.
  induction f as [|f (IHo & IHe & IHm)]; [repeat split; intros; lia|].
  destruct (scan_len f) as (Lo & Le & Lm).
  split; [|split].
  - intros s Hf. rewrite !scan_once_unfold.
    destruct s as [|c s]; [reflexivity|]. cbn [length] in Hf.
    destruct (c =? 34)%N; [reflexivity|].
    destruct (c =? 123)%N.
    { pose proof (skip_ws_len s) as L. destruct (skip_ws s) as [|c' r0]; [reflexivity|].
      cbn [length] in L. destruct (c' =? 125)%N; [reflexivity|].
      apply IHm. cbn [length]. lia. }
    destruct (c =? 91)%N.
    { pose proof (skip_ws_len s) as L. destruct (skip_ws s) as [|c' r0]; [reflexivity|].
      cbn [length] in L. destruct (c' =? 93)%N; [reflexivity|].
      apply IHe. cbn [length]. lia. }
    reflexivity.
  - intros s acc Hf. rewrite !scan_elems_unfold.
    rewrite <- IHo by lia.
    destruct (scan_once f s) as [[v0 r0]|] eqn:E; [|reflexivity].
    apply Lo in E.
    destruct (scan_after 93%N r0) as [r'|r'|] eqn:A; [| reflexivity | reflexivity].
    apply scan_after_comma in A. apply IHe. lia.
  - intros s acc Hf. rewrite !scan_members_unfold.
    destruct s as [|q s]; [reflexivity|]. cbn [length] in Hf.
    destruct (q =? 34)%N; [|reflexivity].
    destruct (scanstring _ s []) as [[key r0]|] eqn:E; [|reflexivity].
    apply scanstring_len in E.
    pose proof (skip_ws_len r0) as L. destruct (skip_ws r0) as [|c r1]; [reflexivity|].
    destruct (c =? 58)%N; [|reflexivity].
    pose proof (skip_ws_len r1) as L1. cbn [length] in *.
    rewrite <- IHo by lia.
    destruct (scan_once f (skip_ws r1)) as [[v0 r2]|] eqn:E2; [|reflexivity].
    apply Lo in E2.
    destruct (scan_after 125%N r2) as [r3|r3|] eqn:A; [| reflexivity | reflexivity].
    apply scan_after_comma in A. apply IHm. lia.
Qed.

(** [loads] has all the fuel it needs: more gives the same result. *)
Lemma loads_fuel s f :
  2 * length s + 2 <= f ->
  scan_once f (skip_ws s) = scan_once (2 * length s + 2) (skip_ws s).
Proof.
  intros H. induction H as [|f H IH]; [reflexivity|].
  rewrite <- IH. symmetry. apply (proj1 (scan_fuel f)).
  pose proof (skip_ws_len s). lia.
Qed.

(** ** The caps of the heuristic summary *)

Lemma dedupe_length top seen bs :
  length (dedupe top seen bs) <= length bs + length top.
Proof.
  revert seen bs; induction top as [|s top IH]; intros seen bs; cbn [dedupe length]; [lia|].
  destruct (negb (mem (firstn 60 s) seen)).
  - etransitivity; [apply IH|]. rewrite length_app; cbn [length]; lia.
  - etransitivity; [apply IH|]. lia.
Qed.

Lemma dict_set_Forall (V : Type) (P : V -> Prop) (d : Dict.dict V) k v :
  Forall (fun kl => P (snd kl)) d -> P v ->
  Forall (fun kl => P (snd kl)) (Dict.set d k v).
Proof.
  intros Hd Hv; induction d as [|[k' v'] d IH]; simpl.
  - constructor; [assumption | constructor].
  - inversion Hd; subst. destruct (str_eqb k k'); constructor; auto.
Qed.

Lemma fold_left_invariant (A B : Type) (P : A -> Prop) (f : A -> B -> A) l a :
  (forall a b, P a -> P (f a b)) -> P a -> P (fold_left f l a).
Proof.
  intros Hf; revert a; induction l as [|b l IH]; intros a Ha; simpl; auto.
Qed.

Lemma group_by_topics_cap lower ar en sentences :
  Forall (fun kl => length (snd kl) <= 6) (_group_by_topics lower ar en sentences).
Proof.
  unfold _group_by_topics.
  destruct (fold_left _ sentences _) as [groups other].
  apply fold_left_invariant; [|constructor].
  intros cleaned [k lst] H; cbn [fst snd].
  destruct lst as [|x lst]; [assumption|].
  apply dict_set_Forall with (P := fun l => length l <= 6); [assumption|].
  apply firstn_le_length.
Qed.

(** C2. Whatever the transcript, the summary that [build_smart_summary]
    builds has at most 10 bullets, 12 decisions, 15 tasks and 12 sentences
    with numbers or dates, and every topic group, fixed or dynamic, has at
    most 6 sentences. *)
Theorem build_smart_summary_caps lower ar en full_text :
  within_caps (build_smart_summary lower ar en full_text).
Proof.
  unfold within_caps, build_smart_summary;
    cbn [bullets Summarizer.decisions Summarizer.tasks numbers_dates Summarizer.topics].
  repeat split.
  - etransitivity; [apply dedupe_length|]. cbn [length Nat.add].
    rewrite length_map. apply firstn_le_length.
  - apply firstn_le_length.
  - apply firstn_le_length.
  - apply firstn_le_length.
  - apply group_by_topics_cap.
Qed.

(** ** Blank transcripts *)

Lemma blank_reversed s : blank s -> blank (reversed s).
Proof.
  unfold blank; rewrite reversed_rev, !forallb_forall.
  intros H x Hx; apply H, in_rev, Hx.
Qed.

Lemma blank_cons c s : blank (c :: s) <-> isspace c = true /\ blank s.
Proof. unfold blank; cbn [forallb]; apply andb_true_iff. Qed.

Lemma splitlines_aux_blank n : forall s cur,
  length s <= n -> blank cur -> blank s -> Forall blank (splitlines_aux cur s).
Proof.
  induction n as [|n IH]; intros s cur Hn Hcur Hs.
  - destruct s; [|simpl in Hn; lia].
    cbn [splitlines_aux]; destruct cur; constructor;
      [apply blank_reversed, Hcur | constructor].
  - destruct s as [|c s]; cbn [splitlines_aux].
    + destruct cur; constructor; [apply blank_reversed, Hcur | constructor].
    + apply blank_cons in Hs as [Hc Hs]. cbn [length] in Hn.
      destruct (is_linebreak c).
      * destruct s as [|c' s'].
        -- constructor; [apply blank_reversed, Hcur | constructor].
        -- pose proof Hs as Hs0. apply blank_cons in Hs as [Hc' Hs'].
           cbn [length] in Hn.
           destruct ((c =? 13)%N && (c' =? 10)%N);
             (constructor; [apply blank_reversed, Hcur |]);
             apply IH; cbn [length]; try reflexivity; try assumption; lia.
      * apply IH; [lia | | exact Hs].
        apply blank_cons; split; assumption.
Qed.

Lemma splitlines_blank s : blank s -> Forall blank (splitlines s).
Proof.
  intros H; apply (splitlines_aux_blank (length s)); [lia | reflexivity | exact H].
Qed.

Lemma no_line_of_blank s :
  blank s -> map strip (filter (fun ln => nonempty (strip ln)) (splitlines s)) = [].
Proof.
  intros H. pose proof (splitlines_blank s H) as F.
  induction F as [|ln lns Hln _ IH]; cbn [filter]; [reflexivity|].
  rewrite (strip_blank ln Hln); cbn [nonempty]. exact IH.
Qed.

Lemma split_sentences_blank s : blank s -> _split_sentences s = [].
Proof.
  intros H; unfold _split_sentences. rewrite (strip_blank s H). reflexivity.
Qed.

Lemma group_by_speakers_blank s : blank s -> _group_by_speakers s = [].
Proof.
  intros H; unfold _group_by_speakers. rewrite (no_line_of_blank s H). reflexivity.
Qed.

(** C5. A transcript that is empty or only white space gives a
    [SmartSummary] whose lists and maps are all empty, and
    [summarize_structured] answers it with the empty summary and empty lists
    without a single request to the network. *)
Theorem blank_transcript_empty_results lower ar en py_repr self title language net log text :
  blank text ->
  build_smart_summary lower ar en text = MkSmartSummary [] [] [] [] [] [] []
  /\ summarize_structured lower py_repr self text title language net log
     = (Ok (MkSummaryResult [] [] [] [] []), log).
Proof.
  intros H; split.
  - unfold build_smart_summary.
    rewrite (split_sentences_blank text H), (group_by_speakers_blank text H).
    reflexivity.
  - unfold summarize_structured. rewrite (strip_blank text H). reflexivity.
Qed.

Lemma blank_transcript_empty_results_witness :
  blank (u "  ") /\
  (build_smart_summary ascii_lower AR_STOP EN_STOP (u "  ") = MkSmartSummary [] [] [] [] [] [] []
   /\ summarize_structured ascii_lower no_repr local_ollama (u "  ") (u "t") (u "ar")
        (answering (u "{}")) []
      = (Ok (MkSummaryResult [] [] [] [] []), [])).
Proof.
  split; [reflexivity |].
  apply (blank_transcript_empty_results ascii_lower AR_STOP EN_STOP no_repr local_ollama
           (u "t") (u "ar") (answering (u "{}")) [] (u "  ")).
  reflexivity.
Defined.

(** ** Determinism of the heuristic pipeline

    The summary is a function of the transcript, of [str.lower] and of the
    tables.  The only objects of the program whose internal order changes
    from one run to the next are the two stopword sets, and they are only
    asked for membership: any two layouts of them give the same summary. *)

Lemma mem_layout words s s' x :
  layout_of words s -> layout_of words s' -> mem x s = mem x s'.
Proof.
  intros H H'. apply eq_true_iff_eq. rewrite !mem_In, (H x), (H' x). reflexivity.
Qed.

Lemma filter_ext_all (A : Type) (f g : A -> bool) l :
  (forall x, f x = g x) -> filter f l = filter g l.
Proof. intros E; apply filter_ext_in; intros; apply E. Qed.

Lemma fold_left_ext (A B : Type) (f g : A -> B -> A) l a :
  (forall a b, f a b = g a b) -> fold_left f l a = fold_left g l a.
Proof.
  intros E; revert a; induction l as [|b l IH]; intros a; simpl; [reflexivity|].
  rewrite E; apply IH.
Qed.

Section Layouts.
Variable lower : str -> str.
Variables ar ar' en en' : pyset.
Hypothesis Har : layout_of AR_STOP ar.
Hypothesis Har' : layout_of AR_STOP ar'.
Hypothesis Hen : layout_of EN_STOP en.
Hypothesis Hen' : layout_of EN_STOP en'.

Lemma tokenize_layout text : _tokenize lower ar en text = _tokenize lower ar' en' text.
Proof.
  unfold _tokenize. apply filter_ext_all; intros t.
  rewrite (mem_layout _ _ _ t Har Har'), (mem_layout _ _ _ t Hen Hen'). reflexivity.
Qed.

Lemma top_keywords_layout sentences k :
  _top_keywords lower ar en sentences k = _top_keywords lower ar' en' sentences k.
Proof.
  unfold _top_keywords. f_equal. f_equal.
  apply fold_left_ext; intros c s. rewrite tokenize_layout. reflexivity.
Qed.

Lemma group_by_topics_layout sentences :
  _group_by_topics lower ar en sentences = _group_by_topics lower ar' en' sentences.
Proof.
  unfold _group_by_topics.
  destruct (fold_left _ sentences _) as [groups other].
  rewrite top_keywords_layout. reflexivity.
Qed.

Lemma build_smart_summary_layout text :
  build_smart_summary lower ar en text = build_smart_summary lower ar' en' text.
Proof.
  unfold build_smart_summary.
  rewrite group_by_topics_layout, top_keywords_layout. reflexivity.
Qed.
End Layouts.

(** C8. The heuristic pipeline is deterministic: two invocations of
    [build_smart_summary] on the same transcript, each with its own layout
    of the stopword sets, return the same [SmartSummary], field by field
    and in the same order. *)
Theorem build_smart_summary_deterministic lower ar ar' en en' text text' :
  layout_of AR_STOP ar -> layout_of AR_STOP ar' ->
  layout_of EN_STOP en -> layout_of EN_STOP en' ->
  text = text' ->
  build_smart_summary lower ar en text = build_smart_summary lower ar' en' text'.
Proof.
  intros Har Har' Hen Hen' <-.
  apply build_smart_summary_layout; assumption.
Qed.

Lemma layout_of_refl words : layout_of words words.
Proof. intros w; reflexivity. Qed.

Lemma layout_of_rev words : layout_of words (rev words).
Proof. intros w; symmetry; apply in_rev. Qed.

Lemma build_smart_summary_deterministic_witness :
  build_smart_summary ascii_lower AR_STOP EN_STOP (u "We decided. Please send it.")
  = build_smart_summary ascii_lower (rev AR_STOP) (rev EN_STOP) (u "We decided. Please send it.").
Proof.
  apply (build_smart_summary_deterministic ascii_lower AR_STOP (rev AR_STOP)
           EN_STOP (rev EN_STOP) (u "We decided. Please send it.") (u "We decided. Please send it."));
    [ apply layout_of_refl | apply layout_of_rev | apply layout_of_refl | apply layout_of_rev
    | reflexivity ].
Defined.

(** ** What a match of a speaker pattern looks like *)

Lemma advanced_refl s i : advanced s i s i.
Proof. exists []; split; [reflexivity | simpl; lia]. Qed.

Lemma advanced_trans s i s1 i1 s2 i2 :
  advanced s i s1 i1 -> advanced s1 i1 s2 i2 -> advanced s i s2 i2.
Proof.
  intros (p1 & -> & ->) (p2 & -> & ->). exists (p1 ++ p2); split.
  - rewrite app_assoc; reflexivity.
  - rewrite length_app; lia.
Qed.

Lemma advanced_cons x s i s' i' :
  advanced s (S i) s' i' -> advanced (x :: s) i s' i'.
Proof.
  intros (p & -> & ->). exists (x :: p); split; [reflexivity | simpl; lia].
Qed.

Lemma rep_inv (R : Type) p s : forall lo hi prev i (k : option char -> str -> nat -> option R) res,
  rep p lo hi prev s i k = Some res ->
  exists p' s' i', advanced s i s' i' /\ k p' s' i' = Some res.
Proof.
  induction s as [|x s IH]; intros lo hi prev i k res H.
  - exists prev, [], i; split; [apply advanced_refl|].
    cbn [rep] in H. destruct hi as [[|h]|]; destruct (lo =? 0); congruence.
  - cbn [rep] in H.
    assert (Stop : (if lo =? 0 then k prev (x :: s) i else None) = Some res ->
                   exists p' s' i', advanced (x :: s) i s' i' /\ k p' s' i' = Some res).
    { intros E. destruct (lo =? 0); [|discriminate].
      exists prev, (x :: s), i; split; [apply advanced_refl | exact E]. }
    destruct hi as [[|h]|].
    + auto.
    + destruct (p x); [|auto].
      destruct (rep p (pred lo) (option_map pred (Some (S h))) (Some x) s (S i) k) eqn:E; [|auto].
      injection H as <-.
      apply IH in E as (p' & s' & i' & A & K).
      exists p', s', i'; split; [apply advanced_cons, A | exact K].
    + destruct (p x); [|auto].
      destruct (rep p (pred lo) (option_map pred None) (Some x) s (S i) k) eqn:E; [|auto].
      injection H as <-.
      apply IH in E as (p' & s' & i' & A & K).
      exists p', s', i'; split; [apply advanced_cons, A | exact K].
Qed.

Lemma mt_inv (R : Type) r : forall prev s i c (k : option char -> str -> nat -> caps -> option R) res,
  groupless r ->
  mt r prev s i c k = Some res ->
  exists p' s' i', advanced s i s' i' /\ k p' s' i' c = Some res.
Proof.
  induction r as [|p|a IHa b IHb|a IHa b IHb|p lo hi|g a IHa| | |p];
    intros prev s i c k res G H; cbn [mt] in H.
  - exists prev, s, i; split; [apply advanced_refl | exact H].
  - destruct s as [|x s]; [discriminate|].
    destruct (p x); [|discriminate].
    exists (Some x), s, (S i); split; [|exact H].
    apply advanced_cons, advanced_refl.
  - destruct G as [Ga Gb].
    apply IHa in H as (p1 & s1 & i1 & A1 & H); [|exact Ga].
    apply IHb in H as (p2 & s2 & i2 & A2 & H); [|exact Gb].
    exists p2, s2, i2; split; [eapply advanced_trans; eassumption | exact H].
  - destruct G as [Ga Gb].
    destruct (mt a prev s i c k) eqn:E.
    + injection H as <-. apply IHa in E; assumption.
    + apply IHb in H; assumption.
  - apply rep_inv in H. exact H.
  - destruct G.
  - destruct prev; [discriminate|].
    exists None, s, i; split; [apply advanced_refl | exact H].
  - exists prev, s, i; split; [apply advanced_refl |].
    destruct s as [|x [|y s]]; try discriminate; [exact H|].
    destruct (x =? 10)%N; [exact H | discriminate].
  - destruct prev as [x|]; [|discriminate].
    destruct (p x); [|discriminate].
    exists (Some x), s, i; split; [apply advanced_refl | exact H].
Qed.

Lemma mt_starts (R : Type) (P : char -> Prop) r :
  forall prev s i c (k : option char -> str -> nat -> caps -> option R) res,
  groupless r -> starts_in P r ->
  mt r prev s i c k = Some res ->
  exists x s1 p' s' i',
    s = x :: s1 /\ P x /\ advanced s1 (S i) s' i' /\ k p' s' i' c = Some res.
Proof.
  induction r as [|p|a IHa b IHb|a IHa b IHb|p lo hi|g a IHa| | |p];
    intros prev s i c k res G St H; cbn [starts_in] in St; try contradiction.
  - cbn [mt] in H. destruct s as [|x s]; [discriminate|].
    destruct (p x) eqn:Px; [|discriminate].
    exists x, s, (Some x), s, (S i); repeat split; auto using advanced_refl.
  - destruct G as [Ga Gb]. cbn [mt] in H.
    apply IHa in H as (x & s1 & p1 & s2 & i2 & -> & Px & A & H); auto.
    apply mt_inv in H as (p3 & s3 & i3 & A3 & H); auto.
    exists x, s1, p3, s3, i3; repeat split; auto.
    eapply advanced_trans; eassumption.
Qed.

Lemma lstrip_by_last p l x : p x = false -> lstrip_by p (l ++ [x]) <> [].
Proof.
  intros Hx; induction l as [|y l IH]; simpl.
  - rewrite Hx; discriminate.
  - destruct (p y); [exact IH | discriminate].
Qed.

Lemma strip_head x t : isspace x = false -> strip (x :: t) <> [].
Proof.
  intros Hx. unfold strip, strip_by, rstrip_by. cbn [lstrip_by]. rewrite Hx.
  rewrite !reversed_rev. cbn [rev].
  intros E. apply (f_equal (@length _)) in E. rewrite length_rev in E.
  cbn [length] in E.
  apply length_zero_iff_nil in E. revert E. apply lstrip_by_last, Hx.
Qed.

Lemma slice_app pre x s1 n :
  slice (pre ++ x :: s1) (length pre) (S (length pre) + n) = x :: firstn n s1.
Proof.
  unfold slice. rewrite skipn_app, skipn_all, Nat.sub_diag. cbn [app skipn].
  replace (S (length pre) + n - length pre) with (S n) by lia. reflexivity.
Qed.

(** A line that matches [label_pattern label] has both groups, and the
    label does not strip to nothing when it starts with a character that is
    not white space. *)
Lemma label_pattern_match label ln m :
  groupless label -> starts_in (fun x => isspace x = false) label ->
  re_match (label_pattern label) ln = Some m ->
  exists g1 g2, group m ln 1 = Some g1 /\ group m ln 2 = Some g2 /\ strip g1 <> [].
Proof.
  intros G St H. unfold re_match in H.
  destruct (mt _ _ _ _ _ _) as [[j c]|] eqn:E; [|discriminate].
  injection H as <-.
  unfold label_pattern, seq, star in E. cbn [fold_right mt] in E.
  apply rep_inv in E as (p1 & s1 & i1 & A1 & E).
  apply mt_starts with (P := fun x => isspace x = false) in E
    as (x & t & p2 & s2 & i2 & -> & Px & A2 & E); auto.
  apply rep_inv in E as (p3 & s3 & i3 & A3 & E).
  destruct s3 as [|y s3]; [discriminate|].
  destruct (one_of _ y); [|discriminate].
  apply rep_inv in E as (p4 & s4 & i4 & A4 & E).
  unfold Re.plus in E.
  apply rep_inv in E as (p5 & s5 & i5 & A5 & E).
  assert (E' : accept p5 s5 i5 [(2, (i4, i5)); (1, (i1, i2))] = Some (j, c)).
  { destruct s5 as [|z [|z' s5]]; try discriminate; [exact E|].
    destruct (z =? 10)%N; [exact E | discriminate]. }
  injection E' as <- <-.
  destruct A1 as (pre & -> & ->). destruct A2 as (pre2 & -> & ->).
  unfold group; cbn [m_caps lookup_cap Nat.eqb m_start m_end].
  eexists _, _; repeat split.
  cbn [plus]. change (0 + length pre) with (length pre).
  replace (S (length pre) + length pre2) with (S (length pre) + length pre2) by reflexivity.
  rewrite slice_app. apply strip_head, Px.
Qed.

Ltac bool_arith :=
  repeat match goal with
  | H : _ || _ = true |- _ => apply orb_true_iff in H; destruct H as [H|H]
  | H : _ && _ = true |- _ => apply andb_true_iff in H; destruct H
  | H : (_ <=? _)%N = true |- _ => apply N.leb_le in H
  | H : (_ <? _)%N = true |- _ => apply N.ltb_lt in H
  | H : (_ =? _)%N = true |- _ => apply N.eqb_eq in H
  | H : false = true |- _ => discriminate H
  end; try lia.

Lemma alpha_i_not_space x : alpha_i x = true -> isspace x = false.
Proof.
  intros Hx; destruct (isspace x) eqn:Hs; [exfalso | reflexivity].
  unfold isspace in Hs; unfold alpha_i in Hx. bool_arith.
Qed.

Lemma arabic_letter_not_space x : arabic_letter x = true -> isspace x = false.
Proof.
  intros Hx; destruct (isspace x) eqn:Hs; [exfalso | reflexivity].
  unfold isspace in Hs.
  change (arabic_letter x) with
    (((x =? 1575) || ((x =? 1571) || ((x =? 1573) || ((x =? 1570) || false))))
     || ((1569 <=? x) && (x <=? 1610) || false))%N in Hx.
  bool_arith.
Qed.

Lemma lit_S_not_space x : lit_i 83%N x = true -> isspace x = false.
Proof.
  intros Hx; destruct (isspace x) eqn:Hs; [exfalso | reflexivity].
  unfold isspace in Hs.
  change (lit_i 83%N x) with
    ((x =? 115) || (x =? 115 - 32) || false && ((x =? 304) || (x =? 305))
     || false && (x =? 8490) || true && (x =? 383))%N in Hx.
  bool_arith.
Qed.

Lemma lit_alef_not_space x : lit_i 1575%N x = true -> isspace x = false.
Proof.
  intros Hx; destruct (isspace x) eqn:Hs; [exfalso | reflexivity].
  unfold isspace in Hs.
  change (lit_i 1575%N x) with (x =? 1575)%N in Hx.
  bool_arith.
Qed.

(** The label of a hit is never the empty string. *)
Lemma first_hit_label ln sp rest :
  first_hit SPEAKER_PATTERNS ln = Some (sp, rest) -> sp <> [].
Proof.
  unfold SPEAKER_PATTERNS; cbn [first_hit].
  set (P := fun x => isspace x = false).
  assert (Hit : forall label, groupless label -> starts_in P label ->
            forall rest_of_patterns : option (str * str),
            match re_match (label_pattern label) ln with
            | Some m =>
                match group m ln 1, group m ln 2 with
                | Some g1, Some g2 => Some (strip g1, strip g2)
                | _, _ => None
                end
            | None => rest_of_patterns
            end = Some (sp, rest) ->
            sp <> [] \/ rest_of_patterns = Some (sp, rest)).
  { intros label G St others H.
    destruct (re_match (label_pattern label) ln) as [m|] eqn:E; [left | right; exact H].
    destruct (label_pattern_match label ln m G St E) as (g1 & g2 & E1 & E2 & Ne).
    rewrite E1, E2 in H. injection H as <- _. exact Ne. }
  intros H.
  pose proof lit_S_not_space. pose proof lit_alef_not_space.
  pose proof alpha_i_not_space. pose proof arabic_letter_not_space.
  do 4 (apply Hit in H as [H|H]; [exact H | | cbn; tauto | cbn; assumption]).
  discriminate.
Qed.

Lemma speaker_step_refines st ln :
  speaker_ok st ->
  speaker_step st ln = attribute_line st ln /\ speaker_ok (speaker_step st ln).
Proof.
  destruct st as [cur groups]; unfold speaker_ok, speaker_step, attribute_line; cbn [fst].
  intros Hcur.
  destruct (first_hit SPEAKER_PATTERNS ln) as [[sp remainder]|] eqn:E; cbn [fst snd].
  - split; [reflexivity | eapply first_hit_label; eassumption].
  - destruct cur as [[|c sp]|]; [contradiction | |]; cbn [nonempty fst];
      split; auto.
Qed.

Lemma speaker_loop_refines lines : forall st,
  speaker_ok st ->
  fold_left speaker_step lines st = fold_left attribute_line lines st.
Proof.
  induction lines as [|ln lines IH]; intros st Hst; cbn [fold_left]; [reflexivity|].
  destruct (speaker_step_refines st ln Hst) as [E Ok']. rewrite <- E. apply IH, Ok'.
Qed.

(** C7. On the three example lines the attribution gives two groups:
    "Speaker 1" owns the first line and the unlabeled line after it,
    "Speaker 2" owns the third line only.  And in general the loop of
    [_group_by_speakers] follows the rule of the specification: a matching
    line sets the current speaker and contributes its remainder, a line that
    does not match goes to the current speaker if there is one and is
    dropped otherwise. *)
Theorem speaker_attribution :
  _group_by_speakers three_lines
    = [(u "Speaker 1", [u "hello there"; u "no label line"]); (u "Speaker 2", [u "hi"])]
  /\ fold_left speaker_step (map strip (splitlines three_lines)) (None, [])
    = (Some (u "Speaker 2"),
       [(u "Speaker 1", [u "hello there."; u "no label line."]); (u "Speaker 2", [u "hi."])])
  /\ forall lines,
      fold_left speaker_step lines (None, []) = fold_left attribute_line lines (None, []).
Proof.
  split; [vm_compute; reflexivity|].
  split; [vm_compute; reflexivity|].
  intros lines. apply speaker_loop_refines. exact I.
Qed.

(** ** The endpoint call and its one fallback *)

Lemma chat_attempt_log py_repr self prompt net log :
  snd (chat_attempt py_repr self prompt net log) = log ++ [chat_request self prompt].
Proof.
  unfold chat_attempt, bind, post, chat_request.
  destruct (net log _) as [r|e]; [|reflexivity].
  destruct (status_code r =? 404)%N; [reflexivity|]. cbn [ret].
  unfold raise_for_status.
  destruct ((400 <=? status_code r) && (status_code r <? 600))%N; [reflexivity|]. cbn [ret].
  unfold r_json. destruct (loads (body r)) as [data|]; [|reflexivity]. cbn [ret].
  destruct data; try reflexivity. cbn [py_get ret].
  destruct (or_ _ _); reflexivity.
Qed.

Lemma generate_attempt_log py_repr self prompt net log :
  snd (generate_attempt py_repr self prompt net log) = log ++ [generate_request self prompt].
Proof.
  unfold generate_attempt, bind, post, generate_request.
  destruct (net log _) as [r|e]; [|reflexivity].
  unfold raise_for_status.
  destruct ((400 <=? status_code r) && (status_code r <? 600))%N; [reflexivity|]. cbn [ret].
  unfold r_json. destruct (loads (body r)) as [data|]; [|reflexivity]. cbn [ret].
  destruct data; reflexivity.
Qed.

Lemma chat_attempt_404 py_repr self prompt net log r :
  net log (chat_request self prompt) = Responds r -> status_code r = 404%N ->
  fst (chat_attempt py_repr self prompt net log) = Raise (HTTPError 404).
Proof.
  intros Hr Hs. unfold chat_attempt, bind, post. fold (chat_request self prompt).
  rewrite Hr, Hs. reflexivity.
Qed.

Lemma ollama_call_after_failure py_repr self prompt net log e :
  fst (chat_attempt py_repr self prompt net log) = Raise e ->
  _ollama_call py_repr self prompt net log
  = generate_attempt py_repr self prompt net (log ++ [chat_request self prompt]).
Proof.
  intros H. unfold _ollama_call, try_except.
  pose proof (chat_attempt_log py_repr self prompt net log) as L.
  destruct (chat_attempt py_repr self prompt net log) as [[a|e'] log']; cbn [fst snd] in *.
  - discriminate.
  - rewrite L. reflexivity.
Qed.

(** C4, as the code has it.  When the POST to [/api/chat] answers 404, or
    the chat attempt fails in any other way, exactly one POST to
    [/api/generate] of the same base URL follows and nothing more is sent;
    an exception of the transport on that POST, or an error status (400 to
    599) of its response, is what the caller gets. *)
Theorem ollama_call_single_fallback py_repr self prompt net log :
  (exists r, net log (chat_request self prompt) = Responds r /\ status_code r = 404%N)
  \/ (exists e, fst (chat_attempt py_repr self prompt net log) = Raise e) ->
  let after := log ++ [chat_request self prompt] in
  let out := _ollama_call py_repr self prompt net log in
  snd out = log ++ [chat_request self prompt; generate_request self prompt]
  /\ (forall e, net after (generate_request self prompt) = Fails e -> fst out = Raise e)
  /\ (forall r, net after (generate_request self prompt) = Responds r ->
        (400 <= status_code r < 600)%N -> fst out = Raise (HTTPError (status_code r))).
Proof.
  intros H after out.
  assert (F : exists e, fst (chat_attempt py_repr self prompt net log) = Raise e).
  { destruct H as [(r & Hr & Hs)|H]; [|exact H].
    exists (HTTPError 404). eapply chat_attempt_404; eassumption. }
  destruct F as [e F].
  pose proof (ollama_call_after_failure _ _ _ _ _ _ F) as E.
  subst out after. rewrite E. split; [|split].
  - rewrite generate_attempt_log, <- app_assoc. reflexivity.
  - intros e' He. unfold generate_attempt, bind, post.
    fold (generate_request self prompt). rewrite He. reflexivity.
  - intros r Hr Hs. unfold generate_attempt, bind, post.
    fold (generate_request self prompt). rewrite Hr. unfold raise_for_status.
    replace ((400 <=? status_code r) && (status_code r <? 600))%N with true; [reflexivity|].
    symmetry; apply andb_true_iff; split; [apply N.leb_le | apply N.ltb_lt]; lia.
Qed.

Lemma ollama_call_single_fallback_witness :
  let self := local_ollama in
  let net : network := fun _ _ => Fails (RequestException (u "connection refused")) in
  let out := _ollama_call no_repr self (u "p") net [] in
  snd out = [chat_request self (u "p"); generate_request self (u "p")]
  /\ fst out = Raise (RequestException (u "connection refused")).
Proof.
  intros self net out.
  destruct (ollama_call_single_fallback no_repr self (u "p") net [])
    as (L & T & _).
  - right. exists (RequestException (u "connection refused")). reflexivity.
  - split; [exact L | apply T; reflexivity].
Defined.

(** C4 as stated fails for a status outside 200-299 that is no error
    status: after a 404 on the chat route, the fallback answers 302 with a
    body that holds a response, and the call returns that response. *)
Lemma non_2xx_fallback_returns :
  exists r,
    moved [chat_request local_ollama (u "p")] (generate_request local_ollama (u "p")) = Responds r
    /\ ~ (200 <= status_code r < 300)%N
    /\ _ollama_call no_repr local_ollama (u "p") moved []
       = (Ok (u "ok"), [chat_request local_ollama (u "p"); generate_request local_ollama (u "p")]).
Proof.
  eexists; split; [reflexivity | split].
  - cbn [status_code]. lia.
  - vm_compute. reflexivity.
Qed.

(** ** Stripped strings *)

Lemma lstrip_by_snoc p l x :
  p x = false -> lstrip_by p (l ++ [x]) = lstrip_by p l ++ [x].
Proof.
  intros Hx; induction l as [|y l IH]; cbn [app lstrip_by].
  - rewrite Hx; reflexivity.
  - destruct (p y); [exact IH | reflexivity].
Qed.

Lemma lstrip_by_head p s :
  match lstrip_by p s with [] => True | x :: _ => p x = false end.
Proof.
  induction s as [|c s IH]; cbn [lstrip_by]; [exact I|].
  destruct (p c) eqn:E; [exact IH | exact E].
Qed.

Lemma rstrip_by_cons p x t :
  p x = false -> rstrip_by p (x :: t) = x :: rev (lstrip_by p (rev t)).
Proof.
  intros Hx. unfold rstrip_by. rewrite !reversed_rev. cbn [rev].
  rewrite lstrip_by_snoc by exact Hx. rewrite rev_app_distr. reflexivity.
Qed.

Lemma strip_by_trimmed p s : trimmed p (strip_by p s).
Proof.
  unfold trimmed, strip_by.
  pose proof (lstrip_by_head p s) as H.
  destruct (lstrip_by p s) as [|x t]; [left; reflexivity | right].
  rewrite rstrip_by_cons by exact H.
  exists x. pose proof (lstrip_by_head p (rev t)) as H'.
  destruct (lstrip_by p (rev t)) as [|y w]; cbn [rev].
  - exists [], [], x. repeat split; auto.
  - exists (rev w ++ [y]), (x :: rev w), y. repeat split; auto.
Qed.

Lemma trimmed_fixed p s : trimmed p s -> strip_by p s = s.
Proof.
  intros [->|(x & t & l & y & -> & E & Hx & Hy)]; [reflexivity|].
  unfold strip_by. cbn [lstrip_by]. rewrite Hx.
  unfold rstrip_by. rewrite !reversed_rev, E, rev_app_distr. cbn [rev app lstrip_by].
  rewrite Hy. cbn [rev]. rewrite rev_involutive. reflexivity.
Qed.

Lemma strip_idempotent s : strip (strip s) = strip s.
Proof. apply trimmed_fixed, strip_by_trimmed. Qed.

Lemma strip_nonempty_head s :
  strip s <> [] -> exists x t, strip s = x :: t /\ isspace x = false.
Proof.
  intros Ne. destruct (strip_by_trimmed isspace s) as [E|(x & t & _ & _ & E & _ & Hx & _)].
  - contradiction.
  - exists x, t; split; assumption.
Qed.

Lemma fallback_summary_strip text : _fallback_summary (strip text) = _fallback_summary text.
Proof. unfold _fallback_summary. rewrite strip_idempotent. reflexivity. Qed.

(** ** Chunking *)

Lemma chunk_text_raw text chunk_size max_chunks :
  _chunk_text text chunk_size max_chunks
  = filter nonempty
      (raw_parts chunk_size max_chunks (re_split_keep chunk_sep_re text) ([], [], 0%N)).
Proof.
  unfold _chunk_text, raw_parts, finish.
  destruct (chunk_loop _ _ _ _) as [[parts buf] size]. cbn [fst].
  destruct (if (len parts <? max_chunks)%N then _ else _) as [[parts' buf'] size']. reflexivity.
Qed.

Lemma len_app (A : Type) (l l' : list A) : len (l ++ l') = (len l + len l')%N.
Proof. unfold len. rewrite length_app. lia. Qed.

Lemma len_cons (A : Type) (x : A) l : len (x :: l) = (len l + 1)%N.
Proof. unfold len. cbn [length]. lia. Qed.

Lemma len_nil (A : Type) : len (@nil A) = 0%N.
Proof. reflexivity. Qed.

Lemma len_strip s : (len (strip s) <= len s)%N.
Proof. unfold len. pose proof (strip_length s). lia. Qed.

Lemma flush_parts parts buf size :
  exists new, fst (fst (flush (parts, buf, size))) = parts ++ new /\ (len new <= 1)%N
              /\ snd (fst (flush (parts, buf, size))) = []
              /\ (buf = [] \/ new <> []).
Proof.
  unfold flush. destruct buf as [|t buf].
  - exists []. cbn [fst snd]. rewrite app_nil_r.
    split; [reflexivity | split; [rewrite len_nil; lia | split; [reflexivity | left; reflexivity]]].
  - exists [strip (join (u " ") (t :: buf))]. cbn [fst snd].
    split; [reflexivity | split; [unfold len; cbn [length]; lia | split; [reflexivity | right; discriminate]]].
Qed.

(** The loop only adds parts. *)
Lemma chunk_loop_extends cs mc tokens : forall st,
  exists more, fst (fst (chunk_loop cs mc tokens st)) = fst (fst st) ++ more.
Proof.
  induction tokens as [|token rest IH]; intros [[parts buf] size]; cbn [chunk_loop].
  - exists []. rewrite app_nil_r. reflexivity.
  - destruct (negb (nonempty token)); [apply (IH (parts, buf, size))|].
    destruct (negb (nonempty (strip token))); [apply (IH (parts, buf, size))|].
    destruct (cs <? size + len (strip token) + 1)%N.
    + destruct (flush_parts parts buf size) as (new & E & _).
      destruct (flush (parts, buf, size)) as [[parts' buf'] size']. cbn [fst] in E.
      destruct (mc <=? len parts')%N.
      * exists new. exact E.
      * destruct (IH (parts', buf' ++ [strip token], (size' + len (strip token) + 1)%N))
          as [more M]. cbn [fst] in M. exists (new ++ more).
        rewrite M, E, app_assoc. reflexivity.
    + apply (IH (parts, buf ++ [strip token], (size + len (strip token) + 1)%N)).
Qed.

Lemma raw_parts_extends cs mc tokens st :
  exists more, raw_parts cs mc tokens st = fst (fst st) ++ more.
Proof.
  unfold raw_parts, finish.
  destruct (chunk_loop_extends cs mc tokens st) as [more M].
  destruct (chunk_loop cs mc tokens st) as [[parts buf] size]. cbn [fst] in *.
  destruct (len parts <? mc)%N.
  - destruct (flush_parts parts buf size) as (new & E & _).
    exists (more ++ new). rewrite E, M, app_assoc. reflexivity.
  - exists more. exact M.
Qed.

(** At most [max_chunks] parts. *)
Lemma chunk_loop_count cs mc tokens : forall st,
  (len (fst (fst st)) < mc)%N -> (len (fst (fst (chunk_loop cs mc tokens st))) <= mc)%N.
Proof.
  induction tokens as [|token rest IH]; intros [[parts buf] size] H; cbn [chunk_loop fst] in *.
  - lia.
  - destruct (negb (nonempty token)); [apply (IH (parts, buf, size)); exact H|].
    destruct (negb (nonempty (strip token))); [apply (IH (parts, buf, size)); exact H|].
    destruct (cs <? size + len (strip token) + 1)%N.
    + destruct (flush_parts parts buf size) as (new & E & L & _).
      destruct (flush (parts, buf, size)) as [[parts' buf'] size']. cbn [fst] in E.
      destruct (N.leb_spec mc (len parts')); cbn [fst].
      * subst parts'. rewrite len_app. lia.
      * apply (IH (parts', buf' ++ [strip token], (size' + len (strip token) + 1)%N)).
        assumption.
    + apply (IH (parts, buf ++ [strip token], (size + len (strip token) + 1)%N)). exact H.
Qed.

Lemma raw_parts_count cs mc tokens st :
  (len (fst (fst st)) < mc)%N -> (len (raw_parts cs mc tokens st) <= mc)%N.
Proof.
  intros H. unfold raw_parts, finish.
  pose proof (chunk_loop_count cs mc tokens st H) as C.
  destruct (chunk_loop cs mc tokens st) as [[parts buf] size]. cbn [fst] in *.
  destruct (N.ltb_spec (len parts) mc); [|exact C].
  destruct (flush_parts parts buf size) as (new & E & L & _).
  rewrite E, len_app. lia.
Qed.

Lemma len_filter (A : Type) (f : A -> bool) l : (len (filter f l) <= len l)%N.
Proof.
  unfold len. pose proof (filter_length_le f l). lia.
Qed.

(** The cap on the number of chunks. *)
Lemma chunk_text_count text cs mc :
  (0 < mc)%N -> (len (_chunk_text text cs mc) <= mc)%N.
Proof.
  intros H. rewrite chunk_text_raw.
  etransitivity; [apply len_filter|]. apply raw_parts_count. exact H.
Qed.

Lemma firstn_exact (A : Type) (l more : list A) (n : N) :
  len l = n -> firstn (N.to_nat n) (l ++ more) = l.
Proof.
  intros <-. unfold len. rewrite Nat2N.id, firstn_app, Nat.sub_diag, firstn_all.
  cbn [firstn]. apply app_nil_r.
Qed.

Lemma firstn_short (A : Type) (l : list A) (n : N) :
  (len l <= n)%N -> firstn (N.to_nat n) l = l.
Proof. intros H. apply firstn_all2. unfold len in H. lia. Qed.

(** A lower cap keeps the first parts of what a higher cap gives. *)
Lemma raw_parts_cap cs m M tokens : (m <= M)%N -> forall st,
  (len (fst (fst st)) < m)%N ->
  raw_parts cs m tokens st = firstn (N.to_nat m) (raw_parts cs M tokens st).
Proof.
  intros HmM. induction tokens as [|token rest IH]; intros [[parts buf] size] H;
    cbn [fst] in H.
  - unfold raw_parts, finish. cbn [chunk_loop fst].
    destruct (N.ltb_spec (len parts) m); [|lia].
    destruct (N.ltb_spec (len parts) M); [|lia].
    destruct (flush_parts parts buf size) as (new & E & L & _).
    rewrite E. symmetry. apply firstn_short. rewrite len_app. lia.
  - unfold raw_parts in *. cbn [chunk_loop].
    destruct (negb (nonempty token)); [apply (IH (parts, buf, size)); exact H|].
    destruct (negb (nonempty (strip token))); [apply (IH (parts, buf, size)); exact H|].
    destruct (cs <? size + len (strip token) + 1)%N.
    + destruct (flush_parts parts buf size) as (new & E & L & _).
      destruct (flush (parts, buf, size)) as [[parts' buf'] size']. cbn [fst] in E.
      assert (L' : (len parts' <= len parts + 1)%N) by (subst parts'; rewrite len_app; lia).
      destruct (N.leb_spec m (len parts')) as [Hm|Hm].
      * assert (Em : len parts' = m) by lia.
        assert (F : finish m (parts', buf', size') = parts').
        { unfold finish; cbn [fst]. destruct (N.ltb_spec (len parts') m); [lia | reflexivity]. }
        rewrite F.
        destruct (N.leb_spec M (len parts')) as [HM|HM].
        -- assert (F' : finish M (parts', buf', size') = parts').
           { unfold finish; cbn [fst]. destruct (N.ltb_spec (len parts') M); [lia | reflexivity]. }
           rewrite F'. symmetry. apply firstn_short. lia.
        -- destruct (raw_parts_extends cs M rest
                       (parts', buf' ++ [strip token], (size' + len (strip token) + 1)%N))
             as [more X].
           unfold raw_parts in X. rewrite X. cbn [fst]. symmetry. apply firstn_exact, Em.
      * destruct (N.leb_spec M (len parts')) as [HM|HM]; [lia|].
        apply (IH (parts', buf' ++ [strip token], (size' + len (strip token) + 1)%N)).
        exact Hm.
    + apply (IH (parts, buf ++ [strip token], (size + len (strip token) + 1)%N)). exact H.
Qed.

(** Every part is a non-empty string, so the final filter removes
    nothing. *)
Lemma join_starts sep t buf : starts_nonspace t -> starts_nonspace (join sep (t :: buf)).
Proof.
  intros (x & t' & -> & Hx). destruct buf as [|t2 buf]; cbn [join].
  - exists x, t'; auto.
  - exists x, (t' ++ sep ++ join sep (t2 :: buf)); auto.
Qed.

Lemma strip_starts s : starts_nonspace s -> strip s <> [].
Proof. intros (x & t & -> & Hx). apply strip_head, Hx. Qed.

Lemma flush_nonempty parts buf size :
  Forall starts_nonspace buf -> Forall (fun p : str => p <> []) parts ->
  Forall (fun p : str => p <> []) (fst (fst (flush (parts, buf, size)))).
Proof.
  intros Hb Hp. unfold flush. destruct buf as [|t buf]; cbn [fst]; [exact Hp|].
  apply Forall_app; split; [exact Hp|]. constructor; [|constructor].
  apply strip_starts, join_starts. inversion Hb; assumption.
Qed.

Lemma token_starts token :
  negb (nonempty (strip token)) = false -> starts_nonspace (strip token).
Proof.
  intros H. destruct (strip token) eqn:E; [discriminate|].
  destruct (strip_nonempty_head token) as (x & t & E' & Hx).
  - rewrite E; discriminate.
  - exists x, t. split; [congruence | exact Hx].
Qed.

Lemma chunk_loop_nonempty cs mc tokens : forall st,
  Forall starts_nonspace (snd (fst st)) -> Forall (fun p : str => p <> []) (fst (fst st)) ->
  let st' := chunk_loop cs mc tokens st in
  Forall starts_nonspace (snd (fst st')) /\ Forall (fun p : str => p <> []) (fst (fst st')).
Proof.
  induction tokens as [|token rest IH]; intros [[parts buf] size] Hb Hp;
    cbn [fst snd] in Hb, Hp; cbn [chunk_loop].
  - split; assumption.
  - destruct (negb (nonempty token)); [apply (IH (parts, buf, size)); assumption|].
    destruct (negb (nonempty (strip token))) eqn:Ht;
      [apply (IH (parts, buf, size)); assumption|].
    apply token_starts in Ht.
    destruct (cs <? size + len (strip token) + 1)%N.
    + pose proof (flush_nonempty parts buf size Hb Hp) as Fp.
      destruct (flush (parts, buf, size)) as [[parts' buf'] size'] eqn:Ef.
      assert (Eb : buf' = []) by (unfold flush in Ef; destruct buf; congruence).
      cbn [fst snd] in *. subst buf'.
      destruct (mc <=? len parts')%N.
      * cbn [fst snd]. split; [constructor | exact Fp].
      * apply (IH (parts', [] ++ [strip token], (size' + len (strip token) + 1)%N));
          cbn [fst snd app]; [constructor; [exact Ht | constructor] | exact Fp].
    + apply (IH (parts, buf ++ [strip token], (size + len (strip token) + 1)%N));
        cbn [fst snd]; [|exact Hp].
      apply Forall_app; split; [exact Hb | constructor; [exact Ht | constructor]].
Qed.

Lemma finish_nonempty mc st :
  Forall starts_nonspace (snd (fst st)) -> Forall (fun p : str => p <> []) (fst (fst st)) ->
  Forall (fun p : str => p <> []) (finish mc st).
Proof.
  destruct st as [[parts buf] size]; unfold finish; cbn [fst snd]; intros Hb Hp.
  destruct (len parts <? mc)%N; [|exact Hp].
  apply flush_nonempty; assumption.
Qed.

Lemma raw_parts_nonempty cs mc tokens :
  Forall (fun p : str => p <> []) (raw_parts cs mc tokens ([], [], 0%N)).
Proof.
  unfold raw_parts.
  apply finish_nonempty; apply chunk_loop_nonempty; constructor.
Qed.

Lemma filter_nonempty_id parts :
  Forall (fun p : str => p <> []) parts -> filter nonempty parts = parts.
Proof.
  induction 1 as [|p parts Hp _ IH]; cbn [filter]; [reflexivity|].
  destruct p; [contradiction|]. cbn [nonempty]. rewrite IH. reflexivity.
Qed.

Lemma chunk_text_parts text cs mc :
  _chunk_text text cs mc = raw_parts cs mc (re_split_keep chunk_sep_re text) ([], [], 0%N).
Proof. rewrite chunk_text_raw. apply filter_nonempty_id, raw_parts_nonempty. Qed.

(** The chunks under a cap are the first chunks under any higher cap. *)
Lemma chunk_text_cap text cs m M :
  (0 < m)%N -> (m <= M)%N ->
  _chunk_text text cs m = firstn (N.to_nat m) (_chunk_text text cs M).
Proof.
  intros H0 H. rewrite !chunk_text_parts. apply raw_parts_cap; assumption.
Qed.

(** The size of the chunks when the tokens are short. *)
Lemma sum_sizes_app buf t : sum_sizes (buf ++ [t]) = (sum_sizes buf + len t + 1)%N.
Proof.
  induction buf as [|t' buf IH]; cbn [app sum_sizes]; [lia|]. rewrite IH. lia.
Qed.

Lemma len_join_space t buf :
  (len (join [32%N] (t :: buf)) + 1 = sum_sizes (t :: buf))%N.
Proof.
  revert t; induction buf as [|t' buf IH]; intros t.
  - cbn [join sum_sizes]. lia.
  - change (join [32%N] (t :: t' :: buf)) with (t ++ [32%N] ++ join [32%N] (t' :: buf)).
    rewrite !len_app. specialize (IH t'). cbn [sum_sizes] in *.
    change (len [32%N]) with 1%N. lia.
Qed.

Lemma flush_bounded cs st : bounded cs st -> bounded cs (flush st).
Proof.
  destruct st as [[parts buf] size]. intros (Hs & Hb & Hp).
  unfold flush. destruct buf as [|t buf]; [repeat split; assumption|].
  cbn [bounded]. split; [reflexivity | split; [left; reflexivity|]].
  apply Forall_app; split; [exact Hp|]. constructor; [|constructor].
  destruct Hb as [Hb|Hb]; [discriminate|].
  pose proof (len_strip (join (u " ") (t :: buf))) as L.
  pose proof (len_join_space t buf) as J.
  change (u " ") with [32%N] in L. change (u " ") with [32%N]. lia.
Qed.

Lemma chunk_loop_bounded cs mc tokens :
  Forall (fun token => (len (strip token) < cs)%N) tokens ->
  forall st, bounded cs st -> bounded cs (chunk_loop cs mc tokens st).
Proof.
  induction 1 as [|token rest Ht _ IH]; intros [[parts buf] size] B; cbn [chunk_loop].
  - exact B.
  - destruct (negb (nonempty token)); [apply IH; exact B|].
    destruct (negb (nonempty (strip token))); [apply IH; exact B|].
    destruct (N.ltb_spec cs (size + len (strip token) + 1)) as [Hover|Hfit].
    + pose proof (flush_bounded cs _ B) as B'.
      destruct (flush (parts, buf, size)) as [[parts' buf'] size'] eqn:Ef.
      assert (Eb : buf' = [] /\ size' = 0%N).
      { unfold flush in Ef. destruct B as (Hs & _). destruct buf.
        - cbn [sum_sizes] in Hs. split; congruence.
        - split; congruence. }
      destruct Eb as [-> ->].
      destruct (mc <=? len parts')%N; [exact B'|].
      apply IH. destruct B' as (_ & _ & Hp).
      cbn [bounded app sum_sizes]. split; [lia | split; [right; lia | exact Hp]].
    + apply IH. destruct B as (Hs & Hb & Hp).
      cbn [bounded]. rewrite sum_sizes_app.
      split; [lia | split; [right; lia | exact Hp]].
Qed.

Lemma finish_bounded cs mc st :
  bounded cs st -> Forall (fun p : str => (len p <= cs)%N) (finish mc st).
Proof.
  intros B. unfold finish.
  pose proof (flush_bounded cs st B) as B'.
  destruct st as [[parts buf] size]. cbn [fst].
  destruct (len parts <? mc)%N.
  - destruct (flush (parts, buf, size)) as [[parts' buf'] size']. apply B'.
  - apply B.
Qed.

Lemma chunk_text_bounded text cs mc :
  short_tokens cs text -> Forall (fun c : str => (len c <= cs)%N) (_chunk_text text cs mc).
Proof.
  intros H. rewrite chunk_text_parts. unfold raw_parts.
  apply finish_bounded, chunk_loop_bounded; [exact H|].
  cbn [bounded sum_sizes]. split; [reflexivity | split; [left; reflexivity | constructor]].
Qed.

(** ** The chunking decision of [summarize_structured] *)

Lemma nonempty_len (s : str) : (0 < len s)%N -> nonempty s = true.
Proof. destruct s; [unfold len; cbn; lia | reflexivity]. Qed.

Lemma summarize_structured_short lower py_repr self title language text :
  strip text <> [] -> (len (strip text) <= 12000)%N ->
  summarize_structured lower py_repr self text title language
  = _summarize_structured_once lower py_repr self (strip text) language title.
Proof.
  intros Ne Le. unfold summarize_structured.
  destruct (strip text) as [|c T] eqn:E; [contradiction|].
  cbn [nonempty negb].
  destruct (N.ltb_spec 12000 (len (c :: T))); [lia | reflexivity].
Qed.

Lemma summarize_structured_long lower py_repr self title language text :
  (12000 < len (strip text))%N ->
  summarize_structured lower py_repr self text title language
  = bind (summarize_chunks lower py_repr self (_chunk_text (strip text) 6000 6) 1%N language title)
         (fun chunk_summaries =>
            _summarize_structured_once lower py_repr self
              (join [10%N; 10%N] chunk_summaries) language title).
Proof.
  intros Lt. unfold summarize_structured.
  rewrite nonempty_len by lia. cbn [negb].
  destruct (N.ltb_spec 12000 (len (strip text))); [reflexivity | lia].
Qed.

Lemma short_tokens_check cs text :
  forallb (fun token => (len (strip token) <? cs)%N) (re_split_keep chunk_sep_re text) = true ->
  short_tokens cs text.
Proof.
  intros H. unfold short_tokens. apply Forall_forall. intros token Hin.
  rewrite forallb_forall in H. apply N.ltb_lt, H, Hin.
Qed.

(** C3, as the code has it.  A transcript that is at most 12,000
    characters long once stripped goes to the model in one piece.  A longer
    one is cut by [_chunk_text] into at most 6 chunks, which are summarized
    one by one before the final call; each chunk has at most 6,000
    characters when no token between two sentence marks or line breaks
    reaches that length. *)
Theorem summarize_structured_chunking lower py_repr self title language text :
  (strip text <> [] -> (len (strip text) <= 12000)%N ->
     summarize_structured lower py_repr self text title language
     = _summarize_structured_once lower py_repr self (strip text) language title)
  /\ ((12000 < len (strip text))%N ->
      let chunks := _chunk_text (strip text) 6000 6 in
      summarize_structured lower py_repr self text title language
      = bind (summarize_chunks lower py_repr self chunks 1%N language title)
             (fun chunk_summaries =>
                _summarize_structured_once lower py_repr self
                  (join [10%N; 10%N] chunk_summaries) language title)
      /\ (len chunks <= 6)%N
      /\ (short_tokens 6000 (strip text) -> Forall (fun c : str => (len c <= 6000)%N) chunks)).
Proof.
  split.
  - apply summarize_structured_short.
  - intros Lt chunks. split; [apply summarize_structured_long, Lt | split].
    + apply chunk_text_count. lia.
    + apply chunk_text_bounded.
Qed.

Lemma summarize_structured_chunking_witness :
  (summarize_structured ascii_lower no_repr local_ollama (u " hi. ") (u "t") (u "en")
   = _summarize_structured_once ascii_lower no_repr local_ollama (u "hi.") (u "en") (u "t"))
  /\ (let chunks := _chunk_text (strip (hello_world 1000)) 6000 6 in
      (len chunks <= 6)%N /\ Forall (fun c : str => (len c <= 6000)%N) chunks).
Proof.
  split.
  - apply (proj1 (summarize_structured_chunking ascii_lower no_repr local_ollama
                    (u "t") (u "en") (u " hi. "))).
    + vm_compute. discriminate.
    + vm_compute. discriminate.
  - destruct (proj2 (summarize_structured_chunking ascii_lower no_repr local_ollama
                       (u "t") (u "en") (hello_world 1000))) as (_ & C & B).
    + vm_compute. reflexivity.
    + split; [exact C | apply B].
      apply short_tokens_check. vm_compute. reflexivity.
Defined.

(** The threshold is on the stripped transcript, whatever the runtime and
    the configuration: 12,000 letters and a final space are 12,001
    characters, and go to the model in one piece. *)
Lemma padded_transcript_not_split lower py_repr self title language :
  summarize_structured lower py_repr self padded_word title language
  = _summarize_structured_once lower py_repr self (strip padded_word) language title.
Proof. apply summarize_structured_short; vm_compute; discriminate. Qed.

(** C3 as stated fails on two transcripts.  The first has 12,001
    characters, the last one a space, and is not split.  The second has
    13,000 letters and no sentence mark or line break: it is one chunk of
    13,000 characters. *)
Lemma transcripts_not_chunked_as_claimed :
  ((12000 < len padded_word)%N
   /\ summarize_structured ascii_lower no_repr local_ollama padded_word (u "t") (u "en")
      = _summarize_structured_once ascii_lower no_repr local_ollama (strip padded_word)
          (u "en") (u "t"))
  /\ ((12000 < len (strip long_word))%N
      /\ _chunk_text (strip long_word) 6000 6 = [long_word]
      /\ (6000 < len long_word)%N).
Proof.
  split.
  - split; [vm_compute; reflexivity | apply padded_transcript_not_split].
  - vm_compute. repeat split; reflexivity.
Qed.

(** ** What lies beyond the sixth chunk *)

Lemma summarize_structured_by_chunks lower py_repr self title language text text' :
  (12000 < len (strip text))%N -> (12000 < len (strip text'))%N ->
  _chunk_text (strip text) 6000 6 = _chunk_text (strip text') 6000 6 ->
  summarize_structured lower py_repr self text title language
  = summarize_structured lower py_repr self text' title language.
Proof.
  intros L L' E. rewrite !summarize_structured_long by assumption. rewrite E. reflexivity.
Qed.

Lemma len_firstn_exact (A : Type) (l : list A) (n : N) :
  (n <= len l)%N -> len (firstn (N.to_nat n) l) = n.
Proof.
  intros H. unfold len in *. rewrite length_firstn. lia.
Qed.

(** C10. When chunking without the cap of six would give more than six
    chunks, [_chunk_text] returns exactly six, the first six; what comes
    after them in the transcript is dropped: a transcript that differs
    only there gets the same requests and the same summary. *)
Theorem chunks_beyond_sixth_discarded lower py_repr self title language text text' M M' :
  (6 <= M)%N -> (6 <= M')%N ->
  (12000 < len (strip text))%N -> (12000 < len (strip text'))%N ->
  (6 < len (_chunk_text (strip text) 6000 M))%N ->
  firstn 6 (_chunk_text (strip text) 6000 M) = firstn 6 (_chunk_text (strip text') 6000 M') ->
  len (_chunk_text (strip text) 6000 6) = 6%N
  /\ _chunk_text (strip text) 6000 6 = firstn 6 (_chunk_text (strip text) 6000 M)
  /\ summarize_structured lower py_repr self text title language
     = summarize_structured lower py_repr self text' title language.
Proof.
  intros HM HM' L L' More Same.
  assert (C : _chunk_text (strip text) 6000 6 = firstn 6 (_chunk_text (strip text) 6000 M)).
  { apply (chunk_text_cap (strip text) 6000 6 M); lia. }
  assert (C' : _chunk_text (strip text') 6000 6 = firstn 6 (_chunk_text (strip text') 6000 M')).
  { apply (chunk_text_cap (strip text') 6000 6 M'); lia. }
  split; [|split].
  - rewrite C. apply (len_firstn_exact _ _ 6%N). lia.
  - exact C.
  - apply summarize_structured_by_chunks; try assumption.
    rewrite C, C'. exact Same.
Qed.

Lemma chunks_beyond_sixth_discarded_witness :
  let text := hello_world 3000 in
  let text' := hello_world 3000 ++ u "One more sentence." in
  len (_chunk_text (strip text) 6000 6) = 6%N
  /\ _chunk_text (strip text) 6000 6 = firstn 6 (_chunk_text (strip text) 6000 100)
  /\ summarize_structured ascii_lower no_repr local_ollama text (u "t") (u "en")
     = summarize_structured ascii_lower no_repr local_ollama text' (u "t") (u "en").
Proof.
  intros text text'.
  apply (chunks_beyond_sixth_discarded ascii_lower no_repr local_ollama (u "t") (u "en")
           text text' 100%N 100%N).
  - vm_compute. discriminate.
  - vm_compute. discriminate.
  - vm_compute. reflexivity.
  - vm_compute. reflexivity.
  - vm_compute. reflexivity.
  - vm_compute. reflexivity.
Defined.

(** ** Parsing a response *)

(** C6. [_parse_json] first parses the whole stripped response; only when
    that fails does it look for a text between braces and parse that.  The
    response of the example does not parse as a whole; between its first
    opening and its last closing brace it does, and the structured result
    has the summary "x" and the one topic "a". *)
Theorem parse_json_direct_then_braces :
  (forall s,
     _parse_json s =
     match s with
     | [] => None
     | _ =>
         match loads (strip s) with
         | Some v => Some v
         | None =>
             match re_search brace_re (strip s) with
             | Some m => loads (strip (group0 m (strip s)))
             | None => None
             end
         end
     end)
  /\ loads (strip json_after_text) = None
  /\ (exists m, re_search brace_re (strip json_after_text) = Some m
        /\ group0 m (strip json_after_text)
           = u "{" ++ quoted (u "summary") ++ u ":" ++ quoted (u "x") ++ u ","
               ++ quoted (u "topics") ++ u ":[" ++ quoted (u "a") ++ u "]}")
  /\ _parse_json json_after_text
     = Some (JObj [(u "summary", JStr (u "x")); (u "topics", JArr [JStr (u "a")])])
  /\ (forall lower py_repr text language title log,
        _summarize_structured_once lower py_repr local_ollama text language title
          (answering json_after_text) log
        = (Ok (MkSummaryResult (u "x") [u "a"] [] [] []),
           log ++ [chat_request local_ollama (_prompt_structured lower text language title false)])).
Proof.
  split; [|split; [|split; [|split]]].
  - intros s. unfold _parse_json. destruct s as [|c s]; [reflexivity|].
    destruct (loads (strip (c :: s))); [reflexivity|].
    destruct (re_search brace_re (strip (c :: s))); [|reflexivity].
    destruct (loads _); reflexivity.
  - vm_compute. reflexivity.
  - eexists. split; vm_compute; reflexivity.
  - vm_compute. reflexivity.
  - intros. reflexivity.
Qed.

(** * Further properties of the code *)

(** ** Scanning with a repeated class *)

Lemma rep_all (R : Type) (g : nat -> R) p s : forall lo prev i,
  rep p lo None prev s i (fun _ _ i' => Some (g i'))
  = if lo <=? prefix_len p s then Some (g (i + prefix_len p s)) else None.
Proof.
  induction s as [|x s IH]; intros lo prev i; cbn [rep prefix_len].
  - rewrite Nat.add_0_r. destruct lo; reflexivity.
  - destruct (p x).
    + cbn [option_map]. rewrite IH.
      destruct (Nat.leb_spec (pred lo) (prefix_len p s)) as [L|L].
      * replace (lo <=? S (prefix_len p s)) with true
          by (symmetry; apply Nat.leb_le; lia).
        rewrite Nat.add_succ_r. reflexivity.
      * replace (lo <=? S (prefix_len p s)) with false
          by (symmetry; apply Nat.leb_gt; lia).
        destruct lo as [|lo]; [cbn in L; lia | reflexivity].
    + rewrite Nat.add_0_r. destruct lo; reflexivity.
Qed.

Lemma match_len_plus p prev s :
  match_len (Re.plus p) prev s
  = if 1 <=? prefix_len p s then Some (prefix_len p s) else None.
Proof.
  unfold match_len, Re.plus. cbn [mt].
  rewrite (rep_all _ (fun i' => (i', @nil (nat * (nat * nat))))).
  destruct (1 <=? prefix_len p s); reflexivity.
Qed.

Lemma prefix_len_firstn p s : forallb p (firstn (prefix_len p s) s) = true.
Proof.
  induction s as [|c s IH]; cbn [prefix_len]; [reflexivity|].
  destruct (p c) eqn:E; [|reflexivity]. cbn [firstn forallb]. rewrite E. exact IH.
Qed.

Lemma Forall_reversed (Q : N -> Prop) (s : str) : Forall Q s -> Forall Q (reversed s).
Proof. rewrite reversed_rev. apply Forall_rev. Qed.

(** The gaps of a scan hold only characters at which no match began. *)
Lemma scan_gaps (Q : N -> Prop) r :
  (forall prev x s,
     (forall n, match_len r prev (x :: s) <> Some (S n)) -> Q x) ->
  forall s prev skip gap, Forall Q gap ->
  Forall (fun gh => Forall Q (fst gh)) (fst (scan r prev s skip gap))
  /\ Forall Q (snd (scan r prev s skip gap)).
Proof.
  intros HQ. induction s as [|x s IH]; intros prev skip gap Hgap; cbn [scan].
  - split; [constructor | apply Forall_reversed, Hgap].
  - destruct skip as [|k]; [|apply IH, Hgap].
    destruct (match_len r prev (x :: s)) as [[|n]|] eqn:E.
    + apply IH. constructor; [|exact Hgap]. apply (HQ prev x s). intros n; congruence.
    + destruct (IH (Some x) n [] (Forall_nil _)) as [H1 H2].
      destruct (scan r (Some x) s n []) as [hits last]. cbn [fst snd] in *.
      split; [|exact H2]. constructor; [|exact H1]. apply Forall_reversed, Hgap.
    + apply IH. constructor; [|exact Hgap]. apply (HQ prev x s). intros n; congruence.
Qed.

(** The hits of a scan are the matches. *)
Lemma scan_hits (H : str -> Prop) r :
  (forall prev s n, match_len r prev s = Some (S n) -> H (firstn (S n) s)) ->
  forall s prev skip gap, Forall (fun gh => H (snd gh)) (fst (scan r prev s skip gap)).
Proof.
  intros HH. induction s as [|x s IH]; intros prev skip gap; cbn [scan].
  - constructor.
  - destruct skip as [|k]; [|apply IH].
    destruct (match_len r prev (x :: s)) as [[|n]|] eqn:E; try apply IH.
    specialize (IH (Some x) n []).
    destruct (scan r (Some x) s n []) as [hits last]. cbn [fst snd] in *.
    constructor; [|exact IH]. apply (HH prev (x :: s) n E).
Qed.

Lemma plus_gap_chars p prev x s :
  (forall n, match_len (Re.plus p) prev (x :: s) <> Some (S n)) -> p x = false.
Proof.
  intros H. rewrite match_len_plus in H. cbn [prefix_len] in H.
  destruct (p x); [|reflexivity].
  exfalso. apply (H (prefix_len p s)). reflexivity.
Qed.

Lemma re_split_plus p s :
  Forall (fun piece => Forall (fun c => p c = false) piece) (re_split (Re.plus p) s).
Proof.
  unfold re_split.
  destruct (scan_gaps (fun c => p c = false) (Re.plus p) (plus_gap_chars p)
              s None 0 [] (Forall_nil _)) as [H1 H2].
  destruct (scan (Re.plus p) None s 0 []) as [hits last]. cbn [fst snd] in *.
  apply Forall_app; split.
  - apply Forall_map. exact H1.
  - constructor; [exact H2 | constructor].
Qed.

Lemma Forall_lstrip_by (Q : N -> Prop) p s : Forall Q s -> Forall Q (lstrip_by p s).
Proof.
  induction 1 as [|c s Hc Hs IH]; cbn [lstrip_by]; [constructor|].
  destruct (p c); [exact IH | constructor; assumption].
Qed.

Lemma Forall_strip_by (Q : N -> Prop) p s : Forall Q s -> Forall Q (strip_by p s).
Proof.
  intros H. unfold strip_by, rstrip_by.
  apply Forall_reversed, Forall_lstrip_by, Forall_reversed, Forall_lstrip_by, H.
Qed.

Lemma split_sentences_parts text :
  Forall (fun s => s <> [] /\ strip s = s /\ Forall (fun c => sentence_end c = false) s)
    (_split_sentences text).
Proof.
  unfold _split_sentences.
  destruct (negb (nonempty _)); [constructor|].
  pose proof (re_split_plus (one_of (u ".!?؟" ++ [10%N]))
                (re_sub spaces_re (u " ") (strip text))) as P.
  fold sentence_end_re in P.
  induction P as [|piece pieces Hp _ IH]; cbn [filter map]; [constructor|].
  destruct (nonempty (strip piece)) eqn:E; [|exact IH].
  cbn [map]. constructor; [|exact IH].
  split; [|split].
  - intros Z. rewrite Z in E. discriminate.
  - apply strip_idempotent.
  - apply Forall_strip_by. exact Hp.
Qed.

Lemma split_sentences_stripped text s : In s (_split_sentences text) -> strip s = s.
Proof.
  intros H. pose proof (split_sentences_parts text) as P. rewrite Forall_forall in P.
  apply (P s H).
Qed.

(** X1. A sentence that [_split_sentences] returns is not empty, has no
    white space at either end, and holds none of the characters that end a
    sentence. *)
Theorem split_sentences_clean text s :
  In s (_split_sentences text) ->
  s <> [] /\ strip s = s /\ Forall (fun c => sentence_end c = false) s.
Proof.
  intros H. pose proof (split_sentences_parts text) as P. rewrite Forall_forall in P.
  apply (P s H).
Qed.

Lemma split_sentences_clean_witness :
  u "Hi there" <> [] /\ strip (u "Hi there") = u "Hi there"
  /\ Forall (fun c => sentence_end c = false) (u "Hi there").
Proof.
  apply (split_sentences_clean (u " Hi  there.  Go! ") (u "Hi there")).
  vm_compute. left. reflexivity.
Defined.

Lemma match_len_alt a b prev s :
  match_len (Alt a b) prev s
  = match match_len a prev s with Some n => Some n | None => match_len b prev s end.
Proof.
  unfold match_len. cbn [mt]. destruct (mt a prev s 0 [] accept) as [[j c]|]; reflexivity.
Qed.

Lemma findall_words text :
  Forall (fun t => forallb latin_letter t = true \/ forallb arabic_letter t = true)
    (re_findall word_re text).
Proof.
  unfold re_findall.
  pose proof (scan_hits
    (fun t => forallb latin_letter t = true \/ forallb arabic_letter t = true) word_re) as H.
  assert (M : forall prev s n, match_len word_re prev s = Some (S n) ->
              forallb latin_letter (firstn (S n) s) = true
              \/ forallb arabic_letter (firstn (S n) s) = true).
  { intros prev s n. unfold word_re. rewrite match_len_alt, !match_len_plus.
    destruct (1 <=? prefix_len latin_letter s).
    - intros E; injection E as E. left. rewrite <- E. apply prefix_len_firstn.
    - destruct (1 <=? prefix_len arabic_letter s); [|discriminate].
      intros E; injection E as E. right. rewrite <- E. apply prefix_len_firstn. }
  specialize (H M text None 0 []).
  destruct (scan word_re None text 0 []) as [hits last]. cbn [fst] in H.
  apply Forall_map. exact H.
Qed.

(** X2. Every token that [_tokenize] returns has more than two characters,
    is in neither stopword set, and is made of Latin letters only or of
    Arabic letters only. *)
Theorem tokenize_tokens lower ar en text :
  Forall (fun t => (2 < len t)%N /\ ~ In t ar /\ ~ In t en
                   /\ (forallb latin_letter t = true \/ forallb arabic_letter t = true))
    (_tokenize lower ar en text).
Proof.
  unfold _tokenize. apply Forall_forall. intros t Hin.
  apply filter_In in Hin as [Hin Hf].
  apply andb_true_iff in Hf as [Hlen Hstop].
  apply negb_true_iff in Hlen, Hstop. apply orb_false_iff in Hstop as [Ha He].
  split; [apply N.leb_gt, Hlen|].
  split; [intros X; apply mem_In in X; congruence|].
  split; [intros X; apply mem_In in X; congruence|].
  pose proof (findall_words (lower text)) as W.
  rewrite Forall_forall in W. apply W, Hin.
Qed.

(** ** Dictionaries *)

Lemma str_eqb_false a b : a <> b -> str_eqb a b = false.
Proof. intros H. destruct (str_eqb_spec a b); [contradiction | reflexivity]. Qed.

Lemma str_eqb_eq a b : str_eqb a b = true -> a = b.
Proof. destruct (str_eqb_spec a b); [auto | discriminate]. Qed.

Lemma dict_get_set_same (V : Type) (d : Dict.dict V) k v : Dict.get (Dict.set d k v) k = Some v.
Proof.
  induction d as [|[k' v'] d IH]; cbn [Dict.set Dict.get].
  - rewrite str_eqb_refl. reflexivity.
  - destruct (str_eqb k k') eqn:E; cbn [Dict.get]; rewrite E; [reflexivity | exact IH].
Qed.

Lemma dict_get_set_other (V : Type) (d : Dict.dict V) k k' v :
  k' <> k -> Dict.get (Dict.set d k v) k' = Dict.get d k'.
Proof.
  intros Ne. induction d as [|[k0 v0] d IH]; cbn [Dict.set Dict.get].
  - rewrite str_eqb_false by exact Ne. reflexivity.
  - destruct (str_eqb k k0) eqn:E; cbn [Dict.get].
    + apply str_eqb_eq in E. subst k0. rewrite str_eqb_false by exact Ne. reflexivity.
    + destruct (str_eqb k' k0); [reflexivity | exact IH].
Qed.

Lemma dict_keys_set (V : Type) (d : Dict.dict V) k v :
  Dict.keys (Dict.set d k v) = if mem k (Dict.keys d) then Dict.keys d else Dict.keys d ++ [k].
Proof.
  unfold Dict.keys, mem. induction d as [|[k' v'] d IH]; cbn [Dict.set map existsb fst app].
  - reflexivity.
  - destruct (str_eqb k k') eqn:E; cbn [map fst orb]; [reflexivity|].
    rewrite IH. destruct (existsb (str_eqb k) (map fst d)); reflexivity.
Qed.

Lemma dict_set_NoDup (V : Type) (d : Dict.dict V) k v :
  NoDup (Dict.keys d) -> NoDup (Dict.keys (Dict.set d k v)).
Proof.
  intros H. rewrite dict_keys_set. destruct (mem k (Dict.keys d)) eqn:E; [exact H|].
  apply NoDup_app; [exact H | constructor; [intros [] | constructor] |].
  intros x Hx [<-|[]]. apply mem_In in Hx. congruence.
Qed.

Lemma dict_set_length (V : Type) (d : Dict.dict V) k v :
  length (Dict.set d k v) <= S (length d).
Proof.
  induction d as [|[k' v'] d IH]; cbn [Dict.set length]; [lia|].
  destruct (str_eqb k k'); cbn [length]; lia.
Qed.

Lemma dict_keys_set_In (V : Type) (d : Dict.dict V) k v x :
  In x (Dict.keys (Dict.set d k v)) <-> In x (Dict.keys d) \/ x = k.
Proof.
  rewrite dict_keys_set. destruct (mem k (Dict.keys d)) eqn:E.
  - apply mem_In in E. split; [auto | intros [H| ->]; assumption].
  - rewrite in_app_iff. cbn [In]. intuition.
Qed.

Lemma dict_get_In (V : Type) (d : Dict.dict V) k v :
  NoDup (Dict.keys d) -> In (k, v) d -> Dict.get d k = Some v.
Proof.
  induction d as [|[k' v'] d IH]; intros ND Hin; [destruct Hin|].
  cbn [Dict.keys map fst] in ND. inversion ND as [|? ? Hnot ND']; subst.
  cbn [Dict.get]. destruct Hin as [E|Hin].
  - injection E as -> ->. rewrite str_eqb_refl. reflexivity.
  - destruct (str_eqb k k') eqn:E.
    + apply str_eqb_eq in E. subst k'. exfalso. apply Hnot.
      change (In k (map fst d)). apply in_map_iff. exists (k, v). split; auto.
    + apply IH; assumption.
Qed.

Lemma dict_get_key (V : Type) (d : Dict.dict V) k :
  In k (Dict.keys d) -> exists v, In (k, v) d.
Proof.
  unfold Dict.keys. rewrite in_map_iff. intros ([k' v] & E & H). cbn in E. subst k'.
  exists v. exact H.
Qed.

(** ** The counter of [_top_keywords] *)

Lemma count_app w l l' : count w (l ++ l') = (count w l + count w l')%N.
Proof. unfold count. rewrite filter_app, len_app. reflexivity. Qed.

Lemma count_cons w x l :
  count w (x :: l) = ((if str_eqb w x then 1 else 0) + count w l)%N.
Proof.
  unfold count. cbn [filter]. destruct (str_eqb w x); [rewrite len_cons; lia | lia].
Qed.

Lemma count_In w l : In w l <-> (0 < count w l)%N.
Proof.
  induction l as [|x l IH]; [cbn; unfold count; cbn; lia|].
  rewrite count_cons. cbn [In]. destruct (str_eqb_spec w x) as [->|Ne].
  - split; [lia | auto].
  - rewrite IH. split; [intros [E|H]; [congruence | lia] | intros H; right; lia].
Qed.

Lemma counter_update_counted c ws w :
  counted (counter_update c ws) w = (counted c w + count w ws)%N.
Proof.
  unfold counter_update. revert c. induction ws as [|x ws IH]; intros c; cbn [fold_left].
  - unfold count; cbn. lia.
  - rewrite IH, count_cons. unfold counted at 1.
    destruct (str_eqb_spec w x) as [->|Ne].
    + rewrite dict_get_set_same. unfold counted. destruct (Dict.get c x); lia.
    + rewrite dict_get_set_other by exact Ne. fold (counted c w). lia.
Qed.

Lemma counter_update_keys c ws w :
  In w (Dict.keys (counter_update c ws)) <-> In w (Dict.keys c) \/ In w ws.
Proof.
  unfold counter_update. revert c. induction ws as [|x ws IH]; intros c; cbn [fold_left In].
  - tauto.
  - rewrite IH, dict_keys_set_In. intuition.
Qed.

Lemma counter_update_NoDup c ws :
  NoDup (Dict.keys c) -> NoDup (Dict.keys (counter_update c ws)).
Proof.
  unfold counter_update. revert c. induction ws as [|x ws IH]; intros c H; cbn [fold_left].
  - exact H.
  - apply IH, dict_set_NoDup, H.
Qed.

Section Counter.
Variable lower : str -> str.
Variables ar en : pyset.

Lemma keyword_counter_spec sentences : forall c,
  let c' := fold_left (fun c s => counter_update c (_tokenize lower ar en s)) sentences c in
  (NoDup (Dict.keys c) -> NoDup (Dict.keys c'))
  /\ (forall w, counted c' w = (counted c w + count w (all_tokens lower ar en sentences))%N)
  /\ (forall w, In w (Dict.keys c') <-> In w (Dict.keys c) \/ In w (all_tokens lower ar en sentences)).
Proof.
  induction sentences as [|s ss IH]; intros c; cbn [fold_left all_tokens flat_map].
  - split; [auto | split]; intros w; [unfold count; cbn; lia | cbn; tauto].
  - destruct (IH (counter_update c (_tokenize lower ar en s))) as (H1 & H2 & H3).
    split; [|split].
    + intros ND. apply H1, counter_update_NoDup, ND.
    + intros w. rewrite H2, counter_update_counted, count_app. fold (all_tokens lower ar en ss). lia.
    + intros w. rewrite H3, counter_update_keys, in_app_iff. fold (all_tokens lower ar en ss). tauto.
Qed.

Lemma keyword_counter_NoDup sentences : NoDup (Dict.keys (keyword_counter lower ar en sentences)).
Proof. apply (keyword_counter_spec sentences []). constructor. Qed.

Lemma keyword_counter_entry sentences w n :
  In (w, n) (keyword_counter lower ar en sentences) ->
  n = count w (all_tokens lower ar en sentences) /\ In w (all_tokens lower ar en sentences).
Proof.
  intros H. destruct (keyword_counter_spec sentences []) as (_ & H2 & H3).
  fold (keyword_counter lower ar en sentences) in H2, H3.
  pose proof (dict_get_In _ _ _ _ (keyword_counter_NoDup sentences) H) as G.
  split.
  - specialize (H2 w). unfold counted in H2. rewrite G in H2. cbn in H2. exact H2.
  - destruct (proj1 (H3 w)) as [[]|T]; [|exact T].
    unfold Dict.keys. apply in_map_iff. exists (w, n). split; auto.
Qed.

Lemma keyword_counter_complete sentences w :
  In w (all_tokens lower ar en sentences) ->
  exists n, In (w, n) (keyword_counter lower ar en sentences).
Proof.
  intros H. destruct (keyword_counter_spec sentences []) as (_ & _ & H3).
  apply dict_get_key, H3. right. exact H.
Qed.
End Counter.

(** ** Sorting by decreasing key *)

Lemma insert_desc_perm (A : Type) (key : A -> Z) x l :
  Permutation (insert_desc key x l) (x :: l).
Proof.
  induction l as [|y l IH]; cbn [insert_desc]; [reflexivity|].
  destruct (key x <? key y)%Z; [|reflexivity].
  rewrite IH. apply perm_swap.
Qed.

Lemma sorted_desc_perm (A : Type) (key : A -> Z) l : Permutation (sorted_desc key l) l.
Proof.
  unfold sorted_desc. induction l as [|x l IH]; cbn [fold_right]; [reflexivity|].
  rewrite insert_desc_perm. constructor. exact IH.
Qed.

Lemma insert_desc_sorted (A : Type) (key : A -> Z) x l :
  StronglySorted (fun a b => (key b <= key a)%Z) l ->
  StronglySorted (fun a b => (key b <= key a)%Z) (insert_desc key x l).
Proof.
  induction 1 as [|y l Hl IH Hy]; cbn [insert_desc].
  - constructor; constructor.
  - destruct (Z.ltb_spec (key x) (key y)).
    + constructor; [exact IH|].
      rewrite Forall_forall. intros z Hz.
      apply (Permutation_in _ (insert_desc_perm _ key x l)) in Hz.
      destruct Hz as [<-|Hz]; [lia|]. rewrite Forall_forall in Hy. apply Hy, Hz.
    + constructor; [constructor; assumption|].
      constructor; [lia|]. rewrite Forall_forall in *. intros z Hz.
      specialize (Hy z Hz). lia.
Qed.

Lemma sorted_desc_sorted (A : Type) (key : A -> Z) l :
  StronglySorted (fun a b => (key b <= key a)%Z) (sorted_desc key l).
Proof.
  unfold sorted_desc. induction l as [|x l IH]; cbn [fold_right]; [constructor|].
  apply insert_desc_sorted, IH.
Qed.

(** Equal keys keep their order: what comes out for one key is what went
    in with that key, in the same order. *)
Lemma insert_desc_stable (A : Type) (key : A -> Z) k x l :
  filter (fun y => (key y =? k)%Z) (insert_desc key x l)
  = filter (fun y => (key y =? k)%Z) (x :: l).
Proof.
  induction l as [|y l IH]; cbn [insert_desc]; [reflexivity|].
  destruct (Z.ltb_spec (key x) (key y)); [|reflexivity].
  cbn [filter] in *. rewrite IH.
  destruct (Z.eqb_spec (key x) k), (Z.eqb_spec (key y) k); try reflexivity. lia.
Qed.

Lemma sorted_desc_stable (A : Type) (key : A -> Z) k l :
  filter (fun y => (key y =? k)%Z) (sorted_desc key l) = filter (fun y => (key y =? k)%Z) l.
Proof.
  unfold sorted_desc. induction l as [|x l IH]; cbn [fold_right]; [reflexivity|].
  rewrite insert_desc_stable. cbn [filter]. rewrite IH. reflexivity.
Qed.

Lemma StronglySorted_app_le (A : Type) (R : A -> A -> Prop) l1 l2 :
  StronglySorted R (l1 ++ l2) -> forall a b, In a l1 -> In b l2 -> R a b.
Proof.
  induction l1 as [|x l1 IH]; intros H a b Ha Hb; [destruct Ha|].
  cbn [app] in H. inversion H as [|? ? Hs Hx]; subst.
  destruct Ha as [<-|Ha].
  - rewrite Forall_forall in Hx. apply Hx, in_or_app. right. exact Hb.
  - apply IH; assumption.
Qed.

Lemma StronglySorted_firstn (A : Type) (R : A -> A -> Prop) n l :
  StronglySorted R l -> StronglySorted R (firstn n l).
Proof.
  intros H. rewrite <- (firstn_skipn n l) in H. revert H.
  generalize (skipn n l) as l2. induction (firstn n l) as [|x l1 IH]; intros l2 H.
  - constructor.
  - cbn [app] in H. inversion H as [|? ? Hs Hx]; subst. constructor.
    + apply (IH l2 Hs).
    + apply Forall_app in Hx. tauto.
Qed.

Lemma NoDup_firstn_keys (A : Type) n (l : list A) : NoDup l -> NoDup (firstn n l).
Proof.
  intros H. rewrite <- (firstn_skipn n l) in H. apply NoDup_app_remove_r in H. exact H.
Qed.

Section TopKeywords.
Variable lower : str -> str.
Variables ar en : pyset.
Variable sentences : list str.
Variable k : nat.

Let toks := all_tokens lower ar en sentences.
Let c := keyword_counter lower ar en sentences.
Let ranked := sorted_desc (fun wn : list N * N => Z.of_N (snd wn)) c.

Lemma top_keywords_ranked :
  _top_keywords lower ar en sentences k = map fst (firstn k ranked).
Proof. reflexivity. Qed.

Lemma ranked_entry w n : In (w, n) ranked -> n = count w toks /\ In w toks.
Proof.
  intros H. apply (Permutation_in _ (sorted_desc_perm _ _ c)) in H.
  apply (keyword_counter_entry lower ar en sentences w n H).
Qed.

Lemma ranked_NoDup : NoDup (map fst ranked).
Proof.
  apply (Permutation_NoDup (l := map fst c)).
  - apply Permutation_map. symmetry. apply sorted_desc_perm.
  - apply keyword_counter_NoDup.
Qed.

(** X3. [_top_keywords] returns at most [k] words, none of them twice, and
    each of them a token of the sentences. *)
Theorem top_keywords_distinct_tokens :
  length (_top_keywords lower ar en sentences k) <= k
  /\ NoDup (_top_keywords lower ar en sentences k)
  /\ forall w, In w (_top_keywords lower ar en sentences k) ->
       In w (all_tokens lower ar en sentences).
Proof.
  change (all_tokens lower ar en sentences) with toks.
  rewrite top_keywords_ranked. split; [|split].
  - rewrite length_map. apply firstn_le_length.
  - rewrite <- firstn_map. apply NoDup_firstn_keys, ranked_NoDup.
  - intros w H. apply in_map_iff in H as ([w' n] & E & H). cbn in E. subst w'.
    assert (In (w, n) ranked) as H' by (rewrite <- (firstn_skipn k ranked); apply in_or_app; auto).
    apply (ranked_entry w n H').
Qed.

(** X4. The keywords come in the order of their numbers of occurrences,
    the most frequent first, and no token that is left out occurs more
    often than a keyword that is kept. *)
Theorem top_keywords_most_frequent :
  StronglySorted (fun a b => (count b (all_tokens lower ar en sentences)
                              <= count a (all_tokens lower ar en sentences))%N)
    (_top_keywords lower ar en sentences k)
  /\ forall kw w,
       In kw (_top_keywords lower ar en sentences k) ->
       In w (all_tokens lower ar en sentences) ->
       ~ In w (_top_keywords lower ar en sentences k) ->
       (count w (all_tokens lower ar en sentences)
        <= count kw (all_tokens lower ar en sentences))%N.
Proof.
  change (all_tokens lower ar en sentences) with toks.
  rewrite top_keywords_ranked.
  pose proof (sorted_desc_sorted _ (fun wn : list N * N => Z.of_N (snd wn)) c) as S.
  fold ranked in S.
  split.
  - apply (StronglySorted_firstn _ _ k) in S.
    assert (E : forall wn, In wn (firstn k ranked) -> snd wn = count (fst wn) toks).
    { intros [w n] H. cbn. apply (ranked_entry w n).
      rewrite <- (firstn_skipn k ranked). apply in_or_app. auto. }
    revert S E. generalize (firstn k ranked) as l.
    induction l as [|[w n] l IH]; intros S E; cbn [map]; [constructor|].
    inversion S as [|? ? Sl Hl]; subst. constructor.
    + apply IH; [exact Sl | intros wn H; apply E; right; exact H].
    + apply Forall_map. rewrite Forall_forall in *. intros [w' n'] H. cbn [fst].
      specialize (Hl _ H). cbn in Hl.
      pose proof (E (w, n) (or_introl eq_refl)) as E1.
      pose proof (E (w', n') (or_intror H)) as E2. cbn [fst snd] in E1, E2.
      rewrite <- E1, <- E2. lia.
  - intros kw w Hkw Hw Hout.
    apply in_map_iff in Hkw as ([kw' n] & E & Hkw). cbn in E. subst kw'.
    destruct (keyword_counter_complete lower ar en sentences w Hw) as [m Hm].
    apply (Permutation_in _ (Permutation_sym (sorted_desc_perm _
             (fun wn : list N * N => Z.of_N (snd wn)) c))) in Hm.
    fold ranked in Hm.
    assert (Hm' : In (w, m) (skipn k ranked)).
    { rewrite <- (firstn_skipn k ranked) in Hm. apply in_app_or in Hm as [Hm|Hm]; [|exact Hm].
      exfalso. apply Hout. apply in_map_iff. exists (w, m). split; auto. }
    rewrite <- (firstn_skipn k ranked) in S.
    pose proof (StronglySorted_app_le _ _ _ _ S _ _ Hkw Hm') as Le. cbn in Le.
    assert (In (kw, n) ranked) as A1
      by (rewrite <- (firstn_skipn k ranked); apply in_or_app; auto).
    assert (In (w, m) ranked) as A2
      by (rewrite <- (firstn_skipn k ranked); apply in_or_app; auto).
    destruct (ranked_entry _ _ A1) as [<- _]. destruct (ranked_entry _ _ A2) as [<- _]. lia.
Qed.
End TopKeywords.

(** ** Decisions and tasks *)

Lemma firstn_In (A : Type) (x : A) n : forall l, In x (firstn n l) -> In x l.
Proof.
  induction n as [|n IH]; intros [|y l]; cbn [firstn In]; try contradiction.
  intros [H|H]; [left; exact H | right; apply IH, H].
Qed.

Lemma any_in_mentions lower kws s : any_in lower kws (lower s) = true <-> mentions lower kws s.
Proof. unfold any_in, mentions. apply existsb_exists. Qed.

Lemma detected_sound lower kws n sentences r :
  In r (firstn n (map strip (filter (fun s => any_in lower kws (lower s)) sentences))) ->
  exists s, In s sentences /\ mentions lower kws s /\ r = strip s.
Proof.
  intros H. apply firstn_In in H. apply in_map_iff in H as (s & <- & H).
  apply filter_In in H as [H1 H2]. exists s. split; [exact H1 | split; [|reflexivity]].
  apply any_in_mentions, H2.
Qed.

Lemma detected_complete lower kws n sentences s :
  length (filter (fun s => any_in lower kws (lower s)) sentences) <= n ->
  In s sentences -> mentions lower kws s ->
  In (strip s) (firstn n (map strip (filter (fun s => any_in lower kws (lower s)) sentences))).
Proof.
  intros L H M. rewrite firstn_all2 by (rewrite length_map; exact L).
  apply in_map, filter_In. split; [exact H | apply any_in_mentions, M].
Qed.

Section Detected.
Variable lower : str -> str.
Variables ar en : pyset.
Variable full_text : str.

Lemma detected_sentences kws n r :
  In r (firstn n (map strip (filter (fun s => any_in lower kws (lower s))
                               (_split_sentences full_text)))) ->
  In r (_split_sentences full_text) /\ mentions lower kws r.
Proof.
  intros H. apply detected_sound in H as (s & Hs & M & ->).
  rewrite (split_sentences_stripped full_text s Hs). split; assumption.
Qed.

Lemma detected_all kws n s :
  length (filter (fun s => any_in lower kws (lower s)) (_split_sentences full_text)) <= n ->
  In s (_split_sentences full_text) -> mentions lower kws s ->
  In s (firstn n (map strip (filter (fun s => any_in lower kws (lower s))
                               (_split_sentences full_text)))).
Proof.
  intros L Hs M. rewrite <- (split_sentences_stripped full_text s Hs) at 1.
  apply detected_complete; assumption.
Qed.

(** X5. The decisions of a summary are sentences of the transcript that
    mention a decision keyword, in any case; and when no more than 12
    sentences mention one, every such sentence is a decision. *)
Theorem summary_decisions :
  let r := build_smart_summary lower ar en full_text in
  let sentences := _split_sentences full_text in
  (forall d, In d (Summarizer.decisions r) -> In d sentences /\ mentions lower DECISION_KWS d)
  /\ (length (filter (fun s => any_in lower DECISION_KWS (lower s)) sentences) <= 12 ->
      forall s, In s sentences -> mentions lower DECISION_KWS s -> In s (Summarizer.decisions r)).
Proof.
  cbn zeta. unfold build_smart_summary, _detect_decisions. cbn [Summarizer.decisions].
  split; [intros d; apply detected_sentences | intros L s; apply detected_all; exact L].
Qed.

(** X6. The tasks of a summary are sentences of the transcript that
    mention a task keyword, in any case; and when no more than 15
    sentences mention one, every such sentence is a task. *)
Theorem summary_tasks :
  let r := build_smart_summary lower ar en full_text in
  let sentences := _split_sentences full_text in
  (forall t, In t (Summarizer.tasks r) -> In t sentences /\ mentions lower TASK_KWS t)
  /\ (length (filter (fun s => any_in lower TASK_KWS (lower s)) sentences) <= 15 ->
      forall s, In s sentences -> mentions lower TASK_KWS s -> In s (Summarizer.tasks r)).
Proof.
  cbn zeta. unfold build_smart_summary, _detect_tasks. cbn [Summarizer.tasks].
  split; [intros t; apply detected_sentences | intros L s; apply detected_all; exact L].
Qed.

End Detected.

(** ** Numbers and dates *)

Lemma rep_needs_one (R : Type) p lo hi prev s i (k : option N -> list N -> nat -> option R) res :
  rep p (S lo) hi prev s i k = Some res -> exists x s', s = x :: s' /\ p x = true.
Proof.
  destruct s as [|x s]; cbn [rep Nat.eqb].
  - destruct hi as [[|h]|]; discriminate.
  - destruct hi as [[|h]|]; [discriminate | |]; (destruct (p x) eqn:E; [eauto | discriminate]).
Qed.

Lemma rep_zero_total (R : Type) p hi prev s i (k : option N -> list N -> nat -> option R) :
  (forall p' s' i', k p' s' i' <> None) -> rep p 0 hi prev s i k <> None.
Proof.
  intros K. destruct s as [|x s]; cbn [rep Nat.eqb].
  - destruct hi as [[|h]|]; apply K.
  - destruct hi as [[|h]|]; [apply K | |];
      (destruct (p x); [|apply K]; destruct (rep p _ _ _ _ _ _); [discriminate | apply K]).
Qed.

Lemma rep_one_total (R : Type) p prev x s i (k : option N -> list N -> nat -> option R) :
  (forall p' s' i', k p' s' i' <> None) -> p x = true ->
  rep p 1 None prev (x :: s) i k <> None.
Proof.
  intros K Px. cbn [rep Nat.eqb]. rewrite Px. cbn [pred option_map].
  pose proof (rep_zero_total R p None (Some x) s (S i) k K) as T.
  destruct (rep p 0 None (Some x) s (S i) k); [discriminate | contradiction].
Qed.

Lemma numbers_match_starts prev s i res :
  mt numbers_dates_re prev s i [] accept = Some res ->
  exists x s', s = x :: s' /\ digit x = true.
Proof.
  unfold numbers_dates_re, Re.plus. cbn [mt seq fold_right].
  destruct (rep digit 1 (Some 4) prev s i _) eqn:E1.
  - intros _. eapply rep_needs_one, E1.
  - destruct (rep digit 1 (Some 2) prev s i _) eqn:E2.
    + intros _. eapply rep_needs_one, E2.
    + intros E3. eapply rep_needs_one, E3.
Qed.

Lemma numbers_match_digit prev x s i :
  digit x = true -> mt numbers_dates_re prev (x :: s) i [] accept <> None.
Proof.
  intros D. unfold numbers_dates_re, Re.plus, opt. cbn [mt seq fold_right].
  destruct (rep digit 1 (Some 4) prev (x :: s) i _); [discriminate|].
  destruct (rep digit 1 (Some 2) prev (x :: s) i _); [discriminate|].
  apply rep_one_total; [|exact D].
  intros p' s' i'. destruct (match s' with [] => None | _ => _ end); discriminate.
Qed.

Lemma search_numbers s : forall prev i,
  search_from numbers_dates_re prev s i <> None <-> existsb digit s = true.
Proof.
  induction s as [|x s IH]; intros prev i; cbn [search_from existsb].
  - destruct (mt numbers_dates_re prev [] i [] accept) as [[j c]|] eqn:E.
    + apply numbers_match_starts in E as (x & s' & E & _). discriminate.
    + split; [intros H; contradiction | discriminate].
  - destruct (mt numbers_dates_re prev (x :: s) i [] accept) as [[j c]|] eqn:E.
    + apply numbers_match_starts in E as (x' & s' & E & D). injection E as <- <-.
      rewrite D. split; [reflexivity | discriminate].
    + destruct (digit x) eqn:D.
      * exfalso. apply (numbers_match_digit prev x s i D E).
      * cbn [orb]. apply IH.
Qed.

(** X7. [_extract_numbers_dates] flags exactly the sentences that hold a
    decimal digit: the date and the time alternative of its pattern add
    nothing to the third one. *)
Theorem extract_numbers_dates_digits sentences :
  _extract_numbers_dates sentences = firstn 12 (map strip (filter (existsb digit) sentences)).
Proof.
  unfold _extract_numbers_dates. do 2 f_equal. apply filter_ext. intros s.
  pose proof (search_numbers s None 0) as H. fold (re_search numbers_dates_re s) in H.
  destruct (re_search numbers_dates_re s), (existsb digit s); try reflexivity.
  - exfalso. assert (X : false = true) by (apply H; discriminate). discriminate.
  - exfalso. apply (proj2 H); reflexivity.
Qed.

(** ** Bullets *)

Lemma dedupe_prefixes top : forall seen bullets,
  NoDup (map (firstn 60) bullets) ->
  (forall b, In b bullets -> In (firstn 60 b) seen) ->
  NoDup (map (firstn 60) (dedupe top seen bullets)).
Proof.
  induction top as [|s top IH]; intros seen bullets ND Seen; cbn [dedupe]; [exact ND|].
  destruct (mem (firstn 60 s) seen) eqn:E; cbn [negb].
  - apply IH; assumption.
  - apply IH.
    + rewrite map_app. cbn [map]. apply NoDup_app; [exact ND | constructor; [intros [] | constructor] |].
      intros x Hx [<-|[]]. apply in_map_iff in Hx as (b & Eb & Hb).
      apply Seen in Hb. rewrite Eb in Hb. apply mem_In in Hb. congruence.
    + intros b Hb. apply in_app_or in Hb as [Hb|[<-|[]]]; [right; apply Seen, Hb | left; reflexivity].
Qed.

Lemma dedupe_incl top : forall seen bullets b,
  In b (dedupe top seen bullets) -> In b bullets \/ In b top.
Proof.
  induction top as [|s top IH]; intros seen bullets b; cbn [dedupe]; [auto|].
  destruct (negb (mem (firstn 60 s) seen)); intros H; apply IH in H.
  - destruct H as [H|H]; [|right; right; exact H].
    apply in_app_or in H as [H|[<-|[]]]; [left; exact H | right; left; reflexivity].
  - destruct H as [H|H]; [left; exact H | right; right; exact H].
Qed.

(** X8. No two bullets of a summary begin with the same 60 characters, and
    every bullet is a sentence of the transcript. *)
Theorem bullets_distinct_sentences lower ar en full_text :
  let r := build_smart_summary lower ar en full_text in
  NoDup (map (firstn 60) (bullets r))
  /\ incl (bullets r) (_split_sentences full_text).
Proof.
  cbn zeta. unfold build_smart_summary. cbn [bullets]. split.
  - apply dedupe_prefixes; [constructor | intros b []].
  - intros b H. apply dedupe_incl in H as [[]|H].
    apply in_map_iff in H as ([sc s] & <- & H). apply firstn_In in H.
    apply (Permutation_in _ (sorted_desc_perm _ _ _)) in H.
    apply in_map_iff in H as (s' & E & H). injection E as _ <-. exact H.
Qed.

(** ** Topic groups and speaker groups *)

Lemma fold_left_invariant_In (A B : Type) (P : A -> Prop) (f : A -> B -> A) l : forall a,
  (forall a b, In b l -> P a -> P (f a b)) -> P a -> P (fold_left f l a).
Proof.
  induction l as [|b l IH]; intros a Hf Ha; cbn [fold_left]; [exact Ha|].
  apply IH.
  - intros a' b' Hb. apply Hf. right. exact Hb.
  - apply Hf; [left; reflexivity | exact Ha].
Qed.

Lemma dict_set_Forall_entries (V : Type) (P : str -> V -> Prop) (d : Dict.dict V) k v :
  Forall (fun kl => P (fst kl) (snd kl)) d -> P k v ->
  Forall (fun kl => P (fst kl) (snd kl)) (Dict.set d k v).
Proof.
  intros Hd Hv. induction d as [|[k' v'] d IH]; cbn [Dict.set].
  - constructor; [exact Hv | constructor].
  - inversion Hd as [|? ? H1 H2]; subst. destruct (str_eqb_spec k k') as [<-|Ne].
    + constructor; [exact Hv | exact H2].
    + constructor; [exact H1 | apply IH, H2].
Qed.

Lemma dict_get_Forall (V : Type) (P : str -> V -> Prop) (d : Dict.dict V) k v :
  Forall (fun kl => P (fst kl) (snd kl)) d -> Dict.get d k = Some v -> P k v.
Proof.
  intros Hd. induction d as [|[k' v'] d IH]; cbn [Dict.get]; [discriminate|].
  inversion Hd as [|? ? H1 H2]; subst. destruct (str_eqb_spec k k') as [->|Ne].
  - intros E. injection E as <-. exact H1.
  - apply IH, H2.
Qed.

Lemma dict_append_Forall (P : str -> list str -> Prop) d k x :
  Forall (fun kl => P (fst kl) (snd kl)) d ->
  (forall l, P k l -> P k (l ++ [x])) -> P k [x] ->
  Forall (fun kl => P (fst kl) (snd kl)) (Dict.append_to d k x).
Proof.
  intros Hd Happ Hone. unfold Dict.append_to. destruct (Dict.get d k) as [l|] eqn:E.
  - apply dict_set_Forall_entries; [exact Hd|]. apply Happ. eapply dict_get_Forall; eassumption.
  - apply dict_set_Forall_entries; assumption.
Qed.

Lemma dict_append_keys d k x :
  Dict.keys (Dict.append_to d k x)
  = if mem k (Dict.keys d) then Dict.keys d else Dict.keys d ++ [k].
Proof. unfold Dict.append_to. destruct (Dict.get d k); apply dict_keys_set. Qed.

Lemma dict_append_NoDup d k x :
  NoDup (Dict.keys d) -> NoDup (Dict.keys (Dict.append_to d k x)).
Proof. unfold Dict.append_to. destruct (Dict.get d k); apply dict_set_NoDup. Qed.

Lemma keys_length (V : Type) (d : Dict.dict V) : length (Dict.keys d) = length d.
Proof. apply length_map. Qed.

Lemma fold_set_length (V W : Type) (f : str * W -> option V) l : forall (d : Dict.dict V),
  length (fold_left (fun d kl => match f kl with
                                 | Some v => Dict.set d (fst kl) v
                                 | None => d
                                 end) l d) <= length d + length l.
Proof.
  induction l as [|kl l IH]; intros d; cbn [fold_left length]; [lia|].
  etransitivity; [apply IH|]. destruct (f kl); [|lia].
  pose proof (dict_set_length V d (fst kl) v). lia.
Qed.

Lemma find_In (A : Type) (f : A -> bool) l x : find f l = Some x -> In x l.
Proof. intros H. apply find_some in H. apply H. Qed.

Section Topics.
Variable lower : str -> str.
Variables ar en : pyset.
Variable sentences : list str.

(** A string that is one of the sentences, stripped. *)
Let item (x : str) : Prop := exists s, In s sentences /\ x = strip s.
Let items (k : str) (l : list str) : Prop := Forall item l.

Lemma item_strip x : item x -> item (strip x).
Proof. intros (s & H & ->). exists s. split; [exact H | apply strip_idempotent]. Qed.

Lemma items_app k l x : item x -> items k l -> items k (l ++ [x]).
Proof. intros Hx Hl. apply Forall_app. split; [exact Hl | constructor; [exact Hx | constructor]]. Qed.

Lemma classify_loop :
  let st := fold_left (classify lower) sentences
              (map (fun k => (k, [])) (Dict.keys TOPIC_HINTS), []) in
  length (fst st) = 5
  /\ Forall (fun kl => items (fst kl) (snd kl)) (fst st)
  /\ Forall item (snd st).
Proof.
  cbn zeta.
  set (Inv := fun st : Dict.dict (list str) * list str =>
                Dict.keys (fst st) = Dict.keys TOPIC_HINTS
                /\ Forall (fun kl => items (fst kl) (snd kl)) (fst st)
                /\ Forall item (snd st)).
  assert (H : Inv (fold_left (classify lower) sentences
                     (map (fun k => (k, [])) (Dict.keys TOPIC_HINTS), []))).
  { apply fold_left_invariant_In.
    - intros [groups other] s Hs (K & G & O). cbn [fst snd] in K, G, O.
      assert (Is : item (strip s)) by (exists s; split; [exact Hs | reflexivity]).
      unfold classify.
      destruct (find _ TOPIC_HINTS) as [[topic hints]|] eqn:F; unfold Inv; cbn [fst snd].
      + apply find_In in F. apply (in_map fst) in F. cbn [fst] in F.
        fold (Dict.keys TOPIC_HINTS) in F. rewrite <- K in F. apply mem_In in F.
        split; [rewrite dict_append_keys, F; exact K | split; [|exact O]].
        apply dict_append_Forall; [exact G | |].
        * intros l. apply items_app. exact Is.
        * constructor; [exact Is | constructor].
      + split; [exact K | split; [exact G|]].
        apply Forall_app. split; [exact O | constructor; [exact Is | constructor]].
    - unfold Inv. cbn [fst snd]. split; [|split; [|constructor]].
      + unfold Dict.keys. rewrite map_map. cbn [fst]. apply map_id.
      + apply Forall_map. cbn [fst snd]. apply Forall_forall. intros k _. constructor. }
  destruct H as (K & G & O). split; [|split; assumption].
  rewrite <- keys_length, K. reflexivity.
Qed.

Lemma by_keyword_loop kw other :
  Forall item other ->
  Forall (fun kl => items (fst kl) (snd kl)) (fold_left (by_keyword lower kw) other []).
Proof.
  intros O. apply fold_left_invariant_In; [|constructor].
  intros dynamic s Hs D.
  assert (Is : item (strip s)).
  { apply item_strip. rewrite Forall_forall in O. apply O, Hs. }
  assert (A : forall k, Forall (fun kl => items (fst kl) (snd kl))
                          (Dict.append_to dynamic k (strip s))).
  { intros k. apply dict_append_Forall; [exact D | |].
    - intros l. apply items_app. exact Is.
    - constructor; [exact Is | constructor]. }
  unfold by_keyword. destruct (find _ kw) as [key|]; [destruct (nonempty key)|]; apply A.
Qed.

(** X9. [_group_by_topics] returns at most nine groups, under distinct
    names; no group is empty, and every entry of a group is one of the
    sentences, stripped. *)
Theorem group_by_topics_groups :
  let g := _group_by_topics lower ar en sentences in
  length g <= 9 /\ NoDup (Dict.keys g)
  /\ forall k l, In (k, l) g ->
       l <> [] /\ forall x, In x l -> exists s, In s sentences /\ x = strip s.
Proof.
  cbn zeta. unfold _group_by_topics.
  pose proof classify_loop as C. cbn zeta in C.
  destruct (fold_left (classify lower) sentences _) as [groups other].
  cbn [fst snd] in C. destruct C as (L & G & O).
  set (groups2 := match other with [] => groups | _ => _ end).
  assert (H2 : length groups2 <= 9
               /\ Forall (fun kl => items (fst kl) (snd kl)) groups2).
  { subst groups2. destruct other as [|o other]; [split; [lia | exact G]|].
    destruct (_top_keywords lower ar en (o :: other) 8) as [|w kw]; [split; [lia | exact G]|].
    set (dyn := firstn 4 _).
    assert (D : Forall (fun kl => items (fst kl) (snd kl)) dyn).
    { apply Forall_forall. intros kl Hkl. apply firstn_In in Hkl.
      apply (Permutation_in _ (sorted_desc_perm _ _ _)) in Hkl.
      pose proof (by_keyword_loop (w :: kw) (o :: other) O) as B.
      rewrite Forall_forall in B. apply B, Hkl. }
    assert (Ld : length dyn <= 4) by apply firstn_le_length.
    split.
    - pose proof (fold_set_length _ _ (fun kl : str * list str => Some (snd kl)) dyn groups) as F.
      cbn beta iota in F. lia.
    - apply fold_left_invariant_In; [|exact G].
      intros g kl Hkl Hg. apply dict_set_Forall_entries; [exact Hg|].
      rewrite Forall_forall in D. apply (D kl Hkl). }
  destruct H2 as (L2 & G2). clearbody groups2.
  split; [|split].
  - pose proof (fold_set_length _ _
        (fun kl : str * list str => match snd kl with [] => None | lst => Some (firstn 6 lst) end)
        groups2 []) as F.
    cbn [length Nat.add] in F. etransitivity; [|exact L2]. etransitivity; [|exact F].
    apply Nat.eq_le_incl. f_equal. apply fold_left_ext. intros a [k [|x l]]; reflexivity.
  - apply fold_left_invariant; [|constructor].
    intros cleaned [k [|x l]] H; cbn [fst snd]; [exact H | apply dict_set_NoDup, H].
  - assert (F : Forall (fun kl => snd kl <> [] /\ items (fst kl) (snd kl))
                  (fold_left (fun cleaned kl =>
                                match snd kl with
                                | [] => cleaned
                                | lst => Dict.set cleaned (fst kl) (firstn 6 lst)
                                end) groups2 [])).
    { apply fold_left_invariant_In; [|constructor].
      intros cleaned [k [|x l]] Hkl H; cbn [fst snd]; [exact H|].
      apply (dict_set_Forall_entries _ (fun k l => l <> [] /\ items k l)); [exact H|].
      split; [cbn [firstn]; discriminate|].
      rewrite Forall_forall in G2. specialize (G2 _ Hkl). cbn [fst snd] in G2.
      unfold items in *. rewrite Forall_forall in *. intros y Hy. apply G2.
      eapply firstn_In, Hy. }
    intros k l Hkl. rewrite Forall_forall in F. destruct (F _ Hkl) as [Ne It].
    cbn [fst snd] in Ne, It. split; [exact Ne|].
    unfold items in It. rewrite Forall_forall in It. exact It.
Qed.

End Topics.

Lemma speaker_loop_entries lines :
  let st := fold_left speaker_step lines (None, []) in
  NoDup (Dict.keys (snd st))
  /\ Forall (fun kl => fst kl <> [] /\ snd kl <> []) (snd st).
Proof.
  cbn zeta.
  set (Inv := fun st : option str * Dict.dict (list str) =>
                NoDup (Dict.keys (snd st))
                /\ Forall (fun kl => fst kl <> [] /\ snd kl <> []) (snd st)).
  change (Inv (fold_left speaker_step lines (None, []))).
  apply fold_left_invariant; [|split; constructor].
  intros [cur m] ln (ND & F). cbn [snd] in ND, F.
  assert (A : forall sp x, sp <> [] -> Inv (Some sp, Dict.append_to m sp x)).
  { intros sp x Ne. split; cbn [snd]; [apply dict_append_NoDup, ND|].
    apply (dict_append_Forall (fun k l => k <> [] /\ l <> [])); [exact F | |].
    - intros l _. split; [exact Ne | destruct l; discriminate].
    - split; [exact Ne | discriminate]. }
  unfold speaker_step. destruct (first_hit SPEAKER_PATTERNS ln) as [[sp rest]|] eqn:E.
  - cbn [fst snd]. apply A. eapply first_hit_label, E.
  - destruct cur as [sp|]; [|split; assumption].
    destruct (nonempty sp) eqn:N; [|split; assumption].
    apply A. intros ->. discriminate.
Qed.

(** X10. The groups of [_group_by_speakers] have distinct, non-empty
    labels, and each holds between one and six texts. *)
Theorem group_by_speakers_groups raw_text :
  let g := _group_by_speakers raw_text in
  NoDup (Dict.keys g)
  /\ forall sp l, In (sp, l) g -> sp <> [] /\ 1 <= length l <= 6.
Proof.
  cbn zeta. unfold _group_by_speakers.
  generalize (map strip (filter (fun ln => nonempty (strip ln)) (splitlines raw_text))).
  intros [|ln rest]; [split; [constructor | intros ? ? []]|].
  pose proof (speaker_loop_entries (ln :: rest)) as S. cbn zeta in S.
  destruct (fold_left speaker_step (ln :: rest) (None, [])) as [cur m]. cbn [snd] in S.
  destruct S as (_ & F).
  destruct (len m <=? 0)%N; [split; [constructor | intros ? ? []]|].
  split.
  - apply fold_left_invariant; [|constructor]. intros out kl H. apply dict_set_NoDup, H.
  - assert (G : Forall (fun kl => fst kl <> [] /\ 1 <= length (snd kl) <= 6)
                  (fold_left (fun out kl =>
                     let sents := _split_sentences (join (u " ") (snd kl)) in
                     Dict.set out (fst kl)
                       (match sents with [] => firstn 6 (snd kl) | _ => firstn 6 sents end))
                     m [])).
    { apply fold_left_invariant_In; [|constructor].
      intros out [sp l] Hkl H. cbn zeta. cbn [fst snd].
      rewrite Forall_forall in F. destruct (F _ Hkl) as [Nsp Nl]. cbn [fst snd] in Nsp, Nl.
      apply (dict_set_Forall_entries _ (fun k v => k <> [] /\ 1 <= length v <= 6)); [exact H|].
      split; [exact Nsp|].
      destruct (_split_sentences (join (u " ") l)) as [|x sents].
      - destruct l as [|y l]; [contradiction|]. split; [cbn [firstn length]; lia|].
        apply firstn_le_length.
      - split; [cbn [firstn length]; lia | apply firstn_le_length]. }
    intros sp l Hkl. rewrite Forall_forall in G. apply (G _ Hkl).
Qed.

(** ** What the brace fallback of [_parse_json] can return *)

Lemma scan_members_object f : forall s acc v r,
  scan_members f s acc = Some (v, r) -> exists d, v = JObj d.
Proof.
  induction f as [|f IH]; intros s acc v r; cbn [scan_members]; [discriminate|].
  destruct s as [|q s']; [discriminate|].
  destruct (q =? 34)%N; [|discriminate].
  destruct (scanstring _ s' []) as [[key r0]|]; [|discriminate].
  destruct (skip_ws r0) as [|c r1]; [discriminate|].
  destruct (c =? 58)%N; [|discriminate].
  destruct (scan_once f (skip_ws r1)) as [[v1 r2]|]; [|discriminate].
  destruct (scan_after 125 r2) as [r3|r3|]; [apply IH | | discriminate].
  intros E. injection E as <- _. eexists. reflexivity.
Qed.

Lemma loads_brace s v : loads (123%N :: s) = Some v -> exists d, v = JObj d.
Proof.
  unfold loads. change (skip_ws (123%N :: s)) with (123%N :: s).
  destruct (scan_once _ (123%N :: s)) as [[v' r]|] eqn:E; [|discriminate].
  destruct (skip_ws r); [|discriminate]. intros H. injection H as <-.
  revert E. generalize (2 * length (123%N :: s) + 2). intros [|f]; [discriminate|].
  rewrite scan_once_unfold. change (123 =? 34)%N with false. change (123 =? 123)%N with true.
  cbv iota. destruct (skip_ws s) as [|c' r']; [discriminate|].
  destruct (c' =? 125)%N.
  - intros E. injection E as <- _. eexists. reflexivity.
  - apply scan_members_object.
Qed.

Lemma search_from_inv r s : forall prev i m,
  search_from r prev s i = Some m ->
  exists pre s1 prev1 c,
    s = pre ++ s1 /\ m_start m = i + length pre
    /\ mt r prev1 s1 (m_start m) [] accept = Some (m_end m, c).
Proof.
  induction s as [|x s IH]; intros prev i m; cbn [search_from].
  - destruct (mt r prev [] i [] accept) as [[j c]|] eqn:E; [|discriminate].
    intros H. injection H as <-. exists [], [], prev, c. cbn [m_start m_end length app].
    rewrite Nat.add_0_r. auto.
  - destruct (mt r prev (x :: s) i [] accept) as [[j c]|] eqn:E.
    + intros H. injection H as <-. exists [], (x :: s), prev, c. cbn [m_start m_end length app].
      rewrite Nat.add_0_r. auto.
    + intros H. apply IH in H as (pre & s1 & prev1 & c & -> & St & M).
      exists (x :: pre), s1, prev1, c. cbn [length app]. split; [reflexivity|].
      split; [lia | exact M].
Qed.

Lemma search_brace_group s m :
  re_search brace_re s = Some m -> exists t, group0 m s = 123%N :: t.
Proof.
  unfold re_search. intros H.
  apply search_from_inv in H as (pre & s1 & prev1 & c & -> & St & M).
  cbn [Nat.add] in St.
  apply mt_starts with (P := fun x => x = 123%N) in M
    as (x & s2 & p' & s' & i' & -> & -> & (p & -> & Ei) & A).
  - unfold accept in A. injection A as A _. unfold group0, slice.
    rewrite <- A, Ei, St.
    rewrite skipn_app, skipn_all, Nat.sub_diag. cbn [skipn app].
    replace (S (length pre) + length p - length pre) with (S (length p)) by lia.
    cbn [firstn]. eexists. reflexivity.
  - unfold brace_re. cbn. auto.
  - unfold brace_re. cbn. intros x Hx. apply N.eqb_eq, Hx.
Qed.

Lemma strip_keeps_head x t : isspace x = false -> exists t', strip (x :: t) = x :: t'.
Proof.
  intros Hx. unfold strip, strip_by. cbn [lstrip_by]. rewrite Hx.
  rewrite rstrip_by_cons by exact Hx. eexists. reflexivity.
Qed.

Lemma parse_json_cases s v :
  _parse_json s = Some v ->
  loads (strip s) = Some v \/ (loads (strip s) = None /\ exists d, v = JObj d).
Proof.
  unfold _parse_json. destruct s as [|c s]; [discriminate|].
  destruct (loads (strip (c :: s))) as [w|]; [intros H; left; exact H|].
  destruct (re_search brace_re _) as [m|] eqn:E; [|discriminate].
  apply search_brace_group in E as (t & E). rewrite E.
  destruct (strip_keeps_head 123%N t eq_refl) as (t' & ->).
  destruct (loads (123%N :: t')) as [v'|] eqn:L; [|discriminate].
  intros H. injection H as <-. right. split; [reflexivity | eapply loads_brace, L].
Qed.

(** X11. When the response does not parse as a whole, all that
    [_parse_json] can return is a JSON object: the text it finds between
    braces starts with a brace. *)
Theorem parse_json_braces_object s v :
  loads (strip s) = None -> _parse_json s = Some v -> exists d, v = JObj d.
Proof.
  intros D H. destruct (parse_json_cases s v H) as [E|[_ O]]; [congruence | exact O].
Qed.

Lemma parse_json_braces_object_witness :
  exists d, _parse_json json_after_text = Some (JObj d).
Proof.
  destruct (parse_json_braces_object json_after_text
              (JObj [(u "summary", JStr (u "x")); (u "topics", JArr [JStr (u "a")])]))
    as (d & E).
  - vm_compute. reflexivity.
  - vm_compute. reflexivity.
  - exists d. rewrite <- E. vm_compute. reflexivity.
Defined.

(** ** The lists of a structured result *)

Lemma as_list_nonempty (py_repr : json -> str) v :
  Forall (fun x : str => x <> []) (_as_list py_repr v).
Proof.
  assert (One : forall w, Forall (fun x : str => x <> [])
                  (if nonempty (strip (py_str py_repr w)) then [strip (py_str py_repr w)] else [])).
  { intros w. destruct (strip (py_str py_repr w)) eqn:E; cbn [nonempty]; constructor;
      [discriminate | constructor]. }
  destruct v; cbn [_as_list]; try apply One; [constructor | |].
  - apply Forall_forall. intros x Hx. apply filter_In in Hx as [_ Hx].
    destruct x; [discriminate | discriminate].
  - apply Forall_forall. intros x Hx. apply in_map_iff in Hx as (y & <- & Hy).
    apply filter_In in Hy as [_ Hy]. destruct (strip (py_str py_repr y)); discriminate.
Qed.

Section Results.
Variable lower : str -> str.
Variable py_repr : json -> str.
Variable self : OllamaConfig.

(** The lists of a result hold no empty string. *)
Let clean (res : SummaryResult) : Prop :=
  Forall (fun x : str => x <> []) (Service.topics res ++ Service.decisions res ++ Service.tasks res ++ Service.speakers res).

Lemma structured_once_cases text language title net log :
  let prompt := _prompt_structured lower text language title false in
  match _ollama_call py_repr self prompt net log with
  | (Raise e, log') =>
      _summarize_structured_once lower py_repr self text language title net log = (Raise e, log')
  | (Ok out, log') =>
      (exists res, _summarize_structured_once lower py_repr self text language title net log
                   = (Ok res, log') /\ clean res)
      \/ (_summarize_structured_once lower py_repr self text language title net log
          = (Raise AttributeError, log')
          /\ exists v, loads (strip out) = Some v /\ truthy v = true /\ forall d, v <> JObj d)
  end.
Proof.
  cbn zeta. unfold _summarize_structured_once, bind.
  destruct (_ollama_call py_repr self _ net log) as [[out|e] log']; [|reflexivity].
  destruct (_parse_json out) as [v|] eqn:P; cbn [not_].
  - destruct (truthy v) eqn:T; cbn [negb].
    + destruct v as [| | | | |l|d];
        try (right; split; [reflexivity|];
             destruct (parse_json_cases out _ P) as [E|[_ [d O]]]; [|discriminate];
             eexists; split; [exact E | split; [exact T | discriminate]]).
      left. eexists. split; [reflexivity|].
      unfold clean. cbn [Service.topics Service.decisions Service.tasks Service.speakers].
      repeat (apply Forall_app; split); apply as_list_nonempty.
    + left. eexists. split; [reflexivity | constructor].
  - left. eexists. split; [reflexivity | constructor].
Qed.

(** X12. Once [_ollama_call] has returned a response, the only way for
    [_summarize_structured_once] to fail is a response that is, as a whole,
    JSON for a value that is true and not an object, which raises
    [AttributeError]; a response with text around its JSON never does. *)
Theorem structured_once_failure text language title net log out log' :
  _ollama_call py_repr self (_prompt_structured lower text language title false) net log
    = (Ok out, log') ->
  (exists res, _summarize_structured_once lower py_repr self text language title net log
               = (Ok res, log'))
  \/ (_summarize_structured_once lower py_repr self text language title net log
      = (Raise AttributeError, log')
      /\ exists v, loads (strip out) = Some v /\ truthy v = true /\ forall d, v <> JObj d).
Proof.
  intros C. pose proof (structured_once_cases text language title net log) as H.
  cbn zeta in H. rewrite C in H. destruct H as [(res & E & _)|H]; [left; eauto | right; exact H].
Qed.

Lemma summarize_chunks_raise chunks : forall idx language title net log e log1,
  summarize_chunks lower py_repr self chunks idx language title net log = (Raise e, log1) ->
  forall k : list str -> M SummaryResult,
  bind (summarize_chunks lower py_repr self chunks idx language title) k net log = (Raise e, log1).
Proof. intros idx language title net log e log1 H k. unfold bind. rewrite H. reflexivity. Qed.

(** X13. The topics, decisions, tasks and speakers of a result of
    [summarize_structured] hold no empty string. *)
Theorem summarize_structured_items text title language net log res log' :
  summarize_structured lower py_repr self text title language net log = (Ok res, log') ->
  Forall (fun x : str => x <> []) (Service.topics res ++ Service.decisions res ++ Service.tasks res ++ Service.speakers res).
Proof.
  assert (Once : forall t net log res log',
            _summarize_structured_once lower py_repr self t language title net log = (Ok res, log')
            -> clean res).
  { intros t n l r l' E. pose proof (structured_once_cases t language title n l) as H.
    cbn zeta in H. destruct (_ollama_call py_repr self _ n l) as [[out|e] l1].
    - destruct H as [(r' & E' & C)|[E' _]]; rewrite E in E'; [|discriminate].
      injection E' as <- _. exact C.
    - rewrite E in H. discriminate. }
  unfold summarize_structured. destruct (nonempty (strip text)); cbn [negb].
  - destruct (12000 <? len (strip text))%N; [|apply Once].
    unfold bind at 1. destruct (summarize_chunks _ _ _ _ _ _ _ net log) as [[ss|e] l1];
      [apply Once | discriminate].
  - intros E. injection E as <- _. constructor.
Qed.

End Results.

Lemma structured_once_failure_witness :
  _summarize_structured_once ascii_lower no_repr local_ollama (u "One.") (u "en") (u "t")
    (answering (u "[1]")) []
  = (Raise AttributeError,
     [chat_request local_ollama (_prompt_structured ascii_lower (u "One.") (u "en") (u "t") false)]).
Proof.
  destruct (structured_once_failure ascii_lower no_repr local_ollama (u "One.") (u "en") (u "t")
              (answering (u "[1]")) [] (u "[1]")
              [chat_request local_ollama
                 (_prompt_structured ascii_lower (u "One.") (u "en") (u "t") false)])
    as [(res & E)|[E _]].
  - vm_compute. reflexivity.
  - exfalso. revert E. vm_compute. discriminate.
  - exact E.
Defined.

Lemma summarize_structured_items_witness :
  Forall (fun x : str => x <> []) [u "a"].
Proof.
  apply (summarize_structured_items ascii_lower no_repr local_ollama json_after_text (u "t") (u "en")
           (answering json_after_text) []
           (MkSummaryResult (u "x") [u "a"] [] [] [])
           [chat_request local_ollama
              (_prompt_structured ascii_lower (strip json_after_text) (u "en") (u "t") false)]).
  vm_compute. reflexivity.
Defined.

(** ** The requests that are sent *)

Lemma quiet_bind (A B : Type) (m : M A) (f : A -> M B) net log :
  (forall a, quiet (f a)) -> snd (bind m f net log) = snd (m net log).
Proof.
  intros Q. unfold bind. destruct (m net log) as [[a|e] l]; [apply Q | reflexivity].
Qed.

Lemma quiet_ret (A : Type) (a : A) : quiet (ret a).
Proof. intros net log. reflexivity. Qed.

Lemma quiet_raise (A : Type) e : quiet (@raise A e).
Proof. intros net log. reflexivity. Qed.

Lemma quiet_py_get v k : quiet (py_get v k).
Proof. intros net log. destruct v; reflexivity. Qed.

Lemma quiet_py_strip v : quiet (py_strip v).
Proof. intros net log. destruct v; reflexivity. Qed.

Lemma quiet_then (A B : Type) (m : M A) (f : A -> M B) :
  quiet m -> (forall a, quiet (f a)) -> quiet (bind m f).
Proof. intros Qm Qf net log. rewrite quiet_bind by exact Qf. apply Qm. Qed.

Ltac quiet_steps :=
  repeat first
    [ apply quiet_ret | apply quiet_raise | apply quiet_py_get | apply quiet_py_strip
    | apply quiet_then; [|intro]
    | match goal with
      | |- quiet (match ?x with _ => _ end) => destruct x
      end
    | progress cbv beta zeta ].

Lemma to_ollama_chat self prompt : to_ollama self (chat_request self prompt).
Proof. split; [reflexivity | left; reflexivity]. Qed.

Lemma to_ollama_generate self prompt : to_ollama self (generate_request self prompt).
Proof. split; [reflexivity | right; reflexivity]. Qed.

Lemma ollama_call_sent py_repr self prompt net log :
  exists sent, snd (_ollama_call py_repr self prompt net log) = log ++ sent
               /\ length sent <= 2 /\ Forall (to_ollama self) sent.
Proof.
  unfold _ollama_call, try_except.
  pose proof (chat_attempt_log py_repr self prompt net log) as L.
  destruct (chat_attempt py_repr self prompt net log) as [[a|e] l]; cbn [snd] in L; subst l.
  - exists [chat_request self prompt]. cbn [snd length]. split; [reflexivity | split; [lia|]].
    constructor; [apply to_ollama_chat | constructor].
  - rewrite generate_attempt_log, <- app_assoc.
    exists [chat_request self prompt; generate_request self prompt].
    split; [reflexivity | split; [cbn [length]; lia|]].
    constructor; [apply to_ollama_chat | constructor; [apply to_ollama_generate | constructor]].
Qed.

Section Requests.
Variable lower : str -> str.
Variable py_repr : json -> str.
Variable self : OllamaConfig.

Lemma summarize_chunk_sent text language title net log :
  snd (_summarize_chunk lower py_repr self text language title net log)
  = snd (_ollama_call py_repr self (_prompt_structured lower text language title true) net log).
Proof.
  unfold _summarize_chunk. apply quiet_bind. intros out. quiet_steps.
Qed.

Lemma structured_once_sent text language title net log :
  snd (_summarize_structured_once lower py_repr self text language title net log)
  = snd (_ollama_call py_repr self (_prompt_structured lower text language title false) net log).
Proof.
  unfold _summarize_structured_once. apply quiet_bind. intros out. quiet_steps.
Qed.

Lemma summarize_chunks_sent chunks language title net : forall idx log,
  exists sent,
    snd (summarize_chunks lower py_repr self chunks idx language title net log) = log ++ sent
    /\ length sent <= 2 * length chunks /\ Forall (to_ollama self) sent.
Proof.
  induction chunks as [|ch rest IH]; intros idx log; cbn [summarize_chunks].
  - exists []. rewrite app_nil_r. split; [reflexivity | split; [cbn; lia | constructor]].
  - set (t := title ++ _).
    pose proof (summarize_chunk_sent ch language t net log) as E.
    destruct (ollama_call_sent py_repr self (_prompt_structured lower ch language t true) net log)
      as (s1 & E1 & L1 & F1).
    rewrite E1 in E. unfold bind at 1.
    destruct (_summarize_chunk lower py_repr self ch language t net log) as [[s|e] l1];
      cbn [snd] in E; subst l1.
    + rewrite quiet_bind by (intros ss net' log'; reflexivity).
      destruct (IH (idx + 1)%N (log ++ s1)) as (s2 & E2 & L2 & F2).
      exists (s1 ++ s2). rewrite E2, app_assoc. split; [reflexivity|].
      split; [rewrite length_app; cbn [length]; lia | apply Forall_app; split; assumption].
    + exists s1. split; [reflexivity | split; [cbn [length]; lia | exact F1]].
Qed.

(** X14. [summarize_structured] only adds to the log of requests, and what
    it adds are POSTs to [/api/chat] or [/api/generate] of the configured
    server with the configured timeout: none for a blank transcript, at
    most 2 for one of up to 12,000 characters, at most 14 for a longer
    one. *)
Theorem summarize_structured_requests text title language net log :
  exists sent,
    snd (summarize_structured lower py_repr self text title language net log) = log ++ sent
    /\ length sent <= most_requests text
    /\ Forall (to_ollama self) sent.
Proof.
  unfold summarize_structured, most_requests.
  destruct (nonempty (strip text)); cbn [negb].
  - destruct (12000 <? len (strip text))%N.
    + destruct (summarize_chunks_sent (_chunk_text (strip text) 6000 6) language title net 1%N log)
        as (s1 & E1 & L1 & F1).
      pose proof (chunk_text_count (strip text) 6000 6 eq_refl) as C. unfold len in C.
      unfold bind.
      destruct (summarize_chunks lower py_repr self _ 1%N language title net log) as [[ss|e] l1];
        cbn [snd] in E1; subst l1.
      * rewrite structured_once_sent.
        destruct (ollama_call_sent py_repr self
                    (_prompt_structured lower (join [10%N; 10%N] ss) language title false)
                    net (log ++ s1)) as (s2 & E2 & L2 & F2).
        exists (s1 ++ s2). rewrite E2, app_assoc. split; [reflexivity|].
        split; [rewrite length_app; lia | apply Forall_app; split; assumption].
      * exists s1. split; [reflexivity | split; [lia | exact F1]].
    + rewrite structured_once_sent.
      destruct (ollama_call_sent py_repr self
                  (_prompt_structured lower (strip text) language title false) net log)
        as (s2 & E2 & L2 & F2).
      exists s2. split; [exact E2 | split; [exact L2 | exact F2]].
  - exists []. rewrite app_nil_r. split; [reflexivity | split; [apply Nat.le_refl | constructor]].
Qed.

(** X15. What [_summarize_chunk] makes of a response that is a JSON
    object: a summary that is a string with content is returned, stripped;
    one that is missing, false or blank gives the fallback summary of the
    chunk; any other one, a number or a list, raises [AttributeError]. *)
Theorem summarize_chunk_object text language title net log out log' d :
  _ollama_call py_repr self (_prompt_structured lower text language title true) net log
    = (Ok out, log') ->
  _parse_json out = Some (JObj d) ->
  _summarize_chunk lower py_repr self text language title net log
  = (match Dict.get d (u "summary") with
     | Some (JStr s) => Ok (if nonempty (strip s) then strip s else _fallback_summary text)
     | Some v => if truthy v then Raise AttributeError else Ok (_fallback_summary text)
     | None => Ok (_fallback_summary text)
     end, log').
Proof.
  intros C P. unfold _summarize_chunk, bind at 1. rewrite C, P.
  destruct d as [|kv d]; [reflexivity|]. cbn [truthy].
  unfold bind, py_get, ret.
  destruct (Dict.get (kv :: d) (u "summary")) as [v|]; [|reflexivity].
  destruct v as [|b|z|f|s|l|o]; unfold or_; cbn [truthy]; try reflexivity.
  - destruct b; reflexivity.
  - destruct (negb (z =? 0)%Z); reflexivity.
  - destruct (float_nonzero f); reflexivity.
  - destruct s as [|c s]; [reflexivity|]. cbn [py_strip ret].
    destruct (nonempty (strip (c :: s))); reflexivity.
  - destruct l; reflexivity.
  - destruct o; reflexivity.
Qed.

(** X16. For a transcript that is blank, [summarize_meeting] sends no
    request and returns the report without content, in Arabic when the
    language starts with "ar" and in English otherwise. *)
Theorem summarize_meeting_blank text title language net log :
  strip text = [] ->
  summarize_meeting lower py_repr self text title language net log
  = (Ok (if startswith (u "ar") (lower language) then blank_report_ar else blank_report_en), log).
Proof.
  intros B. unfold summarize_meeting, summarize_structured, bind. rewrite B.
  cbn [nonempty negb ret]. unfold format_summary.
  destruct (startswith (u "ar") (lower language)); vm_compute; reflexivity.
Qed.

End Requests.

(** X17. When [/api/chat] answers with a status below 400 and a JSON object
    whose message is an object with a string as content, [_ollama_call]
    returns that string after this one request; [/api/generate] is not
    contacted. *)
Theorem ollama_call_chat_answer py_repr self prompt net log r d md c :
  net log (chat_request self prompt) = Responds r ->
  (status_code r < 400)%N ->
  loads (body r) = Some (JObj d) ->
  Dict.get d (u "message") = Some (JObj md) ->
  Dict.get md (u "content") = Some (JStr c) ->
  _ollama_call py_repr self prompt net log = (Ok c, log ++ [chat_request self prompt]).
Proof.
  intros Hr Hs Hb Hm Hc.
  unfold _ollama_call, try_except, chat_attempt, bind, post.
  fold (chat_request self prompt). rewrite Hr.
  destruct (N.eqb_spec (status_code r) 404); [lia|]. cbn [ret].
  unfold raise_for_status.
  destruct (N.leb_spec 400 (status_code r)); [lia|]. cbn [andb ret].
  unfold r_json. rewrite Hb. cbn [ret py_get]. rewrite Hm.
  destruct md as [|kv md]; [discriminate|]. cbn [or_ truthy py_get ret]. rewrite Hc.
  destruct c; reflexivity.
Qed.

Lemma summarize_chunk_object_witness :
  _summarize_chunk ascii_lower no_repr local_ollama (u "One.") (u "en") (u "t")
    (answering json_after_text) []
  = (Ok (u "x"),
     [chat_request local_ollama (_prompt_structured ascii_lower (u "One.") (u "en") (u "t") true)]).
Proof.
  apply (summarize_chunk_object ascii_lower no_repr local_ollama (u "One.") (u "en") (u "t")
           (answering json_after_text) [] json_after_text _
           [(u "summary", JStr (u "x")); (u "topics", JArr [JStr (u "a")])]).
  - vm_compute. reflexivity.
  - vm_compute. reflexivity.
Defined.

Lemma summarize_meeting_blank_witness :
  summarize_meeting ascii_lower no_repr local_ollama (u "  ") (u "t") (u "en")
    (answering (u "x")) []
  = (Ok blank_report_en, []).
Proof.
  apply (summarize_meeting_blank ascii_lower no_repr local_ollama (u "  ") (u "t") (u "en")
           (answering (u "x")) []).
  vm_compute. reflexivity.
Defined.

Lemma ollama_call_chat_answer_witness :
  _ollama_call no_repr local_ollama (u "p") (answering (u "hello")) []
  = (Ok (u "hello"), [chat_request local_ollama (u "p")]).
Proof.
  apply (ollama_call_chat_answer no_repr local_ollama (u "p") (answering (u "hello")) []
           (MkResponse 200 (u "{" ++ quoted (u "message") ++ u ":{" ++ quoted (u "content") ++ u ":"
                              ++ json_string (u "hello") ++ u "}}"))
           [(u "message", JObj [(u "content", JStr (u "hello"))])]
           [(u "content", JStr (u "hello"))] (u "hello")).
  - reflexivity.
  - vm_compute. reflexivity.
  - vm_compute. reflexivity.
  - vm_compute. reflexivity.
  - vm_compute. reflexivity.
Defined.

(** ** The chunks of [_chunk_text] *)

Lemma good_ends t : good t ->
  exists x r l y, t = x :: r /\ t = l ++ [y] /\ isspace x = false /\ isspace y = false.
Proof.
  intros [Ne E]. pose proof (strip_by_trimmed isspace t) as T.
  fold (strip t) in T. rewrite E in T. destruct T as [->|T]; [contradiction | exact T].
Qed.

Lemma ends_good t x r l y :
  t = x :: r -> t = l ++ [y] -> isspace x = false -> isspace y = false -> good t.
Proof.
  intros E1 E2 Hx Hy. split; [rewrite E1; discriminate|].
  apply trimmed_fixed. right. exists x, r, l, y. auto.
Qed.

Lemma good_app a m b : good a -> good b -> good (a ++ m ++ b).
Proof.
  intros Ga Gb.
  destruct (good_ends a Ga) as (x & r & _ & _ & -> & _ & Hx & _).
  destruct (good_ends b Gb) as (_ & _ & l & y & _ & -> & _ & Hy).
  apply (ends_good _ x (r ++ m ++ l ++ [y]) ((x :: r) ++ m ++ l) y); auto.
  rewrite <- !app_assoc. reflexivity.
Qed.

Lemma join_good sep buf : Forall good buf -> buf <> [] -> good (join sep buf).
Proof.
  induction 1 as [|t buf Ht Hb IH]; intros Ne; [contradiction|].
  destruct buf as [|t2 buf]; cbn [join]; [exact Ht|].
  apply good_app; [exact Ht | apply IH; discriminate].
Qed.

Lemma join_app sep (a b : list str) :
  a <> [] -> b <> [] -> join sep (a ++ b) = join sep a ++ sep ++ join sep b.
Proof.
  intros Na Nb. induction a as [|x a IH]; [contradiction|].
  destruct a as [|x2 a].
  - destruct b as [|y b]; [contradiction|]. reflexivity.
  - cbn [app join] in *. rewrite IH by discriminate. rewrite <- !app_assoc. reflexivity.
Qed.

Lemma join_concat sep (gs : list (list str)) :
  Forall (fun g => g <> []) gs -> join sep (map (join sep) gs) = join sep (concat gs).
Proof.
  induction 1 as [|g gs Hg Hgs IH]; [reflexivity|].
  destruct gs as [|g2 gs].
  - cbn [map join concat]. rewrite app_nil_r. reflexivity.
  - cbn [map join concat] in *. rewrite IH. symmetry. apply join_app; [exact Hg|].
    inversion Hgs as [|? ? H2 _]; subst. destruct g2; [contradiction | discriminate].
Qed.

Lemma chunk_loop_parts (P : str -> Prop) cs mc tokens :
  (forall s, P (strip s)) -> forall st,
  Forall P (fst (fst st)) -> Forall P (fst (fst (chunk_loop cs mc tokens st))).
Proof.
  intros HP. induction tokens as [|token rest IH]; intros [[parts buf] size] H;
    cbn [chunk_loop]; [exact H|].
  destruct (negb (nonempty token)); [apply IH, H|].
  destruct (negb (nonempty (strip token))); [apply IH, H|].
  assert (F : Forall P (fst (fst (flush (parts, buf, size))))).
  { unfold flush. destruct buf; [exact H|]. cbn [fst] in *.
    apply Forall_app. split; [exact H | constructor; [apply HP | constructor]]. }
  destruct (cs <? size + len (strip token) + 1)%N; [|apply IH, H].
  destruct (flush (parts, buf, size)) as [[parts' buf'] size'].
  destruct (mc <=? len parts')%N; [exact F | apply IH, F].
Qed.

(** X18. Every chunk that [_chunk_text] returns has content and neither
    starts nor ends with white space. *)
Theorem chunk_text_chunks_trimmed text cs mc :
  Forall (fun c : str => c <> [] /\ strip c = c) (_chunk_text text cs mc).
Proof.
  pose proof (raw_parts_nonempty cs mc (re_split_keep chunk_sep_re text)) as N.
  rewrite chunk_text_parts. unfold raw_parts, finish in *.
  pose proof (chunk_loop_parts (fun c => strip c = c) cs mc (re_split_keep chunk_sep_re text)
                strip_idempotent ([], [], 0%N) (Forall_nil _)) as T.
  destruct (chunk_loop cs mc _ _) as [[parts buf] size]. cbn [fst] in *.
  assert (T' : Forall (fun c => strip c = c)
                 (fst (fst (if (len parts <? mc)%N then flush (parts, buf, size)
                            else (parts, buf, size))))).
  { destruct (len parts <? mc)%N; [|exact T]. unfold flush. destruct buf; [exact T|].
    cbn [fst]. apply Forall_app. split; [exact T|].
    constructor; [apply strip_idempotent | constructor]. }
  rewrite Forall_forall in *. intros c Hc. split; [apply N, Hc | apply T', Hc].
Qed.

Lemma flush_grouped gs parts buf size :
  grouped gs (parts, buf, size) ->
  exists gs', grouped gs' (flush (parts, buf, size))
              /\ snd (fst (flush (parts, buf, size))) = []
              /\ concat gs' = concat gs ++ buf.
Proof.
  intros (Ep & Gg & Gb). unfold flush. destruct buf as [|t buf].
  - exists gs. rewrite app_nil_r. repeat split; auto.
  - exists (gs ++ [t :: buf]). cbn [fst snd]. split; [|split; [reflexivity|]].
    + split; [|split; [|constructor]].
      * rewrite map_app, Ep. cbn [map]. f_equal. f_equal.
        apply (join_good (u " ") (t :: buf) Gb). discriminate.
      * apply Forall_app. split; [exact Gg|].
        constructor; [split; [discriminate | exact Gb] | constructor].
    + rewrite concat_app. cbn [concat]. rewrite app_nil_r. reflexivity.
Qed.

Lemma chunk_loop_grouped cs mc tokens : forall gs st,
  grouped gs st ->
  let st' := chunk_loop cs mc tokens st in
  (mc <= len (fst (fst st')))%N
  \/ exists gs', grouped gs' st'
                 /\ concat gs' ++ snd (fst st')
                    = concat gs ++ snd (fst st) ++ filter nonempty (map strip tokens).
Proof.
  induction tokens as [|token rest IH]; intros gs [[parts buf] size] G; cbn zeta;
    cbn [chunk_loop map filter fst snd].
  - right. exists gs. rewrite app_nil_r. split; [exact G | reflexivity].
  - destruct token as [|c token]; cbn [nonempty negb].
    + change (strip []) with (@nil N). cbn [nonempty]. apply (IH gs (parts, buf, size) G).
    + destruct (nonempty (strip (c :: token))) eqn:Ht; cbn [negb];
        [|apply (IH gs (parts, buf, size) G)].
      set (t := strip (c :: token)) in *.
      assert (Gt : good t).
      { split; [intros E; rewrite E in Ht; discriminate | apply strip_idempotent]. }
      destruct (cs <? size + len t + 1)%N.
      * destruct (flush_grouped gs parts buf size G) as (gs1 & G1 & B1 & C1).
        destruct (flush (parts, buf, size)) as [[parts' buf'] size'].
        cbn [fst snd] in B1. subst buf'.
        destruct (N.leb_spec mc (len parts')) as [Hm|Hm]; [left; exact Hm|].
        destruct (IH gs1 (parts', [] ++ [t], (size' + len t + 1)%N)) as [L|(gs' & G' & E')].
        -- destruct G1 as (Ep & Gg & _). split; [exact Ep | split; [exact Gg|]].
           constructor; [exact Gt | constructor].
        -- left. exact L.
        -- right. exists gs'. split; [exact G'|]. cbn zeta in E'. rewrite E', C1.
           cbn [fst snd app]. rewrite <- app_assoc. reflexivity.
      * destruct (IH gs (parts, buf ++ [t], (size + len t + 1)%N)) as [L|(gs' & G' & E')].
        -- destruct G as (Ep & Gg & Gb). split; [exact Ep | split; [exact Gg|]].
           apply Forall_app. split; [exact Gb | constructor; [exact Gt | constructor]].
        -- left. exact L.
        -- right. exists gs'. split; [exact G'|]. cbn zeta in E'. rewrite E'.
           cbn [fst snd]. rewrite <- app_assoc. reflexivity.
Qed.

(** X19. When [_chunk_text] returns fewer chunks than the cap allows,
    nothing of the text is lost: the chunks, joined by spaces, are the
    tokens that the loop keeps, joined by spaces. *)
Theorem chunk_text_keeps_all text cs mc :
  (len (_chunk_text text cs mc) < mc)%N ->
  join (u " ") (_chunk_text text cs mc) = join (u " ") (kept_tokens text).
Proof.
  rewrite chunk_text_parts. unfold raw_parts, finish, kept_tokens.
  destruct (chunk_loop_grouped cs mc (re_split_keep chunk_sep_re text) [] ([], [], 0%N))
    as [L|(gs & G & E)].
  - split; [reflexivity | split; constructor].
  - cbn zeta in L. intros H. exfalso. revert H L.
    destruct (chunk_loop cs mc _ _) as [[parts buf] size]. cbn [fst].
    destruct (N.ltb_spec (len parts) mc); [lia|]. cbn [fst]. lia.
  - cbn zeta in E. cbn [concat fst snd app] in E. rewrite <- E. clear E. revert G.
    destruct (chunk_loop cs mc _ _) as [[parts buf] size]. cbn [fst snd]. intros G.
    destruct (N.ltb_spec (len parts) mc) as [Hm|Hm]; [|cbn [fst]; lia].
    intros _.
    destruct (flush_grouped gs parts buf size G) as (gs1 & G1 & _ & C1).
    destruct (flush (parts, buf, size)) as [[parts' buf'] size']. cbn [fst].
    destruct G1 as (-> & Gg & _). rewrite <- C1. apply join_concat.
    rewrite Forall_forall in *. intros g Hg. apply (Gg g Hg).
Qed.

Lemma chunk_text_keeps_all_witness :
  join (u " ") (_chunk_text (u "One. Two! Three") 8 6) = u "One . Two ! Three".
Proof.
  rewrite (chunk_text_keeps_all (u "One. Two! Three") 8 6).
  - vm_compute. reflexivity.
  - vm_compute. reflexivity.
Defined.

(** ** The order of the bullets *)

Lemma StronglySorted_remove (A : Type) (R : A -> A -> Prop) l1 x l2 :
  StronglySorted R (l1 ++ x :: l2) -> StronglySorted R (l1 ++ l2).
Proof.
  induction l1 as [|y l1 IH]; cbn [app]; intros H; inversion H as [|? ? Hs Hf]; subst.
  - exact Hs.
  - constructor; [apply IH, Hs|].
    apply Forall_app in Hf as [F1 F2]. inversion F2; subst. apply Forall_app. auto.
Qed.

Lemma StronglySorted_map_keys (A B : Type) (f : A -> B) (R : B -> B -> Prop) l :
  StronglySorted (fun a b => R (f a) (f b)) l -> StronglySorted R (map f l).
Proof.
  induction 1 as [|x l Hs IH Hf]; cbn [map]; constructor; [exact IH|].
  apply Forall_map. exact Hf.
Qed.

Lemma StronglySorted_weaken (A : Type) (R R' : A -> A -> Prop) l :
  (forall a b, In a l -> In b l -> R a b -> R' a b) ->
  StronglySorted R l -> StronglySorted R' l.
Proof.
  intros W H. induction H as [|x l Hs IH Hf]; constructor.
  - apply IH. intros a b Ha Hb. apply W; right; assumption.
  - rewrite Forall_forall in *. intros y Hy. apply W; [left; reflexivity | right; exact Hy|].
    apply Hf, Hy.
Qed.

Lemma dedupe_sorted (R : str -> str -> Prop) top : forall seen bullets,
  StronglySorted R (bullets ++ top) -> StronglySorted R (dedupe top seen bullets).
Proof.
  induction top as [|s top IH]; intros seen bullets H; cbn [dedupe].
  - rewrite app_nil_r in H. exact H.
  - destruct (negb (mem (firstn 60 s) seen)).
    + apply IH. rewrite <- app_assoc. exact H.
    + apply IH. eapply StronglySorted_remove, H.
Qed.

Lemma dedupe_keeps top : forall seen bullets b,
  In b bullets -> In b (dedupe top seen bullets).
Proof.
  induction top as [|s top IH]; intros seen bullets b H; cbn [dedupe]; [exact H|].
  destruct (negb (mem (firstn 60 s) seen)); apply IH; [apply in_or_app; left; exact H | exact H].
Qed.

Lemma dedupe_covers top : forall seen bullets,
  (forall k, In k seen -> exists b, In b bullets /\ firstn 60 b = k) ->
  forall s, In s top ->
  exists b, In b (dedupe top seen bullets) /\ firstn 60 b = firstn 60 s.
Proof.
  induction top as [|t top IH]; intros seen bullets Seen s Hs; [destruct Hs|].
  cbn [dedupe]. destruct (mem (firstn 60 t) seen) eqn:E; cbn [negb].
  - destruct Hs as [<-|Hs]; [|apply IH; assumption].
    apply mem_In in E. destruct (Seen _ E) as (b & Hb & Eb).
    exists b. split; [apply dedupe_keeps, Hb | exact Eb].
  - assert (Seen' : forall k, In k (firstn 60 t :: seen) ->
                      exists b, In b (bullets ++ [t]) /\ firstn 60 b = k).
    { intros k [<-|Hk].
      - exists t. split; [apply in_or_app; right; left; reflexivity | reflexivity].
      - destruct (Seen k Hk) as (b & Hb & Eb). exists b.
        split; [apply in_or_app; left; exact Hb | exact Eb]. }
    destruct Hs as [<-|Hs]; [|apply IH; assumption].
    exists t. split; [|reflexivity].
    apply dedupe_keeps, in_or_app. right. left. reflexivity.
Qed.

Section Bullets.
Variable lower : str -> str.
Variables ar en : pyset.
Variable full_text : str.

Let sentences := _split_sentences full_text.
Let sc := score lower (_top_keywords lower ar en sentences 12).
Let ranked := sorted_desc fst (map (fun s => (sc s, s)) sentences).

Lemma ranked_scores p : In p ranked -> fst p = sc (snd p) /\ In (snd p) sentences.
Proof.
  intros H. apply (Permutation_in _ (sorted_desc_perm _ _ _)) in H.
  apply in_map_iff in H as (s & <- & H). split; [reflexivity | exact H].
Qed.

Lemma ranked_sorted : StronglySorted (fun a b => (sc (snd b) <= sc (snd a))%Z) ranked.
Proof.
  apply (StronglySorted_weaken _ (fun a b => (fst b <= fst a)%Z)); [|apply sorted_desc_sorted].
  intros a b Ha Hb H. rewrite <- (proj1 (ranked_scores a Ha)), <- (proj1 (ranked_scores b Hb)).
  exact H.
Qed.

(** X20. The bullets come in the order of their scores, highest first;
    and a sentence that scores more than one of the bullets is itself a
    bullet, or begins with the same 60 characters as one. *)
Theorem bullets_ranked :
  let r := build_smart_summary lower ar en full_text in
  StronglySorted (fun a b => (bullet_score lower ar en full_text b
                              <= bullet_score lower ar en full_text a)%Z) (bullets r)
  /\ forall b s, In b (bullets r) -> In s (_split_sentences full_text) ->
       (bullet_score lower ar en full_text b < bullet_score lower ar en full_text s)%Z ->
       exists b', In b' (bullets r) /\ firstn 60 b' = firstn 60 s.
Proof.
  change (bullet_score lower ar en full_text) with sc.
  change (_split_sentences full_text) with sentences.
  cbn zeta. unfold build_smart_summary. cbn [bullets].
  fold sentences. fold sc. fold ranked.
  pose proof ranked_sorted as S.
  split.
  - apply dedupe_sorted. cbn [app]. apply StronglySorted_map_keys.
    apply StronglySorted_firstn, S.
  - intros b s Hb Hs Lt. apply dedupe_covers; [intros k []|].
    apply dedupe_incl in Hb as [[]|Hb].
    apply in_map_iff in Hb as (pb & <- & Hb).
    assert (Hp : In (sc s, s) ranked).
    { apply (Permutation_in _ (Permutation_sym (sorted_desc_perm _ _ _))).
      apply in_map_iff. exists s. split; [reflexivity | exact Hs]. }
    rewrite <- (firstn_skipn 10 ranked) in Hp, S.
    apply in_app_or in Hp as [Hp|Hp].
    + apply in_map_iff. exists (sc s, s). split; [reflexivity | exact Hp].
    + exfalso. pose proof (StronglySorted_app_le _ _ _ _ S pb (sc s, s) Hb Hp) as Le.
      cbn [snd] in Le. lia.
Qed.

End Bullets.

(** ** The base URL *)

Lemma rstrip_by_keep p l y : p y = false -> rstrip_by p (l ++ [y]) = l ++ [y].
Proof.
  intros Hy. unfold rstrip_by. rewrite !reversed_rev, rev_app_distr. cbn [rev app lstrip_by].
  rewrite Hy. cbn [rev]. rewrite rev_involutive. reflexivity.
Qed.

Lemma rstrip_by_drop p l y : p y = true -> rstrip_by p (l ++ [y]) = rstrip_by p l.
Proof.
  intros Hy. unfold rstrip_by. rewrite !reversed_rev, rev_app_distr. cbn [rev app lstrip_by].
  rewrite Hy. reflexivity.
Qed.

Lemma startswith_app p s : startswith p (p ++ s) = true.
Proof. induction p as [|x p IH]; cbn [app startswith]; [reflexivity|]. rewrite N.eqb_refl. exact IH. Qed.

Lemma endswith_app p b : endswith p (b ++ p) = true.
Proof. unfold endswith. rewrite rev_app_distr. apply startswith_app. Qed.

Lemma endswith_last y l : endswith [y] (l ++ [y]) = true.
Proof. apply endswith_app. Qed.

Lemma strip_fixed_ends b :
  strip b = b -> b = [] \/ exists l y, b = l ++ [y] /\ isspace y = false.
Proof.
  intros E. pose proof (strip_by_trimmed isspace b) as T. fold (strip b) in T. rewrite E in T.
  destruct T as [->|(x & t & l & y & _ & El & _ & Hy)]; [left; reflexivity | right; eauto].
Qed.

Lemma strip_fixed_app b suffix :
  strip b = b -> good suffix -> strip (b ++ suffix) = b ++ suffix.
Proof.
  intros E G. destruct b as [|x t]; [exact (proj2 G)|].
  assert (Gb : good (x :: t)) by (split; [discriminate | exact E]).
  pose proof (good_app (x :: t) [] suffix Gb G) as [_ F]. exact F.
Qed.

(** X21. [__init__] brings the spellings of a server address to one: for
    an address [b] without white space around it that ends neither with a
    slash nor with [/api], the addresses [b], [b/], [b/api] and [b/api/]
    all give the base URL [b]. *)
Theorem normalize_base_url_spellings b :
  strip b = b -> endswith (u "/") b = false -> endswith (u "/api") b = false ->
  normalize_base_url b = b
  /\ normalize_base_url (b ++ u "/") = b
  /\ normalize_base_url (b ++ u "/api") = b
  /\ normalize_base_url (b ++ u "/api/") = b.
Proof.
  intros E Hs Ha.
  set (slash := fun c : N => existsb (N.eqb c) (u "/")).
  assert (R : rstrip_by slash b = b).
  { destruct (strip_fixed_ends b E) as [->|(l & y & -> & _)]; [reflexivity|].
    apply rstrip_by_keep. unfold endswith in Hs. rewrite rev_app_distr in Hs.
    cbn [rev app] in Hs. change (u "/") with [47%N] in Hs. cbn [rev app startswith] in Hs.
    unfold slash. change (u "/") with [47%N]. cbn [existsb].
    rewrite N.eqb_sym, orb_false_r. rewrite andb_true_r in Hs. exact Hs. }
  assert (Rapi : rstrip_by slash (b ++ u "/api") = b ++ u "/api").
  { change (u "/api") with ([47; 97; 112]%N ++ [105%N]). rewrite app_assoc.
    apply rstrip_by_keep. reflexivity. }
  assert (B : normalize_base_url b = b).
  { unfold normalize_base_url, rstrip_chars. fold slash. rewrite E, R, Ha. reflexivity. }
  assert (A : normalize_base_url (b ++ u "/api") = b).
  { unfold normalize_base_url, rstrip_chars. fold slash.
    rewrite (strip_fixed_app b (u "/api") E) by (split; [discriminate | reflexivity]).
    rewrite Rapi, endswith_app, length_app.
    replace (length b + length (u "/api") - 4) with (length b + 0) by (cbn; lia).
    rewrite firstn_app_2. cbn [firstn]. apply app_nil_r. }
  split; [exact B | split; [|split; [exact A|]]].
  - unfold normalize_base_url, rstrip_chars. fold slash.
    rewrite (strip_fixed_app b (u "/") E) by (split; [discriminate | reflexivity]).
    change (u "/") with [47%N]. rewrite (rstrip_by_drop slash b 47%N eq_refl), R, Ha.
    reflexivity.
  - unfold normalize_base_url, rstrip_chars. fold slash.
    rewrite (strip_fixed_app b (u "/api/") E) by (split; [discriminate | reflexivity]).
    change (u "/api/") with (u "/api" ++ [47%N]). rewrite app_assoc.
    rewrite (rstrip_by_drop slash (b ++ u "/api") 47%N eq_refl), Rapi, endswith_app, length_app.
    replace (length b + length (u "/api") - 4) with (length b + 0) by (cbn; lia).
    rewrite firstn_app_2. cbn [firstn]. apply app_nil_r.
Qed.

Lemma normalize_base_url_spellings_witness :
  normalize_base_url (u "http://127.0.0.1:11434") = u "http://127.0.0.1:11434"
  /\ normalize_base_url (u "http://127.0.0.1:11434" ++ u "/") = u "http://127.0.0.1:11434"
  /\ normalize_base_url (u "http://127.0.0.1:11434" ++ u "/api") = u "http://127.0.0.1:11434"
  /\ normalize_base_url (u "http://127.0.0.1:11434" ++ u "/api/") = u "http://127.0.0.1:11434".
Proof.
  apply (normalize_base_url_spellings (u "http://127.0.0.1:11434")); vm_compute; reflexivity.
Defined.

(** ** The answer of the fallback route, and lists given as text *)

(** X22. When the chat attempt fails and [/api/generate] answers with a
    status below 400 and a JSON object whose response is a string,
    [_ollama_call] returns that string; the two requests are all it
    sends. *)
Theorem ollama_call_generate_answer py_repr self prompt net log e r d c :
  fst (chat_attempt py_repr self prompt net log) = Raise e ->
  net (log ++ [chat_request self prompt]) (generate_request self prompt) = Responds r ->
  (status_code r < 400)%N ->
  loads (body r) = Some (JObj d) ->
  Dict.get d (u "response") = Some (JStr c) ->
  _ollama_call py_repr self prompt net log
  = (Ok c, log ++ [chat_request self prompt; generate_request self prompt]).
Proof.
  intros F Hr Hs Hb Hc. rewrite (ollama_call_after_failure _ _ _ _ _ _ F).
  unfold generate_attempt, bind, post. fold (generate_request self prompt). rewrite Hr.
  unfold raise_for_status.
  destruct (N.leb_spec 400 (status_code r)); [lia|]. cbn [andb ret].
  unfold r_json. rewrite Hb. cbn [ret py_get]. rewrite Hc, <- app_assoc.
  destruct c; reflexivity.
Qed.

Lemma ollama_call_generate_answer_witness :
  _ollama_call no_repr local_ollama (u "p") moved []
  = (Ok (u "ok"), [chat_request local_ollama (u "p"); generate_request local_ollama (u "p")]).
Proof.
  apply (ollama_call_generate_answer no_repr local_ollama (u "p") moved [] (HTTPError 404)
           (MkResponse 302 (u "{" ++ quoted (u "response") ++ u ":" ++ quoted (u "ok") ++ u "}"))
           [(u "response", JStr (u "ok"))] (u "ok")).
  - vm_compute. reflexivity.
  - reflexivity.
  - vm_compute. reflexivity.
  - vm_compute. reflexivity.
  - vm_compute. reflexivity.
Defined.

(** X23. When the model gives a list as one string, [_as_list] makes an
    item of each line that has content besides spaces, hyphens, bullets and
    tabs, and removes these characters from both ends of it. *)
Theorem as_list_of_text py_repr s :
  Forall (fun x => x <> [] /\ trimmed bullet_mark x) (_as_list py_repr (JStr s)).
Proof.
  cbn [_as_list]. apply Forall_forall. intros x Hx. apply filter_In in Hx as [Hx Ne].
  split; [intros ->; discriminate|].
  apply in_map_iff in Hx as (ln & <- & _). apply strip_by_trimmed.
Qed.

(** * Responses that give no structured result, call by call *)

(** ** What the fallback returns *)

Lemma match_len_gap prev s :
  match_len sentence_gap_re prev s
  = match prev with
    | Some m =>
        if sentence_mark m
        then if 1 <=? prefix_len ws s then Some (prefix_len ws s) else None
        else None
    | None => None
    end.
Proof.
  unfold match_len, sentence_gap_re, Re.plus. cbn [mt].
  destruct prev as [m|]; [|reflexivity]. fold (sentence_mark m).
  destruct (sentence_mark m); [|reflexivity].
  rewrite (rep_all _ (fun i' => (i', @nil (nat * (nat * nat))))).
  destruct (1 <=? prefix_len ws s); reflexivity.
Qed.

Lemma scan_sentences s :
  (forall prev cur,
     prev = match cur with m :: _ => Some m | [] => None end ->
     map fst (fst (scan sentence_gap_re prev s 0 cur)) ++ [snd (scan sentence_gap_re prev s 0 cur)]
     = sentences_from s cur false)
  /\ (forall prev,
        map fst (fst (scan sentence_gap_re prev s (prefix_len ws s) []))
          ++ [snd (scan sentence_gap_re prev s (prefix_len ws s) [])]
        = sentences_from s [] true).
Proof.
  assert (NoGap : forall prev : option N,
            match prev with
            | Some m => if sentence_mark m then if 1 <=? 0 then Some 0 else None else None
            | None => None
            end = None).
  { intros [m|]; [destruct (sentence_mark m)|]; reflexivity. }
  induction s as [|x s [IH1 IH2]]; [split; reflexivity|].
  split.
  - intros prev cur Hp. destruct (isspace x) eqn:Sx.
    + cbn [scan sentences_from]. rewrite match_len_gap. cbn [prefix_len].
      change (ws x) with (isspace x). rewrite Sx. cbn [andb Nat.leb].
      subst prev. destruct cur as [|m cur].
      * apply IH1. reflexivity.
      * destruct (sentence_mark m); [|apply IH1; reflexivity].
        specialize (IH2 (Some x)).
        destruct (scan sentence_gap_re (Some x) s (prefix_len ws s) []) as [hits last].
        cbn [fst snd map app] in *. rewrite IH2. reflexivity.
    + cbn [scan sentences_from]. rewrite match_len_gap. cbn [prefix_len].
      change (ws x) with (isspace x). rewrite Sx. cbn [andb].
      rewrite NoGap. apply IH1. reflexivity.
  - intros prev. destruct (isspace x) eqn:Sx.
    + cbn [prefix_len sentences_from]. change (ws x) with (isspace x). rewrite Sx.
      cbn [scan]. apply IH2.
    + cbn [prefix_len sentences_from]. change (ws x) with (isspace x). rewrite Sx.
      cbn [scan]. rewrite match_len_gap. cbn [prefix_len].
      change (ws x) with (isspace x). rewrite Sx.
      rewrite NoGap. apply IH1. reflexivity.
Qed.

Lemma re_split_sentences s : re_split sentence_gap_re s = sentences_from s [] false.
Proof.
  unfold re_split. rewrite <- (proj1 (scan_sentences s) None [] eq_refl).
  destruct (scan sentence_gap_re None s 0 []) as [hits last]. reflexivity.
Qed.

Lemma sentence_mark_not_space m : sentence_mark m = true -> isspace m = false.
Proof.
  unfold sentence_mark, one_of. change (u ".!؟?") with [46; 33; 1567; 63]%N.
  cbn [existsb]. rewrite !orb_true_iff.
  intros [E|[E|[E|[E|E]]]]; try discriminate; apply N.eqb_eq in E; subst m; reflexivity.
Qed.

Lemma ends_after_space a x s :
  isspace x = true ->
  (exists l y, a ++ x :: s = l ++ [y] /\ isspace y = false) ->
  exists l y, s = l ++ [y] /\ isspace y = false.
Proof.
  intros Sx (l & y & E & Hy).
  destruct (exists_last (l := s)) as (l' & y' & ->).
  - intros ->. apply (f_equal (@rev N)) in E. rewrite !rev_app_distr in E. cbn [rev app] in E.
    injection E as E _. congruence.
  - exists l', y'. split; [reflexivity|].
    apply (f_equal (@rev N)) in E. rewrite !rev_app_distr in E. cbn [rev] in E.
    rewrite rev_app_distr in E. cbn [rev app] in E. injection E as E _. congruence.
Qed.

Lemma sentences_from_good s :
  (forall cur,
     (exists x r, rev cur = x :: r /\ isspace x = false) ->
     (exists l y, rev cur ++ s = l ++ [y] /\ isspace y = false) ->
     Forall good (sentences_from s cur false))
  /\ ((exists l y, s = l ++ [y] /\ isspace y = false) ->
      Forall good (sentences_from s [] true)).
Proof.
  induction s as [|x s [IH1 IH2]].
  - split.
    + intros cur (x & r & Ex & Hx) (l & y & Ey & Hy). rewrite app_nil_r in Ey.
      cbn [sentences_from]. rewrite reversed_rev. constructor; [|constructor].
      apply (ends_good _ x r l y); assumption.
    + intros (l & y & E & _). destruct l; discriminate.
  - split.
    + intros cur (x0 & r & Ex & Hx) E. cbn [sentences_from].
      destruct (isspace x) eqn:Sx; cbn [andb].
      * destruct cur as [|m cur]; [discriminate|].
        destruct (sentence_mark m) eqn:Mm.
        -- constructor.
           ++ rewrite reversed_rev. apply (ends_good _ x0 r (rev cur) m); auto.
              apply sentence_mark_not_space, Mm.
           ++ apply IH2. eapply ends_after_space; eassumption.
        -- apply IH1.
           ++ change (rev (x :: m :: cur)) with (rev (m :: cur) ++ [x]).
              rewrite Ex. exists x0, (r ++ [x]). auto.
           ++ change (rev (x :: m :: cur)) with (rev (m :: cur) ++ [x]).
              rewrite <- app_assoc. exact E.
      * apply IH1.
        -- change (rev (x :: cur)) with (rev cur ++ [x]).
           rewrite Ex. exists x0, (r ++ [x]). auto.
        -- change (rev (x :: cur)) with (rev cur ++ [x]).
           rewrite <- app_assoc. exact E.
    + intros E. cbn [sentences_from]. destruct (isspace x) eqn:Sx.
      * apply IH2. apply (ends_after_space [] x s Sx E).
      * apply IH1; [exists x, []; auto | exact E].
Qed.

Lemma good_pieces_kept (l : list str) :
  Forall good l -> map strip (filter (fun s => nonempty (strip s)) l) = l.
Proof.
  induction 1 as [|s l [Ne St] _ IH]; [reflexivity|].
  cbn [filter]. rewrite St. destruct s as [|c s]; [contradiction|].
  cbn [nonempty map]. rewrite St, IH. reflexivity.
Qed.

Lemma fallback_summary_extractive text : _fallback_summary text = extractive_fallback text.
Proof.
  unfold _fallback_summary, extractive_fallback, sentences_of.
  rewrite re_split_sentences.
  destruct (strip text) as [|x t] eqn:E; [reflexivity|].
  rewrite good_pieces_kept; [reflexivity|].
  assert (G : good (x :: t)).
  { split; [discriminate|]. rewrite <- E. apply strip_idempotent. }
  destruct (good_ends _ G) as (x0 & r & l & y & E1 & E2 & Hx & Hy).
  injection E1 as <- <-.
  cbn [sentences_from]. rewrite Hx. cbn [andb].
  apply (proj1 (sentences_from_good t)).
  - exists x, []. auto.
  - exists l, y. auto.
Qed.

Lemma fallback_summary_cap text : (len (_fallback_summary text) <= 1200)%N.
Proof.
  unfold _fallback_summary, len.
  pose proof (firstn_le_length 1200
                (join (u " ")
                   (firstn 5 (map strip (filter (fun s => nonempty (strip s))
                                           (re_split sentence_gap_re (strip text))))))) as L.
  lia.
Qed.

(** ** One call whose response gives no true value *)

Section NotParsed.
Variable lower : str -> str.
Variable py_repr : json -> str.
Variable self : OllamaConfig.
Variable net : network.

Lemma structured_once_not_parsed text language title log out log' :
  _ollama_call py_repr self (_prompt_structured lower text language title false) net log
    = (Ok out, log') ->
  not_ (_parse_json out) = true ->
  _summarize_structured_once lower py_repr self text language title net log
  = (Ok (empty_result (_fallback_summary text)), log').
Proof.
  intros C P. unfold _summarize_structured_once, bind. rewrite C, P. reflexivity.
Qed.

Lemma summarize_chunk_not_parsed text language title log out log' :
  _ollama_call py_repr self (_prompt_structured lower text language title true) net log
    = (Ok out, log') ->
  not_ (_parse_json out) = true ->
  _summarize_chunk lower py_repr self text language title net log
  = (Ok (_fallback_summary text), log').
Proof.
  intros C P. unfold _summarize_chunk, bind. rewrite C. unfold not_ in P.
  destruct (_parse_json out) as [v|]; [|reflexivity].
  destruct (truthy v); [discriminate | reflexivity].
Qed.

Lemma summarize_structured_final title language text log t l :
  final_call lower py_repr self net title language text log t l ->
  summarize_structured lower py_repr self text title language net log
  = _summarize_structured_once lower py_repr self t language title net l.
Proof.
  intros [Ne F]. unfold summarize_structured.
  destruct (strip text) as [|c T] eqn:E; [contradiction|].
  cbn [nonempty negb].
  destruct (12000 <? len (c :: T))%N.
  - destruct F as (ss & S & ->). unfold bind. rewrite S. reflexivity.
  - destruct F as [-> ->]. reflexivity.
Qed.

Lemma final_call_short title language text log t l :
  final_call lower py_repr self net title language text log t l ->
  (len (strip text) <= 12000)%N -> t = strip text /\ l = log.
Proof.
  intros [_ F] L. destruct (N.ltb_spec 12000 (len (strip text))); [lia | exact F].
Qed.

Lemma summarize_structured_not_parsed title language text log t l out log' :
  final_call lower py_repr self net title language text log t l ->
  _ollama_call py_repr self (_prompt_structured lower t language title false) net l
    = (Ok out, log') ->
  not_ (_parse_json out) = true ->
  summarize_structured lower py_repr self text title language net log
  = (Ok (empty_result (_fallback_summary t)), log').
Proof.
  intros F C P. rewrite (summarize_structured_final _ _ _ _ _ _ F).
  apply (structured_once_not_parsed _ _ _ _ _ _ C P).
Qed.

End NotParsed.

(** C1, as the code has it.  Take a run of [summarize_structured] on a
    transcript with content, and let [t] be the text of its final
    structured call: the stripped transcript when that has at most 12,000
    characters, the chunk summaries joined by blank lines when it has
    more.  If the response to that call cannot be parsed, the run does not
    raise: it returns the extractive fallback of [t], with empty lists.
    That fallback is the first five sentences of [t] joined by spaces and
    capped to 1,200 characters, and for a transcript of at most 12,000
    characters it is the fallback of the transcript.  A chunk whose
    response cannot be parsed has the fallback of the chunk as its
    summary. *)
Theorem unparseable_response_falls_back
    lower py_repr self net title language text log t l out log' :
  final_call lower py_repr self net title language text log t l ->
  _ollama_call py_repr self (_prompt_structured lower t language title false) net l
    = (Ok out, log') ->
  _parse_json out = None ->
  summarize_structured lower py_repr self text title language net log
    = (Ok (MkSummaryResult (_fallback_summary t) [] [] [] []), log')
  /\ (forall s, _fallback_summary s = extractive_fallback s
                /\ (len (_fallback_summary s) <= 1200)%N)
  /\ ((len (strip text) <= 12000)%N ->
      t = strip text /\ l = log /\ _fallback_summary t = _fallback_summary text)
  /\ (forall chunk chunk_title log0 out0 log0',
        _ollama_call py_repr self (_prompt_structured lower chunk language chunk_title true)
          net log0 = (Ok out0, log0') ->
        _parse_json out0 = None ->
        _summarize_chunk lower py_repr self chunk language chunk_title net log0
        = (Ok (_fallback_summary chunk), log0')).
Proof.
  intros F C P. split; [|split; [|split]].
  - apply (summarize_structured_not_parsed lower py_repr self net title language text log
             t l out log' F C).
    rewrite P. reflexivity.
  - intros s. split; [apply fallback_summary_extractive | apply fallback_summary_cap].
  - intros L.
    destruct (final_call_short lower py_repr self net title language text log t l F L)
      as [-> ->].
    split; [reflexivity | split; [reflexivity | apply fallback_summary_strip]].
  - intros chunk chunk_title log0 out0 log0' C0 P0.
    apply (summarize_chunk_not_parsed lower py_repr self net chunk language chunk_title
             log0 out0 log0' C0).
    rewrite P0. reflexivity.
Qed.

(** A short transcript whose one response is no JSON, and 1,000 sentences
    whose three chunk responses parse and whose final response is no
    JSON. *)
Lemma unparseable_response_falls_back_witness :
  summarize_structured ascii_lower no_repr local_ollama
    (u "One. Two. Three. Four. Five. Six. ") (u "t") (u "en")
    (answering_then 1 (u "garbage") summary_s) []
  = (Ok (MkSummaryResult (u "One. Two. Three. Four. Five.") [] [] [] []),
     [chat_request local_ollama
        (_prompt_structured ascii_lower (u "One. Two. Three. Four. Five. Six.")
           (u "en") (u "t") false)])
  /\ fst (summarize_structured ascii_lower no_repr local_ollama (hello_world 1000)
            (u "t") (u "en") (answering_then 3 summary_s (u "garbage")) [])
     = Ok (MkSummaryResult (_fallback_summary (join [10%N; 10%N] [u "s"; u "s"; u "s"]))
             [] [] [] []).
Proof.
  split.
  - apply (unparseable_response_falls_back ascii_lower no_repr local_ollama
             (answering_then 1 (u "garbage") summary_s) (u "t") (u "en")
             (u "One. Two. Three. Four. Five. Six. ") []
             (u "One. Two. Three. Four. Five. Six.") [] (u "garbage")).
    + split; [vm_compute; discriminate | vm_compute; split; reflexivity].
    + vm_compute. reflexivity.
    + vm_compute. reflexivity.
  - assert (F : final_call ascii_lower no_repr local_ollama
                 (answering_then 3 summary_s (u "garbage")) (u "t") (u "en") (hello_world 1000) []
                 (join [10%N; 10%N] [u "s"; u "s"; u "s"])
                 (snd (summarize_chunks ascii_lower no_repr local_ollama
                         (_chunk_text (strip (hello_world 1000)) 6000 6) 1%N
                         (u "en") (u "t") (answering_then 3 summary_s (u "garbage")) []))).
    { split; [vm_compute; discriminate|].
      replace (12000 <? len (strip (hello_world 1000)))%N with true by (vm_compute; reflexivity).
      exists [u "s"; u "s"; u "s"]. split; [vm_compute; reflexivity | reflexivity]. }
    destruct (unparseable_response_falls_back ascii_lower no_repr local_ollama
                (answering_then 3 summary_s (u "garbage")) (u "t") (u "en") (hello_world 1000) []
                (join [10%N; 10%N] [u "s"; u "s"; u "s"])
                (snd (summarize_chunks ascii_lower no_repr local_ollama
                        (_chunk_text (strip (hello_world 1000)) 6000 6) 1%N
                        (u "en") (u "t") (answering_then 3 summary_s (u "garbage")) []))
                (u "garbage")
                (snd (summarize_structured ascii_lower no_repr local_ollama (hello_world 1000)
                        (u "t") (u "en") (answering_then 3 summary_s (u "garbage")) []))
                F) as [E _].
    + vm_compute. reflexivity.
    + vm_compute. reflexivity.
    + rewrite E. reflexivity.
Defined.

(** C1 as stated fails for a long transcript: with 1,000 sentences
    (13,000 characters) and an endpoint that answers "garbage", the summary
    is not the fallback of the transcript. *)
Lemma long_transcript_fallback_differs :
  _parse_json (u "garbage") = None
  /\ exists r log',
       summarize_structured ascii_lower no_repr local_ollama (hello_world 1000) (u "t") (u "en")
         (answering (u "garbage")) [] = (Ok r, log')
       /\ Service.summary r <> _fallback_summary (hello_world 1000).
Proof.
  split; [reflexivity|].
  eexists _, _. split; [vm_compute; reflexivity|].
  vm_compute. discriminate.
Qed.

(** A response that is JSON but no object, [[1]] for one, is none of these
    cases: [_parse_json] returns the list, [parsed.get] raises, and the
    caller gets the [AttributeError]. *)
Lemma json_array_response_raises :
  _parse_json (u "[1]") = Some (JArr [JInt 1])
  /\ fst (summarize_structured ascii_lower no_repr local_ollama (u "One. Two.") (u "t") (u "en")
            (answering (u "[1]")) [])
     = Raise AttributeError.
Proof. split; vm_compute; reflexivity. Qed.

(** C9.  A response to the final structured call that is valid JSON for a
    value that counts as false, the empty object [{}] in particular, is
    treated as one that cannot be parsed: the run returns the extractive
    fallback of the text of that call, with empty lists, which is the
    result of a run whose final call gets a response that is no JSON. *)
Theorem falsy_json_falls_back
    lower py_repr self net title language text log t l out log' v :
  final_call lower py_repr self net title language text log t l ->
  _ollama_call py_repr self (_prompt_structured lower t language title false) net l
    = (Ok out, log') ->
  _parse_json out = Some v -> truthy v = false ->
  summarize_structured lower py_repr self text title language net log
    = (Ok (MkSummaryResult (_fallback_summary t) [] [] [] []), log')
  /\ (forall net2 log2 l2 out2 log2',
        final_call lower py_repr self net2 title language text log2 t l2 ->
        _ollama_call py_repr self (_prompt_structured lower t language title false) net2 l2
          = (Ok out2, log2') ->
        _parse_json out2 = None ->
        fst (summarize_structured lower py_repr self text title language net log)
        = fst (summarize_structured lower py_repr self text title language net2 log2))
  /\ (_parse_json (u "{}") = Some (JObj []) /\ truthy (JObj []) = false).
Proof.
  intros F C P T.
  assert (E : summarize_structured lower py_repr self text title language net log
              = (Ok (empty_result (_fallback_summary t)), log')).
  { apply (summarize_structured_not_parsed lower py_repr self net title language text log
             t l out log' F C).
    rewrite P. cbn [not_]. rewrite T. reflexivity. }
  split; [exact E | split; [|split; reflexivity]].
  intros net2 log2 l2 out2 log2' F2 C2 P2.
  rewrite E.
  rewrite (summarize_structured_not_parsed lower py_repr self net2 title language text log2
             t l2 out2 log2' F2 C2); [reflexivity|].
  rewrite P2. reflexivity.
Qed.

(** The same two runs with [{}] in the place of the text that is no
    JSON. *)
Lemma falsy_json_falls_back_witness :
  summarize_structured ascii_lower no_repr local_ollama
    (u "One. Two. Three. Four. Five. Six. ") (u "t") (u "en")
    (answering_then 1 (u "{}") summary_s) []
  = (Ok (MkSummaryResult (u "One. Two. Three. Four. Five.") [] [] [] []),
     [chat_request local_ollama
        (_prompt_structured ascii_lower (u "One. Two. Three. Four. Five. Six.")
           (u "en") (u "t") false)])
  /\ fst (summarize_structured ascii_lower no_repr local_ollama (hello_world 1000)
            (u "t") (u "en") (answering_then 3 summary_s (u "{}")) [])
     = Ok (MkSummaryResult (_fallback_summary (join [10%N; 10%N] [u "s"; u "s"; u "s"]))
             [] [] [] []).
Proof.
  split.
  - apply (falsy_json_falls_back ascii_lower no_repr local_ollama
             (answering_then 1 (u "{}") summary_s) (u "t") (u "en")
             (u "One. Two. Three. Four. Five. Six. ") []
             (u "One. Two. Three. Four. Five. Six.") [] (u "{}") _ (JObj [])).
    + split; [vm_compute; discriminate | vm_compute; split; reflexivity].
    + vm_compute. reflexivity.
    + vm_compute. reflexivity.
    + reflexivity.
  - assert (F : final_call ascii_lower no_repr local_ollama
                 (answering_then 3 summary_s (u "{}")) (u "t") (u "en") (hello_world 1000) []
                 (join [10%N; 10%N] [u "s"; u "s"; u "s"])
                 (snd (summarize_chunks ascii_lower no_repr local_ollama
                         (_chunk_text (strip (hello_world 1000)) 6000 6) 1%N
                         (u "en") (u "t") (answering_then 3 summary_s (u "{}")) []))).
    { split; [vm_compute; discriminate|].
      replace (12000 <? len (strip (hello_world 1000)))%N with true by (vm_compute; reflexivity).
      exists [u "s"; u "s"; u "s"]. split; [vm_compute; reflexivity | reflexivity]. }
    destruct (falsy_json_falls_back ascii_lower no_repr local_ollama
                (answering_then 3 summary_s (u "{}")) (u "t") (u "en") (hello_world 1000) []
                (join [10%N; 10%N] [u "s"; u "s"; u "s"])
                (snd (summarize_chunks ascii_lower no_repr local_ollama
                        (_chunk_text (strip (hello_world 1000)) 6000 6) 1%N
                        (u "en") (u "t") (answering_then 3 summary_s (u "{}")) []))
                (u "{}")
                (snd (summarize_structured ascii_lower no_repr local_ollama (hello_world 1000)
                        (u "t") (u "en") (answering_then 3 summary_s (u "{}")) []))
                (JObj [])
                F) as [E _].
    + vm_compute. reflexivity.
    + vm_compute. reflexivity.
    + reflexivity.
    + rewrite E. reflexivity.
Defined.
